(** * audittings: the batch SEO audit route (app/api/audit/route.ts)

    A shallow embedding of the audit engine of the route handler: origin
    normalisation, JSON-LD extraction, contact discovery, the home-page
    issue evaluator, the scoring engine and the request handler, followed
    by the properties of the specification that concern them.  The schema
    suggestions, the core files check, the crawl, the single-site audit
    and the helpers of the audit page (app/audit/page.tsx) come after
    them, with further properties of the whole at the end.

    Conventions.
    - A JavaScript string is the list of its UTF-16 code units ([jsstring]);
      [lit] injects an ASCII literal.
    - A JavaScript number is an IEEE 754 binary64 value: Rocq's primitive
      [float].  [Math_round] is Math.round.
    - Regular expressions are abstract syntax trees run by a backtracking
      matcher that follows the ECMAScript matcher semantics ([RegExp]).
      Where a comment quotes a pattern of the source, \x22 and \x27 stand
      for the double and the single quote character, and a star is kept
      apart from a closing parenthesis by a space.
    - What the JavaScript host provides and the repository does not define
      (the URL parser, JSON.parse, Unicode case mapping, number printing) is
      a record [Host]; every function that reaches one of them takes it as a
      parameter.
    - The network is a function [Fetch] from the URL requested to the
      response or to the exception the request is rejected with. *)

From Stdlib Require Import ZArith NArith QArith Qround List String Ascii Floats Lia Bool.
From stdpp Require Import gmap.
Import ListNotations.
Local Open Scope Z_scope.
Set Warnings "-inexact-float".

(* ================================================================== *)
(** ** JavaScript strings *)
(* ================================================================== *)

Definition jsstring : Type := list N.

Definition lit (s : string) : jsstring :=
  List.map N_of_ascii (list_ascii_of_string s).

Definition str_eqb (a b : jsstring) : bool := bool_decide (a = b).

Module Str.

Fixpoint startsWith (p s : jsstring) : bool :=
  match p, s with
  | [], _ => true
  | c :: p', d :: s' => N.eqb c d && startsWith p' s'
  | _ :: _, [] => false
  end.

Fixpoint includes (p s : jsstring) : bool :=
  startsWith p s ||
  match s with
  | [] => false
  | _ :: s' => includes p s'
  end.

Definition endsWith (p s : jsstring) : bool :=
  startsWith (rev p) (rev s).

(** [s.slice(n)] for a non-negative [n]. *)
Definition slice (n : nat) (s : jsstring) : jsstring := skipn n s.

(** White space and line terminators: the characters of [\s], which are
    also the ones [trim] removes. *)
Definition isSpace (c : N) : bool :=
  ((9 <=? c) && (c <=? 13) || (c =? 32) || (c =? 160) || (c =? 5760)
   || (8192 <=? c) && (c <=? 8202) || (c =? 8232) || (c =? 8233)
   || (c =? 8239) || (c =? 8287) || (c =? 12288) || (c =? 65279))%N.

Fixpoint trimStart (s : jsstring) : jsstring :=
  match s with
  | c :: s' => if isSpace c then trimStart s' else s
  | [] => []
  end.

Definition trim (s : jsstring) : jsstring :=
  rev (trimStart (rev (trimStart s))).

Definition isUpper (c : N) : bool := ((65 <=? c) && (c <=? 90))%N.
Definition isLower (c : N) : bool := ((97 <=? c) && (c <=? 122))%N.

(** Case mapping restricted to ASCII letters; exact on strings whose
    code units are all below 128. *)
Definition asciiLower (s : jsstring) : jsstring :=
  List.map (fun c => if isUpper c then (c + 32)%N else c) s.
Definition asciiUpper (s : jsstring) : jsstring :=
  List.map (fun c => if isLower c then (c - 32)%N else c) s.

(** [s.split(sep)] for a one-character separator: never empty. *)
Fixpoint split (sep : N) (s : jsstring) : list jsstring :=
  match s with
  | [] => [[]]
  | c :: s' =>
      if N.eqb c sep then [] :: split sep s'
      else match split sep s' with
           | w :: ws => (c :: w) :: ws
           | [] => [[c]]
           end
  end.

(** Decimal digits of a natural number: [String(n)] for an integer
    [0 <= n < 2^53]. *)
Definition digit (n : N) : N := (48 + n)%N.

Fixpoint decimalAux (fuel : nat) (n : N) (acc : jsstring) : jsstring :=
  match fuel with
  | O => acc
  | S fuel' =>
      let acc' := digit (n mod 10) :: acc in
      if (n / 10 =? 0)%N then acc' else decimalAux fuel' (n / 10)%N acc'
  end.

Definition ofN (n : N) : jsstring := decimalAux (S (N.to_nat (N.log2 n))) n [].

End Str.

(* ================================================================== *)
(** ** JavaScript numbers *)
(* ================================================================== *)

(** The double that an integer literal or an integer count denotes (exact
    below 2^53). *)
Definition Z2F (z : Z) : float :=
  match z with
  | Z0 => 0%float
  | Zpos _ => PrimFloat.of_uint63 (Uint63.of_Z z)
  | Zneg p => PrimFloat.opp (PrimFloat.of_uint63 (Uint63.of_Z (Zpos p)))
  end.

Definition nat2F (n : nat) : float := Z2F (Z.of_nat n).

(** Math.round: the integer closest to [x], ties towards +infinity, that is
    floor(x + 1/2) computed exactly; zeros, infinities and NaN are returned
    as they are, and a negative [x] that rounds to zero gives -0. *)
Definition Math_round (x : float) : float :=
  match Prim2SF x with
  | S754_finite s m e =>
      if 0 <=? e then x
      else
        let n := if s then Zneg m else Zpos m in
        let r := Z.shiftr (Z.double n + Z.shiftl 1 (- e)) (1 - e) in
        if (r =? 0) && s then (-0)%float else Z2F r
  | _ => x
  end.

(** ToBoolean on a number: 0, -0 and NaN are falsy. *)
Definition truthyNum (x : float) : bool :=
  negb (PrimFloat.eqb x 0) && PrimFloat.eqb x x.

(* ================================================================== *)
(** ** JavaScript values as JSON.parse produces them *)
(* ================================================================== *)

#[warnings="-register-all"] Inductive JSON : Type :=
| JNull
| JBool (b : bool)
| JNum (x : float)
| JStr (s : jsstring)
| JArr (xs : list JSON)
| JObj (fields : list (jsstring * JSON)).

(** ToBoolean. *)
Definition truthy (v : JSON) : bool :=
  match v with
  | JNull => false
  | JBool b => b
  | JNum x => truthyNum x
  | JStr s => negb (Nat.eqb (List.length s) 0)
  | JArr _ | JObj _ => true
  end.

Fixpoint assoc (k : jsstring) (fields : list (jsstring * JSON)) : option JSON :=
  match fields with
  | [] => None
  | (k', v) :: rest => if str_eqb k k' then Some v else assoc k rest
  end.

(** [v[k]] for one of the property names the code reads ([@type],
    [contactPoint], [email], [telephone], [contactType]): an own property
    of an object, [undefined] ([None]) on every other value. *)
Definition jsGet (v : JSON) (k : jsstring) : option JSON :=
  match v with
  | JObj fields => assoc k fields
  | _ => None
  end.

(** An optional value is truthy when it is defined and truthy. *)
Definition truthyOpt (o : option JSON) : bool :=
  match o with
  | Some v => truthy v
  | None => false
  end.

(* ================================================================== *)
(** ** Regular expressions *)
(* ================================================================== *)

Module RegExp.

(** The pattern syntax the route uses.  A character class is a list of
    inclusive code-unit ranges, possibly negated; [Rep] is a quantifier
    with its bounds and greediness; [Grp] is a capturing group with its
    number (a non-capturing group is its body). *)
Inductive re : Type :=
| Eps
| Chr (c : N)
| Cls (negated : bool) (ranges : list (N * N))
| Seq (r1 r2 : re)
| Alt (r1 r2 : re)
| Rep (min : nat) (max : option nat) (greedy : bool) (r : re)
| Grp (i : nat) (r : re)
| Bnd
| Bol.

Record regex : Type := { source : re; ignoreCase : bool; global : bool }.

(** A position in the subject: the number of code units before it, the
    code unit just before it, what follows, and the captures so far. *)
Record state : Type := {
  pos : nat;
  prev : option N;
  rest : jsstring;
  caps : list (nat * jsstring)
}.

Definition isLetter (c : N) : bool := Str.isUpper c || Str.isLower c.
Definition isWord (c : N) : bool :=
  (isLetter c || (48 <=? c) && (c <=? 57) || (c =? 95))%N.

(** Canonicalize of the specification, for patterns whose cased
    characters are ASCII letters: a code unit above 127 never becomes
    equal to an ASCII one. *)
Definition canon (ic : bool) (c : N) : N :=
  if ic && Str.isLower c then (c - 32)%N else c.

Definition swapCase (c : N) : N :=
  if Str.isLower c then (c - 32)%N
  else if Str.isUpper c then (c + 32)%N else c.

Definition inRanges (ranges : list (N * N)) (c : N) : bool :=
  existsb (fun '(lo, hi) => (lo <=? c) && (c <=? hi))%N ranges.

Definition inClass (ic : bool) (ranges : list (N * N)) (c : N) : bool :=
  inRanges ranges c || ic && isLetter c && inRanges ranges (swapCase c).

Definition advance (s : state) : option (N * state) :=
  match rest s with
  | [] => None
  | c :: tl =>
      Some (c, {| pos := S (pos s); prev := Some c; rest := tl; caps := caps s |})
  end.

Definition isWordOpt (o : option N) : bool :=
  match o with
  | Some c => isWord c
  | None => false
  end.

Fixpoint groups (r : re) : list nat :=
  match r with
  | Seq r1 r2 | Alt r1 r2 => groups r1 ++ groups r2
  | Rep _ _ _ r' => groups r'
  | Grp i r' => i :: groups r'
  | _ => []
  end.

Definition clearCaps (gs : list nat) (s : state) : state :=
  {| pos := pos s; prev := prev s; rest := rest s;
     caps := List.filter (fun '(i, _) => negb (existsb (Nat.eqb i) gs)) (caps s) |}.

Definition setCap (i : nat) (from to : state) : state :=
  {| pos := pos to; prev := prev to; rest := rest to;
     caps := (i, firstn (pos to - pos from) (rest from))
             :: List.filter (fun '(j, _) => negb (Nat.eqb i j)) (caps to) |}.

Definition decr (o : option nat) : option nat := option_map Nat.pred o.

(** The matcher of a pattern: given the continuation [k] for what follows
    the pattern, it returns the first end state the backtracking search
    reaches, exactly as the specification's matchers do.  A quantifier
    with minimum 0 rejects an iteration that consumes nothing, so the
    number of iterations is bounded by the minimum plus what is left of
    the subject: [rep]'s fuel never runs out. *)
Fixpoint run (ic : bool) (r : re) (k : state -> option state) (s : state)
  {struct r} : option state :=
  match r with
  | Eps => k s
  | Chr c =>
      match advance s with
      | Some (x, s') => if N.eqb (canon ic x) (canon ic c) then k s' else None
      | None => None
      end
  | Cls negated ranges =>
      match advance s with
      | Some (x, s') =>
          if xorb negated (inClass ic ranges x) then k s' else None
      | None => None
      end
  | Seq r1 r2 => run ic r1 (fun s' => run ic r2 k s') s
  | Alt r1 r2 =>
      match run ic r1 k s with
      | Some e => Some e
      | None => run ic r2 k s
      end
  | Grp i r' => run ic r' (fun s' => k (setCap i s s')) s
  | Bnd =>
      if xorb (isWordOpt (prev s)) (isWordOpt (hd_error (rest s)))
      then k s else None
  | Bol => if Nat.eqb (pos s) 0 then k s else None
  | Rep min max greedy r' =>
      (fix rep (fuel min : nat) (max : option nat) (x : state) {struct fuel}
         : option state :=
         match fuel with
         | O => None
         | S fuel' =>
             match max with
             | Some O => k x
             | _ =>
                 let d := fun y : state =>
                   if Nat.eqb min 0 && Nat.eqb (pos y) (pos x) then None
                   else rep fuel' (Nat.pred min) (decr max) y in
                 let xr := clearCaps (groups r') x in
                 if negb (Nat.eqb min 0) then run ic r' d xr
                 else if greedy then
                   match run ic r' d xr with
                   | Some e => Some e
                   | None => k x
                   end
                 else
                   match k x with
                   | Some e => Some e
                   | None => run ic r' d xr
                   end
             end
         end) (S (min + List.length (rest s))) min max s
  end.

(** A successful match: where it starts and ends, the matched text
    ([m[0]]) and the captures. *)
Record result : Type := {
  index : nat;
  endIndex : nat;
  matched : jsstring;
  captures : list (nat * jsstring);
  after : state
}.

(** [m[i]] for a group number [i >= 1]: [None] is [undefined]. *)
Definition group (m : result) (i : nat) : option jsstring :=
  snd <$> List.find (fun '(j, _) => Nat.eqb i j) (captures m).

Definition mkResult (from to : state) : result :=
  {| index := pos from; endIndex := pos to;
     matched := firstn (pos to - pos from) (rest from);
     captures := caps to; after := to |}.

(** The leftmost match at or after a position. *)
Fixpoint search (ic : bool) (r : re) (p : nat) (pv : option N) (rs : jsstring)
  {struct rs} : option result :=
  let s := {| pos := p; prev := pv; rest := rs; caps := [] |} in
  match run ic r Some s with
  | Some e => Some (mkResult s e)
  | None =>
      match rs with
      | [] => None
      | c :: rs' => search ic r (S p) (Some c) rs'
      end
  end.

(** The successive matches of a global pattern: each search resumes
    where the previous match ended, one code unit further after an empty
    match. *)
Fixpoint allFrom (fuel : nat) (ic : bool) (r : re) (p : nat) (pv : option N)
  (rs : jsstring) : list result :=
  match fuel with
  | O => []
  | S fuel' =>
      match search ic r p pv rs with
      | None => []
      | Some m =>
          let e := after m in
          if Nat.eqb (endIndex m) (index m) then
            match advance e with
            | Some (_, e') => m :: allFrom fuel' ic r (pos e') (prev e') (rest e')
            | None => [m]
            end
          else m :: allFrom fuel' ic r (pos e) (prev e) (rest e)
      end
  end.

(** [re.exec(s)] on a pattern whose [lastIndex] is 0: the first match. *)
Definition exec (re : regex) (s : jsstring) : option result :=
  search (ignoreCase re) (source re) 0 None s.

(** [re.test(s)]. *)
Definition test (re : regex) (s : jsstring) : bool :=
  match exec re s with
  | Some _ => true
  | None => false
  end.

(** [s.matchAll(re)], and the results of calling [re.exec(s)] in a loop
    until it returns null, for a global pattern (the two agree when no
    match is empty). *)
Definition matchAll (re : regex) (s : jsstring) : list result :=
  allFrom (S (List.length s)) (ignoreCase re) (source re) 0 None s.

(** The matches [s.replace(re, _)] replaces: all of them for a global
    pattern, the first one otherwise. *)
Definition replaced (re : regex) (s : jsstring) : list result :=
  if global re then matchAll re s
  else match exec re s with
       | Some m => [m]
       | None => []
       end.

Fixpoint splice (ms : list result) (from : nat) (s : jsstring) (by_ : jsstring)
  : jsstring :=
  match ms with
  | [] => s
  | m :: ms' =>
      firstn (index m - from) s ++ by_
      ++ splice ms' (endIndex m) (skipn (endIndex m - from) s) by_
  end.

(** [s.replace(re, by)] for a replacement text without [$] patterns. *)
Definition replace (re : regex) (by_ : jsstring) (s : jsstring) : jsstring :=
  splice (replaced re s) 0 s by_.

(** Pattern combinators. *)
Definition str (s : string) : re :=
  fold_right (fun c r => Seq (Chr c) r) Eps (lit s).
Definition oneOf (s : string) : list (N * N) :=
  List.map (fun c => (c, c)) (lit s).
Definition range (lo hi : string) : list (N * N) :=
  match lit lo, lit hi with
  | [a], [b] => [(a, b)]
  | _, _ => []
  end.
Definition star (r : re) : re := Rep 0 None true r.
Definition starLazy (r : re) : re := Rep 0 None false r.
Definition plus (r : re) : re := Rep 1 None true r.
Definition opt (r : re) : re := Rep 0 (Some 1%nat) true r.
Definition atLeast (n : nat) (r : re) : re := Rep n None true r.
Definition between (n m : nat) (r : re) : re := Rep n (Some m) true r.

(** Character classes shared by the patterns. *)
Definition dquote : N := 34%N.
Definition squote : N := 39%N.
Definition quotes : list (N * N) := [(squote, squote); (dquote, dquote)].
Definition space : list (N * N) :=
  [(9, 13); (32, 32); (160, 160); (5760, 5760); (8192, 8202); (8232, 8233);
   (8239, 8239); (8287, 8287); (12288, 12288); (65279, 65279)]%N.
Definition digits : list (N * N) := [(48, 57)]%N.
(** [[\s\S]]: any code unit. *)
Definition any : re := Cls true [].
(** The class of the two quote characters, and its complement. *)
Definition quote : re := Cls false quotes.
Definition notQuote : re := Cls true quotes.
(** [^>]. *)
Definition notGt : re := Cls true (oneOf ">").

(** Concatenation and alternation of several patterns. *)
Definition cat (rs : list re) : re := fold_right Seq Eps rs.
Fixpoint alt (rs : list re) : re :=
  match rs with
  | [] => Eps
  | [r] => r
  | r :: rs' => Alt r (alt rs')
  end.

End RegExp.

(* ================================================================== *)
(** ** The host environment *)
(* ================================================================== *)

(** Exceptions.  [InvalidURL s] is the TypeError that [new URL(s)] throws
    on a string it cannot parse; [Error m] is [new Error(m)]. *)
Inductive exn : Type :=
| InvalidURL (input : jsstring)
| TypeError (message : jsstring)
| Error (message : jsstring).

Inductive completion (T : Type) : Type :=
| Ok (v : T)
| Throw (e : exn).
Arguments Ok {T} v.
Arguments Throw {T} e.

(** Sequencing: an exception ends the computation. *)
Definition andThen {T U : Type} (c : completion T) (k : T -> completion U)
  : completion U :=
  match c with
  | Ok v => k v
  | Throw e => Throw e
  end.

(** The pushes of a loop whose body may throw, in order. *)
Fixpoint flatMapM {T U : Type} (f : T -> completion (list U)) (l : list T)
  : completion (list U) :=
  match l with
  | [] => Ok []
  | x :: rest =>
      andThen (f x) (fun ys =>
        andThen (flatMapM f rest) (fun zs => Ok (ys ++ zs)))
  end.

Module URL.
(** The two members of a URL object the route reads. *)
Record t : Type := { origin : jsstring; href : jsstring }.
End URL.

(** What the route takes from the JavaScript runtime.
    - [URL_new s base] is [new URL(s)] or [new URL(s, base)]; [None] when
      the constructor throws.
    - [JSON_parse s] is [JSON.parse(s)]; [None] when it throws.
    - [String_toLowerCase] is the Unicode lower-casing of a string.
    - [Number_toString] is [String(x)] on a number.
    - [THIS_YEAR] is [new Date().getFullYear()] when the module loads. *)
Record Host : Type := {
  URL_new : jsstring -> option jsstring -> option URL.t;
  JSON_parse : jsstring -> option JSON;
  String_toLowerCase : jsstring -> jsstring;
  Number_toString : float -> jsstring;
  THIS_YEAR : N
}.

(** The TypeError of a conversion to a primitive value that finds none. *)
Definition notPrimitive : exn :=
  TypeError (lit "Cannot convert object to primitive value").

(** [String(v)] on a parsed JSON value.  An object is converted by its
    [toString] method and then by [valueOf]: the inherited [toString]
    gives [[object Object]], but an own property named [toString], which
    JSON.parse never makes callable, hides it, the inherited [valueOf]
    returns the object itself, and the conversion throws.  An array
    converts its elements in turn, null as the empty string, and joins
    them with commas. *)
Fixpoint JS_String (h : Host) (v : JSON) : completion jsstring :=
  match v with
  | JNull => Ok (lit "null")
  | JBool true => Ok (lit "true")
  | JBool false => Ok (lit "false")
  | JNum x => Ok (Number_toString h x)
  | JStr s => Ok s
  | JArr xs =>
      (fix join (xs : list JSON) : completion jsstring :=
         let element (x : JSON) : completion jsstring :=
           match x with
           | JNull => Ok []
           | _ => JS_String h x
           end in
         match xs with
         | [] => Ok []
         | [x] => element x
         | x :: rest =>
             andThen (element x) (fun first =>
               andThen (join rest) (fun others => Ok (first ++ lit "," ++ others)))
         end) xs
  | JObj fields =>
      match assoc (lit "toString") fields with
      | Some _ => Throw notPrimitive
      | None => Ok (lit "[object Object]")
      end
  end.

(* ================================================================== *)
(** ** Utils *)
(* ================================================================== *)

(** [[...new Set(arr)]]: the first occurrence of each element, in order. *)
Fixpoint uniqueAcc (seen arr : list jsstring) : list jsstring :=
  match arr with
  | [] => []
  | x :: rest =>
      if existsb (str_eqb x) seen then uniqueAcc seen rest
      else x :: uniqueAcc (x :: seen) rest
  end.

Definition unique (arr : list jsstring) : list jsstring := uniqueAcc [] arr.

(** The string handed to the URL parser. *)
Definition withScheme (input : jsstring) : jsstring :=
  if Str.startsWith (lit "http") input then input
  else lit "https://" ++ input.

Definition normaliseOrigin (h : Host) (input : jsstring) : completion jsstring :=
  match URL_new h (withScheme input) None with
  | None => Throw (InvalidURL (withScheme input))
  | Some u =>
      match URL_new h (URL.origin u) None with
      | None => Throw (InvalidURL (URL.origin u))
      | Some o => Ok (URL.href o)
      end
  end.

(* ================================================================== *)
(** ** JSON-LD extraction *)
(* ================================================================== *)

Import RegExp.

Definition re_i (r : re) : regex := {| source := r; ignoreCase := true; global := false |}.
Definition re_gi (r : re) : regex := {| source := r; ignoreCase := true; global := true |}.
Definition re_g (r : re) : regex := {| source := r; ignoreCase := false; global := true |}.
Definition re_ (r : re) : regex := {| source := r; ignoreCase := false; global := false |}.

(** [m[i]] of a group that takes part in every match. *)
Definition grp (m : result) (i : nat) : jsstring := default [] (group m i).

(** /<script[^>]+type=\x22application\/ld\+json\x22[^>]*>([\s\S]*?)<\/script>/gi *)
Definition jsonLdRe : regex :=
  re_gi (cat [str "<script"; plus notGt; str "type="; Chr dquote;
              str "application/ld+json"; Chr dquote; star notGt; str ">";
              Grp 1 (starLazy any); str "</script>"]).

(** One turn of the loop: what a block adds to [out].  A block that
    JSON.parse rejects lands in the empty [catch] and adds nothing. *)
Definition jsonLdBlock (h : Host) (m : result) : list JSON :=
  match JSON_parse h (Str.trim (grp m 1)) with
  | Some (JArr items) => items
  | Some json => [json]
  | None => []
  end.

Definition extractJsonLd (h : Host) (html : jsstring) : list JSON :=
  flat_map (jsonLdBlock h) (matchAll jsonLdRe html).

(* ================================================================== *)
(** ** Small crawl for contact discovery *)
(* ================================================================== *)

Module Contact.
Record t : Type := {
  type : jsstring;
  value : jsstring;
  sourceUrl : jsstring;
  context : option JSON;
  confidence : float
}.
End Contact.

(** /([a-z0-9._%+-]+)\s?(?:\[at\]|@)\s?([a-z0-9.-]+\.[a-z]{2,})/ig *)
Definition EMAIL_RE : regex :=
  re_gi (cat [Grp 1 (plus (Cls false (range "a" "z" ++ digits ++ oneOf "._%+-")));
              opt (Cls false space);
              alt [str "[at]"; str "@"];
              opt (Cls false space);
              Grp 2 (cat [plus (Cls false (range "a" "z" ++ digits ++ oneOf ".-"));
                          str ".";
                          atLeast 2 (Cls false (range "a" "z"))])]).

(** /(?:(?:\+?\d{1,3}[\s-]?)?(?:\(?0?\d{2,4}\)?[\s.-]?)?\d{3,4}[\s.-]?\d{3,4})/g *)
Definition PHONE_RE : regex :=
  re_g (cat [opt (cat [opt (str "+"); between 1 3 (Cls false digits);
                       opt (Cls false (space ++ oneOf "-"))]);
             opt (cat [opt (str "("); opt (str "0"); between 2 4 (Cls false digits);
                       opt (str ")"); opt (Cls false (space ++ oneOf ".-"))]);
             between 3 4 (Cls false digits);
             opt (Cls false (space ++ oneOf ".-"));
             between 3 4 (Cls false digits)]).

(** str.replace(/\s?\[at\]\s?/i, '@').replace(/\s?\[dot\]\s?/ig, '.') *)
Definition deobfuscateEmail (s : jsstring) : jsstring :=
  replace (re_gi (cat [opt (Cls false space); str "[dot]"; opt (Cls false space)]))
    (lit ".")
    (replace (re_i (cat [opt (Cls false space); str "[at]"; opt (Cls false space)]))
       (lit "@") s).

(** /<a[^>]+href=[\x27\x22]([^\x27\x22]+)[\x27\x22][^>]*>([\s\S]*?)<\/a>/gi *)
Definition linkRe : regex :=
  re_gi (cat [str "<a"; plus notGt; str "href="; quote; Grp 1 (plus notQuote);
              quote; star notGt; str ">"; Grp 2 (starLazy any); str "</a>"]).

(** /<[^>]*>/g and /<[^>]+>/g *)
Definition anyTagRe : regex := re_g (cat [str "<"; star notGt; str ">"]).
Definition tagRe : regex := re_g (cat [str "<"; plus notGt; str ">"]).
(** /<script[\s\S]*?<\/script>/gi and /<style[\s\S]*?<\/style>/gi *)
Definition scriptRe : regex := re_gi (cat [str "<script"; starLazy any; str "</script>"]).
Definition styleRe : regex := re_gi (cat [str "<style"; starLazy any; str "</style>"]).
(** /\s+/g *)
Definition spacesRe : regex := re_g (plus (Cls false space)).

Definition mkContact (type value sourceUrl : jsstring) (context : option JSON)
  (confidence : float) : Contact.t :=
  {| Contact.type := type; Contact.value := value; Contact.sourceUrl := sourceUrl;
     Contact.context := context; Contact.confidence := confidence |}.

Definition when {T : Type} (b : bool) (x : T) : list T := if b then [x] else [].

(** The pushes of one anchor, in source order. *)
Definition linkContacts (url : jsstring) (m : result) : list Contact.t :=
  let href := grp m 1 in
  let text := Some (JStr (Str.trim (replace anyTagRe [] (grp m 2)))) in
  when (Str.startsWith (lit "mailto:") href)
    (mkContact (lit "email") (Str.slice 7 href) url text 0.9)
  ++ when (Str.startsWith (lit "tel:") href)
    (mkContact (lit "phone") (Str.slice 4 href) url text 0.8)
  ++ when (Str.includes (lit "linkedin.com") href)
    (mkContact (lit "linkedin") href url text 0.7)
  ++ when (Str.includes (lit "calendly.com") href)
    (mkContact (lit "calendly") href url text 0.85)
  ++ when (Str.endsWith (lit ".vcf") href)
    (mkContact (lit "vcard") href url text 0.85).

(** The page text the e-mail and phone patterns scan. *)
Definition bodyText (html : jsstring) : jsstring :=
  replace tagRe (lit " ") (replace styleRe [] (replace scriptRe [] html)).

Definition emailContact (url : jsstring) (e : result) : Contact.t :=
  mkContact (lit "email")
    (Str.asciiLower (deobfuscateEmail (grp e 1 ++ lit "@" ++ grp e 2)))
    url None 0.6.

Definition phoneContact (url : jsstring) (ph : result) : Contact.t :=
  mkContact (lit "phone") (Str.trim (replace spacesRe (lit " ") (matched ph)))
    url None 0.5.

(** The pushes of one entry of an Organization's [contactPoint];
    [String(c.email)] and [String(c.telephone)] may throw. *)
Definition contactPointContacts (h : Host) (url : jsstring) (c : JSON)
  : completion (list Contact.t) :=
  andThen
    match jsGet c (lit "email") with
    | Some email =>
        if truthy email then
          andThen (JS_String h email) (fun value =>
            Ok [mkContact (lit "email") value url (jsGet c (lit "contactType")) 0.85])
        else Ok []
    | None => Ok []
    end
    (fun emails =>
       andThen
         match jsGet c (lit "telephone") with
         | Some telephone =>
             if truthy telephone then
               andThen (JS_String h telephone) (fun value =>
                 Ok [mkContact (lit "phone") value url
                       (jsGet c (lit "contactType")) 0.8])
             else Ok []
         | None => Ok []
         end
         (fun phones => Ok (emails ++ phones))).

Definition isOrganization (item : JSON) : bool :=
  truthy item &&
  match jsGet item (lit "@type") with
  | Some (JStr t) => str_eqb t (lit "Organization")
  | _ => false
  end.

Definition itemContacts (h : Host) (url : jsstring) (item : JSON)
  : completion (list Contact.t) :=
  if isOrganization item then
    match jsGet item (lit "contactPoint") with
    | Some contactPoint =>
        if truthy contactPoint then
          let arr := match contactPoint with
                     | JArr cs => cs
                     | c => [c]
                     end in
          flatMapM (contactPointContacts h url) arr
        else Ok []
    | None => Ok []
    end
  else Ok [].

(** Everything one page pushes onto [out]; only the JSON-LD part may
    throw, and an exception leaves the whole discovery without result. *)
Definition pageContacts (h : Host) (page : jsstring * jsstring)
  : completion (list Contact.t) :=
  let '(url, html) := page in
  andThen (flatMapM (itemContacts h url) (extractJsonLd h html)) (fun organization =>
    Ok (flat_map (linkContacts url) (matchAll linkRe html)
        ++ List.map (emailContact url) (matchAll EMAIL_RE (bodyText html))
        ++ List.map (phoneContact url) (matchAll PHONE_RE (bodyText html))
        ++ organization)).

(** [arr.sort(cmp)]: Array.prototype.sort is stable, so for a consistent
    comparator the result is the one of a stable insertion sort. *)
Section Sort.
Context {T : Type} (cmp : T -> T -> float).

Fixpoint insertSorted (x : T) (sorted : list T) : list T :=
  match sorted with
  | [] => [x]
  | y :: rest =>
      if PrimFloat.ltb 0 (cmp x y) then y :: insertSorted x rest
      else x :: y :: rest
  end.

Definition sort (arr : list T) : list T := fold_right insertSorted [] arr.
End Sort.

Definition isReachable (c : Contact.t) : bool :=
  str_eqb (Contact.type c) (lit "email") || str_eqb (Contact.type c) (lit "calendly").

(** out.filter(...).sort((a,b)=>b.confidence-a.confidence)[0] || null *)
Definition pickBest (out : list Contact.t) : option Contact.t :=
  hd_error
    (sort (fun a b => PrimFloat.sub (Contact.confidence b) (Contact.confidence a))
       (List.filter isReachable out)).

Module Discovery.
Record t : Type := { contacts : list Contact.t; best : option Contact.t }.
End Discovery.

Definition discoverContacts (h : Host) (pages : list (jsstring * jsstring))
  : completion Discovery.t :=
  andThen (flatMapM (pageContacts h) pages) (fun out =>
    Ok {| Discovery.contacts := out; Discovery.best := pickBest out |}).

(* ================================================================== *)
(** ** On-page checks (incl. Entity Trust & Hygiene signals) *)
(* ================================================================== *)

Inductive Status : Type := pass | warn | fail.

Module Issue.
(** [{ id, status, details?, fix?, page?, category? }]; the field [fix]
    is [fix_] here. *)
Record t : Type := {
  id : jsstring;
  status : Status;
  details : option JSON;
  fix_ : option jsstring;
  page : option jsstring;
  category : option jsstring
}.
End Issue.

Definition mkIssue (id : string) (status : Status) (details : option JSON)
  (fix_ : jsstring) (page : jsstring) (category : string) : Issue.t :=
  {| Issue.id := lit id; Issue.status := status; Issue.details := details;
     Issue.fix_ := Some fix_; Issue.page := Some page;
     Issue.category := Some (lit category) |}.

(** The [Headers] object, observed through [get]. *)
Definition Headers : Type := jsstring -> option jsstring.

Definition obj (fields : list (jsstring * JSON)) : option JSON :=
  Some (JObj fields).
Definition field (k : string) (v : JSON) : jsstring * JSON := (lit k, v).
Definition JCount (n : nat) : JSON := JNum (nat2F n).

(** [re.exec(s)?.[i] || ''] *)
Definition execGroup (re : regex) (i : nat) (s : jsstring) : jsstring :=
  match exec re s with
  | Some m => grp m i
  | None => []
  end.

Definition nonEmpty (s : jsstring) : bool := negb (Nat.eqb (List.length s) 0).

(** An attribute test [name=Q value Q] with Q one of the two quotes. *)
Definition attr (name value : string) : re :=
  cat [str name; str "="; quote; str value; quote].

(** Title: /<title>([\s\S]*?)<\/title>/i *)
Definition titleRe : regex :=
  re_i (cat [str "<title>"; Grp 1 (starLazy any); str "</title>"]).

Definition titleIssue (html url : jsstring) : Issue.t :=
  let title := match exec titleRe html with
               | Some m => Str.trim (grp m 1)
               | None => []
               end in
  let tl := List.length title in
  let titleStatus :=
    if (15 <=? tl)%nat && (tl <=? 60)%nat then pass
    else if (8 <=? tl)%nat && (tl <=? 70)%nat then warn else fail in
  mkIssue "title_tag" titleStatus
    (obj [field "length" (JCount tl); field "title" (JStr title)])
    (lit "Craft unique, descriptive titles (" ++ [8804%N] ++ lit "60 chars).")
    url "onpage_seo".

(** Meta description:
    /<meta[^>]+name=[\x27\x22]description[\x27\x22][^>]+content=[\x27\x22]([^\x27\x22]* )[\x27\x22][^>]*>/i *)
Definition metaContentRe (name : string) : regex :=
  re_i (cat [str "<meta"; plus notGt; attr "name" name; plus notGt;
             str "content="; quote; Grp 1 (star notQuote); quote; star notGt;
             str ">"]).

Definition metaDescriptionIssue (html url : jsstring) : Issue.t :=
  let md := execGroup (metaContentRe "description") 1 html in
  let mdl := List.length (Str.trim md) in
  let mdStatus :=
    if Nat.eqb mdl 0 then fail
    else if (mdl <? 70)%nat || (160 <? mdl)%nat then warn else pass in
  mkIssue "meta_description" mdStatus (obj [field "length" (JCount mdl)])
    (lit "Write ~150-char descriptions matching intent.") url "onpage_seo".

(** Viewport: /<meta[^>]+name=[\x27\x22]viewport[\x27\x22][^>]+>/i *)
Definition viewportRe : regex :=
  re_i (cat [str "<meta"; plus notGt; attr "name" "viewport"; plus notGt; str ">"]).

Definition viewportIssue (html url : jsstring) : Issue.t :=
  let hasViewport := test viewportRe html in
  mkIssue "viewport_meta" (if hasViewport then pass else fail) None
    (lit "Add responsive viewport meta tag.") url "technical_seo".

(** Headings: /<(h[1-6])\b[^>]*>/gi *)
Definition headingRe : regex :=
  re_gi (cat [str "<"; Grp 1 (cat [str "h"; Cls false (range "1" "6")]); Bnd;
              star notGt; str ">"]).

(** [m[1].toUpperCase()]: the group is an ASCII [h] or [H] and a digit. *)
Definition headings (html : jsstring) : list jsstring :=
  List.map (fun m => Str.asciiUpper (grp m 1)) (matchAll headingRe html).

(** [parseInt(h.slice(1))] on a heading name: the value of its digit. *)
Definition headingLevel (h : jsstring) : Z :=
  match Str.slice 1 h with
  | d :: _ => Z.of_N d - 48
  | [] => 0
  end.

(** [arr.every((h,i,arr) => i===0 || level(arr[i]) - level(arr[i-1]) <= 1)] *)
Fixpoint hierarchyFrom (previous : jsstring) (arr : list jsstring) : bool :=
  match arr with
  | [] => true
  | h :: rest =>
      (headingLevel h - headingLevel previous <=? 1) && hierarchyFrom h rest
  end.

Definition hierarchyOk (arr : list jsstring) : bool :=
  match arr with
  | [] => true
  | h :: rest => hierarchyFrom h rest
  end.

Definition h1Issue (html url : jsstring) : Issue.t :=
  let hMatches := headings html in
  let h1Count := List.length (List.filter (str_eqb (lit "H1")) hMatches) in
  mkIssue "h1_tag"
    (if Nat.eqb h1Count 1 then pass else if Nat.eqb h1Count 0 then fail else warn)
    (obj [field "h1Count" (JCount h1Count)])
    (lit "Use exactly one H1.") url "onpage_seo".

Definition headingHierarchyIssue (html url : jsstring) : Issue.t :=
  let hMatches := headings html in
  mkIssue "heading_hierarchy" (if hierarchyOk hMatches then pass else warn)
    (obj [field "order" (JArr (List.map JStr hMatches))])
    (lit "Follow logical H2/H3 progression.") url "onpage_seo".

(** Canonical:
    /<link[^>]+rel=[\x27\x22]canonical[\x27\x22][^>]+href=[\x27\x22]([^\x27\x22]+)[\x27\x22][^>]*>/i *)
Definition canonicalRe : regex :=
  re_i (cat [str "<link"; plus notGt; attr "rel" "canonical"; plus notGt;
             str "href="; quote; Grp 1 (plus notQuote); quote; star notGt;
             str ">"]).

Definition canonicalIssue (html url : jsstring) : Issue.t :=
  let canonical := execGroup canonicalRe 1 html in
  mkIssue "canonical_tag"
    (if negb (nonEmpty canonical) then warn
     else if Str.startsWith url canonical then pass else warn)
    (obj [field "canonical" (JStr canonical)])
    (lit "Add self-referencing canonical.") url "technical_seo".

(** Robots: the meta tag, the X-Robots-Tag header and /(noindex|nofollow)/i *)
Definition forbids : regex :=
  re_i (Grp 1 (alt [str "noindex"; str "nofollow"])).

Definition metaRobotsIssue (html : jsstring) (headers : Headers) (url : jsstring)
  : Issue.t :=
  let robotsMeta := execGroup (metaContentRe "robots") 1 html in
  let robotsHeader := default [] (headers (lit "x-robots-tag")) in
  mkIssue "meta_robots"
    (if test forbids robotsMeta || test forbids robotsHeader then fail else pass)
    (obj [field "meta" (JStr robotsMeta); field "header" (JStr robotsHeader)])
    (lit "Remove accidental noindex/nofollow.") url "technical_seo".

(** OpenGraph: new RegExp(`<meta[^>]+property=[\x27\x22]${p}[\x27\x22]`,'i') *)
Definition ogRequired : list string := ["og:title"; "og:description"; "og:image"]%string.

Definition ogRe (p : string) : regex :=
  re_i (cat [str "<meta"; plus notGt; attr "property" p]).

Definition openGraphIssue (html url : jsstring) : Issue.t :=
  let missingOg := List.filter (fun p => negb (test (ogRe p) html)) ogRequired in
  mkIssue "open_graph"
    (if negb (Nat.eqb (List.length missingOg) 0)
     then (if Nat.eqb (List.length missingOg) (List.length ogRequired)
           then fail else warn)
     else pass)
    (obj [field "missing" (JArr (List.map (fun p => JStr (lit p)) missingOg))])
    (lit "Complete OG tags.") url "entity_trust".

(** Mixed content: /src=[\x27\x22]http:\/\//gi and /href=[\x27\x22]http:\/\//gi *)
Definition httpRefRe (name : string) : regex :=
  re_gi (cat [str name; str "="; quote; str "http://"]).

Definition mixedContentIssue (html url : jsstring) : Issue.t :=
  let httpAssets :=
    (List.length (matchAll (httpRefRe "src") html)
     + List.length (matchAll (httpRefRe "href") html))%nat in
  mkIssue "https_mixed_content"
    (if Nat.eqb httpAssets 0 then pass
     else if (httpAssets <? 3)%nat then warn else fail)
    (obj [field "httpAssets" (JCount httpAssets)])
    (lit "Serve assets over HTTPS.") url "technical_seo".

(** Images: /<img\b[^>]*>/gi, /\balt=/, /\bloading=[\x27\x22]lazy[\x27\x22]/,
    /\bsrc=[\x27\x22]([^\x27\x22]+)[\x27\x22]/, /[a-zA-Z]/, /^IMG[_-]?\d+/i
    and /^image\d+/i *)
Definition imgRe : regex :=
  re_gi (cat [str "<img"; Bnd; star notGt; str ">"]).
Definition altRe : regex := re_ (cat [Bnd; str "alt="]).
Definition lazyRe : regex := re_ (cat [Bnd; attr "loading" "lazy"]).
Definition srcRe : regex :=
  re_ (cat [Bnd; str "src="; quote; Grp 1 (plus notQuote); quote]).
Definition letterRe : regex :=
  re_ (Cls false (range "a" "z" ++ range "A" "Z")).
Definition cameraRe : regex :=
  re_i (cat [Bol; str "IMG"; opt (Cls false (oneOf "_-")); plus (Cls false digits)]).
Definition genericRe : regex :=
  re_i (cat [Bol; str "image"; plus (Cls false digits)]).

Definition imgTags (html : jsstring) : list jsstring :=
  List.map matched (matchAll imgRe html).

(** [n ? k/n : dflt] *)
Definition ratio (k n : nat) (dflt : float) : float :=
  if Nat.eqb n 0 then dflt else PrimFloat.div (nat2F k) (nat2F n).

Definition imageAltIssue (html url : jsstring) : Issue.t :=
  let tags := imgTags html in
  let imgCount := List.length tags in
  let imgNoAlt := List.length (List.filter (fun t => negb (test altRe t)) tags) in
  let missingRatio := ratio imgNoAlt imgCount 0 in
  mkIssue "image_alt"
    (if PrimFloat.leb missingRatio 0.1 then pass
     else if PrimFloat.leb missingRatio 0.3 then warn else fail)
    (obj [field "missingRatio" (JNum missingRatio)])
    (lit "Add alt text to important images.") url "onpage_seo".

Definition imageLazyIssue (html url : jsstring) : Issue.t :=
  let tags := imgTags html in
  let imgCount := List.length tags in
  let lazyCount := List.length (List.filter (test lazyRe) tags) in
  let lazyRatio := ratio lazyCount imgCount 0 in
  mkIssue "image_lazy"
    (if PrimFloat.leb 0.8 lazyRatio then pass
     else if PrimFloat.leb 0.5 lazyRatio then warn else fail)
    (obj [field "lazyRatio" (JNum lazyRatio)])
    (lit "Add loading=" ++ [dquote] ++ lit "lazy" ++ [dquote]
     ++ lit " to non-critical images.")
    url "onpage_seo".

(** [src.split('/').pop() || ''] *)
Definition fileName (src : jsstring) : jsstring :=
  List.last (Str.split 47%N src) [].

Definition isDescriptive (t : jsstring) : bool :=
  let src := execGroup srcRe 1 t in
  let fn := fileName src in
  test letterRe fn && negb (test cameraRe fn) && negb (test genericRe fn).

Definition imageFilenameIssue (html url : jsstring) : Issue.t :=
  let tags := imgTags html in
  let imgCount := List.length tags in
  let descriptive := List.length (List.filter isDescriptive tags) in
  let descRatio := ratio descriptive imgCount 1 in
  mkIssue "image_filename"
    (if PrimFloat.leb 0.5 descRatio then pass
     else if PrimFloat.leb 0.3 descRatio then warn else fail)
    (obj [field "descriptiveRatio" (JNum descRatio)])
    (lit "Use descriptive filenames (e.g., blue-widget.jpg).") url "onpage_seo".

(** Internal links & anchor diversity:
    /<a\b[^>]*href=[\x27\x22]([^\x27\x22]+)[\x27\x22][^>]*>([\s\S]*?)<\/a>/gi *)
Definition anchorRe : regex :=
  re_gi (cat [str "<a"; Bnd; star notGt; str "href="; quote; Grp 1 (plus notQuote);
              quote; star notGt; str ">"; Grp 2 (starLazy any); str "</a>"]).

Definition links (html : jsstring) : list (jsstring * jsstring) :=
  List.map (fun m => (grp m 1, Str.trim (replace anyTagRe [] (grp m 2))))
    (matchAll anchorRe html).

(** [try { return new URL(l.href, url).origin === origin } catch { return false }] *)
Definition isInternal (h : Host) (url origin : jsstring) (l : jsstring * jsstring)
  : bool :=
  match URL_new h (fst l) (Some url) with
  | Some abs => str_eqb (URL.origin abs) origin
  | None => false
  end.

Definition internalLinksIssue (h : Host) (html url origin : jsstring) : Issue.t :=
  let internal := List.filter (isInternal h url origin) (links html) in
  let minLinks := List.length internal in
  let texts :=
    List.filter nonEmpty (List.map (fun l => String_toLowerCase h (snd l)) internal) in
  let uniqueAnchors := List.length (unique texts) in
  let anchorDiversity := ratio uniqueAnchors (List.length texts) 1 in
  mkIssue "internal_links"
    (if (5 <=? minLinks)%nat && PrimFloat.leb 0.4 anchorDiversity then pass
     else if (3 <=? minLinks)%nat then warn else fail)
    (obj [field "internalCount" (JCount minLinks);
          field "anchorDiversity" (JNum anchorDiversity)])
    (lit "Add contextual internal links and diversify anchors.") url "onpage_seo".

(** Publish/Last-modified presence:
    /<meta[^>]+(article:published_time|date|last-modified)[^>]+content=[\x27\x22]([^\x27\x22]+)[\x27\x22]/i
    and /<time[^>]+datetime=[\x27\x22]([^\x27\x22]+)[\x27\x22][^>]*>/i *)
Definition dateMetaRe : regex :=
  re_i (cat [str "<meta"; plus notGt;
             Grp 1 (alt [str "article:published_time"; str "date"; str "last-modified"]);
             plus notGt; str "content="; quote; Grp 2 (plus notQuote); quote]).
Definition timeRe : regex :=
  re_i (cat [str "<time"; plus notGt; str "datetime="; quote; Grp 1 (plus notQuote);
             quote; star notGt; str ">"]).

Definition publishDateIssue (html url : jsstring) : Issue.t :=
  let dateMeta := execGroup dateMetaRe 2 html in
  let timeTag := execGroup timeRe 1 html in
  let hasDate := nonEmpty dateMeta || nonEmpty timeTag in
  mkIssue "publish_date" (if hasDate then pass else warn)
    (obj [field "dateMeta" (JStr dateMeta); field "timeTag" (JStr timeTag)])
    (lit "Expose publish/updated dates on content pages.") url "onpage_seo".

(** Word count (rough) *)
Definition wordCountIssue (html url : jsstring) : Issue.t :=
  let textNoTags := replace styleRe [] (replace scriptRe [] html) in
  let bodyText :=
    Str.trim (replace spacesRe (lit " ") (replace tagRe (lit " ") textNoTags)) in
  let words := List.length (List.filter nonEmpty (Str.split 32%N bodyText)) in
  mkIssue "word_count"
    (if (300 <=? words)%nat then pass else if (200 <=? words)%nat then warn else fail)
    (obj [field "words" (JCount words)])
    (lit "Increase content depth; cover user questions and subtopics.")
    url "onpage_seo".

(** Entity Trust extras:
    /\x22@type\x22\s*:\s*\x22(Organization|LocalBusiness)\x22/i,
    /\btel:\s*/i, /\btelephone[\x22\x27]\s*:\s*[\x22\x27][+0-9(][^\x22\x27]+[\x22\x27]/i,
    /\x22address\x22\s*:\s*{[\s\S]*?\x22streetAddress\x22[\s\S]*?}/i and
    /(sameAs|facebook\.com|twitter\.com|x\.com|instagram\.com|linkedin\.com|youtube\.com)/i *)
Definition spaces : re := star (Cls false space).
Definition quoted (s : string) : re := cat [Chr dquote; str s; Chr dquote].

Definition orgSchemaRe : regex :=
  re_i (cat [quoted "@type"; spaces; str ":"; spaces; Chr dquote;
             Grp 1 (alt [str "Organization"; str "LocalBusiness"]); Chr dquote]).
Definition telLinkRe : regex := re_i (cat [Bnd; str "tel:"; spaces]).
Definition telephoneRe : regex :=
  re_i (cat [Bnd; str "telephone"; quote; spaces; str ":"; spaces; quote;
             Cls false (oneOf "+" ++ digits ++ oneOf "("); plus notQuote; quote]).
Definition addressRe : regex :=
  re_i (cat [quoted "address"; spaces; str ":"; spaces; str "{"; starLazy any;
             quoted "streetAddress"; starLazy any; str "}"]).
Definition socialRe : regex :=
  re_i (Grp 1 (alt [str "sameAs"; str "facebook.com"; str "twitter.com"; str "x.com";
                    str "instagram.com"; str "linkedin.com"; str "youtube.com"])).

Definition entitySchemaIssue (html url : jsstring) : Issue.t :=
  let hasOrgSchema := test orgSchemaRe html in
  mkIssue "entity_schema_org" (if hasOrgSchema then pass else warn) None
    (lit "Add Organization/LocalBusiness JSON-LD.") url "entity_trust".

Definition entityNapIssue (html url : jsstring) : Issue.t :=
  let hasTel := test telLinkRe html || test telephoneRe html in
  let hasAddress := test addressRe html in
  mkIssue "entity_nap" (if hasTel || hasAddress then pass else warn)
    (obj [field "hasTel" (JBool hasTel); field "hasAddress" (JBool hasAddress)])
    (lit "Expose business phone and postal address (JSON-LD or visible).")
    url "entity_trust".

Definition entitySocialIssue (html url : jsstring) : Issue.t :=
  let hasSocial := test socialRe html in
  mkIssue "entity_social_profiles" (if hasSocial then pass else warn) None
    (lit "Add sameAs links to major social profiles.") url "entity_trust".

(** Hygiene:
    /<link[^>]+rel=[\x27\x22](icon|shortcut icon)[\x27\x22][^>]*>/i, /\/favicon\.ico\b/i,
    /<link[^>]+rel=[\x27\x22]manifest[\x27\x22][^>]*>/i, /<meta[^>]+charset=/i,
    /<html[^>]+lang=(\x22|\x27)[a-z-]+/i and new RegExp(String(THIS_YEAR)) *)
Definition faviconLinkRe : regex :=
  re_i (cat [str "<link"; plus notGt; str "rel="; quote;
             Grp 1 (alt [str "icon"; str "shortcut icon"]); quote; star notGt; str ">"]).
Definition faviconFileRe : regex := re_i (cat [str "/favicon.ico"; Bnd]).
Definition manifestRe : regex :=
  re_i (cat [str "<link"; plus notGt; attr "rel" "manifest"; star notGt; str ">"]).
Definition charsetRe : regex := re_i (cat [str "<meta"; plus notGt; str "charset="]).
Definition htmlLangRe : regex :=
  re_i (cat [str "<html"; plus notGt; str "lang=";
             Grp 1 (alt [Chr dquote; Chr squote]);
             plus (Cls false (range "a" "z" ++ oneOf "-"))]).
Definition yearRe (h : Host) : regex :=
  re_ (fold_right (fun c r => Seq (Chr c) r) Eps (Str.ofN (THIS_YEAR h))).

Definition faviconIssue (html url : jsstring) : Issue.t :=
  let hasFavicon := test faviconLinkRe html || test faviconFileRe html in
  mkIssue "hygiene_favicon" (if hasFavicon then pass else warn) None
    (lit "Add <link rel=" ++ [dquote] ++ lit "icon" ++ [dquote]
     ++ lit "> or /favicon.ico.")
    url "hygiene".

Definition manifestIssue (html url : jsstring) : Issue.t :=
  let hasManifest := test manifestRe html in
  mkIssue "hygiene_manifest" (if hasManifest then pass else warn) None
    (lit "Add a web app manifest (optional).") url "hygiene".

Definition charsetIssue (html url : jsstring) : Issue.t :=
  let hasCharset := test charsetRe html in
  mkIssue "hygiene_charset" (if hasCharset then pass else warn) None
    (lit "Add <meta charset=" ++ [dquote] ++ lit "utf-8" ++ [dquote]
     ++ lit "> early in <head>.")
    url "hygiene".

Definition htmlLangIssue (html url : jsstring) : Issue.t :=
  let hasHtmlLang := test htmlLangRe html in
  mkIssue "hygiene_html_lang" (if hasHtmlLang then pass else warn) None
    (lit "Set <html lang=" ++ [dquote] ++ lit "en-GB" ++ [dquote]
     ++ lit "> (or appropriate).")
    url "hygiene".

Definition copyrightYearIssue (h : Host) (html url : jsstring) : Issue.t :=
  let hasCopyrightThisYear := test (yearRe h) html in
  mkIssue "hygiene_copyright_year" (if hasCopyrightThisYear then pass else warn) None
    (lit "Update footer copyright to " ++ Str.ofN (THIS_YEAR h) ++ lit ".")
    url "hygiene".

(** The issues in the order the function pushes them.  [new URL(url)], on
    which the internal-link check depends, throws on a [url] that does not
    parse, and the function then returns nothing. *)
Definition evaluateHome (h : Host) (html : jsstring) (headers : Headers)
  (url : jsstring) : completion (list Issue.t) :=
  match URL_new h url None with
  | None => Throw (InvalidURL url)
  | Some u =>
      let origin := URL.origin u in
      Ok [ titleIssue html url;
           metaDescriptionIssue html url;
           viewportIssue html url;
           h1Issue html url;
           headingHierarchyIssue html url;
           canonicalIssue html url;
           metaRobotsIssue html headers url;
           openGraphIssue html url;
           mixedContentIssue html url;
           imageAltIssue html url;
           imageLazyIssue html url;
           imageFilenameIssue html url;
           internalLinksIssue h html url origin;
           publishDateIssue html url;
           wordCountIssue html url;
           entitySchemaIssue html url;
           entityNapIssue html url;
           entitySocialIssue html url;
           faviconIssue html url;
           manifestIssue html url;
           charsetIssue html url;
           htmlLangIssue html url;
           copyrightYearIssue h html url ]
  end.

(* ================================================================== *)
(** ** Scoring *)
(* ================================================================== *)

Definition statusToScore (s : Status) : float :=
  match s with
  | pass => 1
  | warn => 0.5
  | fail => 0
  end.

Definition entry (id : string) (w : Z) : jsstring * Z := (lit id, w).

(** The weight tables.  The weights are integer literals; as JavaScript
    numbers they are the doubles [Z2F w]. *)
Definition weights : list (jsstring * list (jsstring * Z)) :=
  [ (lit "technical_seo",
      [entry "viewport_meta" 2; entry "meta_robots" 4; entry "canonical_tag" 4;
       entry "https_mixed_content" 3]);
    (lit "onpage_seo",
      [entry "title_tag" 6; entry "meta_description" 4; entry "h1_tag" 4;
       entry "heading_hierarchy" 2; entry "image_alt" 3; entry "image_lazy" 2;
       entry "image_filename" 1; entry "internal_links" 5; entry "word_count" 3;
       entry "publish_date" 2]);
    (lit "entity_trust",
      [entry "open_graph" 2; entry "entity_schema_org" 4; entry "entity_nap" 3;
       entry "entity_social_profiles" 1]);
    (lit "hygiene",
      [entry "hygiene_favicon" 1; entry "hygiene_manifest" 1;
       entry "hygiene_charset" 2; entry "hygiene_html_lang" 2;
       entry "hygiene_copyright_year" 1]) ].

Definition overallWeights : list (jsstring * Z) :=
  [entry "technical_seo" 35; entry "onpage_seo" 35; entry "entity_trust" 20;
   entry "hygiene" 10].

(** [Object.keys(overallWeights)] *)
Definition categories : list jsstring := List.map fst overallWeights.

Fixpoint lookup {T : Type} (k : jsstring) (table : list (jsstring * T)) : option T :=
  match table with
  | [] => None
  | (k', v) :: rest => if str_eqb k k' then Some v else lookup k rest
  end.

(** [Object.entries(weights[cat] || {})] *)
Definition entriesOf (cat : jsstring) : list (jsstring * Z) :=
  default [] (lookup cat weights).

(** [new Map(issues.map(i => [i.id, i]))]: a later issue with the same id
    replaces an earlier one. *)
Definition byId (issues : list Issue.t) : gmap jsstring Issue.t :=
  foldl (fun m i => <[Issue.id i := i]> m) ∅ issues.

(** [byId.get(id)?.status || 'fail'] *)
Definition statusOf (issues : list Issue.t) (id : jsstring) : Status :=
  match byId issues !! id with
  | Some i => Issue.status i
  | None => fail
  end.

(** [entries.reduce((s,[,w])=>s+w,0)||1] *)
Definition sumWeights (entries : list (jsstring * Z)) : float :=
  let s := fold_left (fun s e => PrimFloat.add s (Z2F (snd e))) entries 0%float in
  if truthyNum s then s else 1%float.

(** [entries.reduce((s,[id,w])=> s + (statusToScore[...] * w), 0)] *)
Definition rawScore (st : jsstring -> Status) (entries : list (jsstring * Z)) : float :=
  fold_left
    (fun s e => PrimFloat.add s (PrimFloat.mul (statusToScore (st (fst e))) (Z2F (snd e))))
    entries 0%float.

Definition pctOf (st : jsstring -> Status) (cat : jsstring) : float :=
  let entries := entriesOf cat in
  PrimFloat.mul (PrimFloat.div (rawScore st entries) (sumWeights entries)) 100.

Definition weightedOf (st : jsstring -> Status) (cat : jsstring) : float :=
  PrimFloat.mul (pctOf st cat)
    (PrimFloat.div (Z2F (default 0 (lookup cat overallWeights))) 100).

Module CategoryScore.
Record t : Type := { id : jsstring; score : float; weighted : float }.
End CategoryScore.

Module Grade.
Inductive t : Type := A | B | C | D | F.
End Grade.

Module Scored.
Record t : Type := {
  overall : float;
  grade : Grade.t;
  categories : list CategoryScore.t
}.
End Scored.

(** One turn of the loop over the categories: the running [overall] and
    the list [out]. *)
Definition scoreStep (st : jsstring -> Status)
  (acc : float * list CategoryScore.t) (cat : jsstring)
  : float * list CategoryScore.t :=
  let pct := pctOf st cat in
  let weighted := weightedOf st cat in
  (PrimFloat.add (fst acc) weighted,
   snd acc ++ [ {| CategoryScore.id := cat;
                   CategoryScore.score := Math_round pct;
                   CategoryScore.weighted := Math_round weighted |} ]).

Definition gradeOf (overall : float) : Grade.t :=
  if PrimFloat.leb 90 overall then Grade.A
  else if PrimFloat.leb 80 overall then Grade.B
  else if PrimFloat.leb 70 overall then Grade.C
  else if PrimFloat.leb 60 overall then Grade.D
  else Grade.F.

(** The value of the variable [overall] when the loop ends. *)
Definition overallSum (issues : list Issue.t) : float :=
  fst (fold_left (scoreStep (statusOf issues)) categories (0%float, [])).

Definition scoreCategories (issues : list Issue.t) : Scored.t :=
  let '(overall, out) :=
    fold_left (scoreStep (statusOf issues)) categories (0%float, []) in
  {| Scored.overall := Math_round overall;
     Scored.grade := gradeOf overall;
     Scored.categories := out |}.

(* ================================================================== *)
(** ** Handler *)
(* ================================================================== *)

(** [body.url]: a string, an array of strings, or anything else. *)
Inductive UrlField : Type :=
| UrlString (s : jsstring)
| UrlArray (items : list jsstring)
| UrlOther.

Module Request.
(** What [req.json()] gives: the parsed body, or the exception it
    rejects with. *)
Record body : Type := { url : UrlField; options : option JSON }.
Definition t : Type := completion body.
End Request.

Fixpoint mapM {T U : Type} (f : T -> completion U) (l : list T)
  : completion (list U) :=
  match l with
  | [] => Ok []
  | x :: rest =>
      match f x with
      | Throw e => Throw e
      | Ok y =>
          match mapM f rest with
          | Throw e => Throw e
          | Ok ys => Ok (y :: ys)
          end
      end
  end.

(** The exceptions of the calls that throw, in list order. *)
Fixpoint rejections {T U : Type} (f : T -> completion U) (l : list T) : list exn :=
  match l with
  | [] => []
  | x :: rest =>
      match f x with
      | Throw e => e :: rejections f rest
      | Ok _ => rejections f rest
      end
  end.

(** [await Promise.all(l.map(f))] for an async [f].  The calls run
    concurrently: when all of them fulfil, the value is the list of their
    results in list order; otherwise it is the rejection that comes first
    in time, which [earliest] names by its index among the rejections
    listed in list order. *)
Definition promiseAll {T U : Type} (earliest : list exn -> nat)
  (f : T -> completion U) (l : list T) : completion (list U) :=
  match mapM f l with
  | Ok ys => Ok ys
  | Throw first =>
      let es := rejections f l in
      Throw (nth (earliest es) es first)
  end.

Section Handler.
(** The single-site audit reaches the network; the handler sees it as a
    function from an origin, the options and the PageSpeed key to a result
    or an exception. *)
Variable AuditResult : Type.
Variable auditOne : jsstring -> JSON -> option jsstring -> completion AuditResult.
(** [process.env.PSI_API_KEY] and [process.env.N8N_WEBHOOK_URL] *)
Variable PSI_KEY : option jsstring.
Variable N8N : option jsstring.
(** Which of the audits that reject does so first. *)
Variable earliest : list exn -> nat.

Inductive ResponseBody : Type :=
| Single (result : AuditResult)
| Batch (results : list AuditResult)
(** [{ error: e.message || 'Unexpected error' }] for the exception [e] *)
| Failure (e : exn).

Record Response : Type := { status : Z; json : ResponseBody }.

(** What a call does: the response, and the results posted to the
    webhook when its URL is set and not empty and the audits succeeded. *)
Record Outcome : Type := {
  response : Response;
  webhook : option (jsstring * list AuditResult)
}.

(** [Array.isArray(input) ? input.map(normaliseOrigin) : [normaliseOrigin(input)]] *)
Definition originList (h : Host) (input : UrlField) : completion (list jsstring) :=
  match input with
  | UrlArray items => mapM (normaliseOrigin h) items
  | UrlString s => mapM (normaliseOrigin h) [s]
  | UrlOther => Throw (TypeError (lit "input.startsWith is not a function"))
  end.

(** [Array.from(new Set(list.filter(Boolean))).slice(0, 10)] *)
Definition dedup (origins : list jsstring) : list jsstring :=
  firstn 10 (unique (List.filter nonEmpty origins)).

Definition failed (e : exn) : Outcome :=
  {| response := {| status := 500; json := Failure e |}; webhook := None |}.

(** [if (N8N)]: the variable is set and is not the empty string. *)
Definition webhookUrl : option jsstring :=
  match N8N with
  | Some n8n => if nonEmpty n8n then Some n8n else None
  | None => None
  end.

Definition POST (h : Host) (req : Request.t) : Outcome :=
  match req with
  | Throw e => failed e
  | Ok body =>
      let options := if truthyOpt (Request.options body)
                     then default (JObj []) (Request.options body)
                     else JObj [] in
      match originList h (Request.url body) with
      | Throw e => failed e
      | Ok origins =>
          match promiseAll earliest (fun origin => auditOne origin options PSI_KEY)
                  (dedup origins) with
          | Throw e => failed e
          | Ok results =>
              {| response :=
                   {| status := 200;
                      json := match results with
                              | [r] => Single r
                              | _ => Batch results
                              end |};
                 webhook := (fun n8n => (n8n, results)) <$> webhookUrl |}
          end
      end
  end.
End Handler.

(* ================================================================== *)
(** ** A small host *)
(* ================================================================== *)

(** A host on which the model runs, used to evaluate the functions on
    examples.  Its URL parser accepts absolute http and https URLs of the
    shape scheme://host[:port][/path][?query][#fragment] and, against a
    base, references that start with a slash; its JSON parser accepts the
    JSON grammar with integer numbers and the simple string escapes; its
    case mapping is the ASCII one. *)
Module SmallHost.

Definition isDelim (c : N) : bool := ((c =? 47) || (c =? 63) || (c =? 35))%N.

Fixpoint span (p : N -> bool) (s : jsstring) : jsstring * jsstring :=
  match s with
  | c :: s' => if p c then let '(a, b) := span p s' in (c :: a, b) else ([], s)
  | [] => ([], [])
  end.

Definition allDigits (s : jsstring) : bool :=
  forallb (fun c => (48 <=? c) && (c <=? 57))%N s.

Definition stripDefaultPort (scheme port : jsstring) : jsstring :=
  if str_eqb scheme (lit "http") && str_eqb port (lit "80") then []
  else if str_eqb scheme (lit "https") && str_eqb port (lit "443") then []
  else port.

Definition absolute (s : jsstring) : option URL.t :=
  let '(scheme, r) := span (fun c => negb (c =? 58)%N) s in
  let scheme := Str.asciiLower scheme in
  if (str_eqb scheme (lit "http") || str_eqb scheme (lit "https"))
     && Str.startsWith (lit "://") r then
    let '(authority, tail) := span (fun c => negb (isDelim c)) (Str.slice 3 r) in
    let '(host, port) := span (fun c => negb (c =? 58)%N) authority in
    let host := Str.asciiLower host in
    let port := stripDefaultPort scheme (Str.slice 1 port) in
    if nonEmpty host && allDigits port then
      let origin := scheme ++ lit "://" ++ host
                    ++ (if nonEmpty port then lit ":" ++ port else []) in
      Some {| URL.origin := origin;
              URL.href := origin
                          ++ (if Str.startsWith (lit "/") tail then tail
                              else lit "/" ++ tail) |}
    else None
  else None.

Definition parseURL (s : jsstring) (base : option jsstring) : option URL.t :=
  match absolute s, base with
  | Some u, _ => Some u
  | None, Some b =>
      match absolute b with
      | Some bu =>
          if Str.startsWith (lit "/") s && negb (Str.startsWith (lit "//") s)
          then absolute (URL.origin bu ++ s)
          else None
      | None => None
      end
  | None, None => None
  end.

Definition isJsonSpace (c : N) : bool :=
  ((c =? 32) || (c =? 9) || (c =? 10) || (c =? 13))%N.

Fixpoint skipWs (s : jsstring) : jsstring :=
  match s with
  | c :: s' => if isJsonSpace c then skipWs s' else s
  | [] => []
  end.

(** The characters of a string literal after its opening quote. *)
Fixpoint stringBody (s acc : jsstring) : option (jsstring * jsstring) :=
  match s with
  | [] => None
  | 34%N :: s' => Some (rev acc, s')
  | 92%N :: e :: s' =>
      let unescaped :=
        if (e =? 110)%N then Some 10%N
        else if (e =? 116)%N then Some 9%N
        else if (e =? 114)%N then Some 13%N
        else if (e =? 98)%N then Some 8%N
        else if (e =? 102)%N then Some 12%N
        else if (e =? 34)%N || (e =? 92)%N || (e =? 47)%N then Some e
        else None in
      match unescaped with
      | Some c => stringBody s' (c :: acc)
      | None => None
      end
  | c :: s' => if (c <? 32)%N then None else stringBody s' (c :: acc)
  end.

Definition natural (s : jsstring) : option (Z * jsstring) :=
  let '(ds, r) := span (fun c => (48 <=? c) && (c <=? 57))%N s in
  match ds with
  | [] => None
  | [_] | _ :: _ :: _ =>
      if Str.startsWith (lit "0") ds && negb (Nat.eqb (List.length ds) 1) then None
      else Some (fold_left (fun n d => 10 * n + (Z.of_N d - 48)) ds 0, r)
  end.

Section Composite.
Variable value : jsstring -> option (JSON * jsstring).

Fixpoint items (fuel : nat) (s : jsstring) (acc : list JSON)
  : option (list JSON * jsstring) :=
  match fuel with
  | O => None
  | S fuel' =>
      match value s with
      | Some (v, r) =>
          match skipWs r with
          | 44%N :: r' => items fuel' r' (v :: acc)
          | 93%N :: r' => Some (rev (v :: acc), r')
          | _ => None
          end
      | None => None
      end
  end.

Fixpoint members (fuel : nat) (s : jsstring) (acc : list (jsstring * JSON))
  : option (list (jsstring * JSON) * jsstring) :=
  match fuel with
  | O => None
  | S fuel' =>
      match skipWs s with
      | 34%N :: r =>
          match stringBody r [] with
          | Some (k, r1) =>
              match skipWs r1 with
              | 58%N :: r2 =>
                  match value r2 with
                  | Some (v, r3) =>
                      let acc' := (k, v) :: List.filter (fun kv => negb (str_eqb k (fst kv))) acc in
                      match skipWs r3 with
                      | 44%N :: r4 => members fuel' r4 acc'
                      | 125%N :: r4 => Some (rev acc', r4)
                      | _ => None
                      end
                  | None => None
                  end
              | _ => None
              end
          | None => None
          end
      | _ => None
      end
  end.
End Composite.

Fixpoint value (fuel : nat) (s : jsstring) : option (JSON * jsstring) :=
  match fuel with
  | O => None
  | S fuel' =>
      let s := skipWs s in
      if Str.startsWith (lit "null") s then Some (JNull, Str.slice 4 s)
      else if Str.startsWith (lit "true") s then Some (JBool true, Str.slice 4 s)
      else if Str.startsWith (lit "false") s then Some (JBool false, Str.slice 5 s)
      else
        match s with
        | 34%N :: r =>
            match stringBody r [] with
            | Some (t, r') => Some (JStr t, r')
            | None => None
            end
        | 91%N :: r =>
            match skipWs r with
            | 93%N :: r' => Some (JArr [], r')
            | _ =>
                match items (value fuel') (List.length r) r [] with
                | Some (vs, r') => Some (JArr vs, r')
                | None => None
                end
            end
        | 123%N :: r =>
            match skipWs r with
            | 125%N :: r' => Some (JObj [], r')
            | _ =>
                match members (value fuel') (List.length r) r [] with
                | Some (kvs, r') => Some (JObj kvs, r')
                | None => None
                end
            end
        | 45%N :: r =>
            match natural r with
            | Some (n, r') => Some (JNum (Z2F (- n)), r')
            | None => None
            end
        | _ =>
            match natural s with
            | Some (n, r') => Some (JNum (Z2F n), r')
            | None => None
            end
        end
  end.

Definition parseJSON (s : jsstring) : option JSON :=
  match value (S (List.length s)) s with
  | Some (v, r) => if nonEmpty (skipWs r) then None else Some v
  | None => None
  end.

(** Exact on the integers below 2^53. *)
Definition numberToString (x : float) : jsstring :=
  match Prim2SF x with
  | S754_zero _ => lit "0"
  | S754_finite s m e =>
      (if s then lit "-" else [])
      ++ Str.ofN (Z.to_N (Z.shiftl (Zpos m) e))
  | S754_infinity s => (if s then lit "-" else []) ++ lit "Infinity"
  | S754_nan => lit "NaN"
  end.

Definition host : Host :=
  {| URL_new := parseURL;
     JSON_parse := parseJSON;
     String_toLowerCase := Str.asciiLower;
     Number_toString := numberToString;
     THIS_YEAR := 2025 |}.

(** Headers without an X-Robots-Tag. *)
Definition noHeaders : Headers := fun _ => None.

End SmallHost.

(* ================================================================== *)
(** ** Notions of the specification *)
(* ================================================================== *)

(** A string has a URL scheme when it starts with a letter followed by
    letters, digits, plus, minus or dot up to a colon (RFC 3986, 3.1). *)
Fixpoint schemeRest (s : jsstring) : bool :=
  match s with
  | [] => false
  | c :: rest =>
      if (c =? 58)%N then true
      else if RegExp.isLetter c || (48 <=? c)%N && (c <=? 57)%N
              || (c =? 43)%N || (c =? 45)%N || (c =? 46)%N
           then schemeRest rest
           else false
  end.

Definition hasScheme (s : jsstring) : bool :=
  match s with
  | c :: rest => RegExp.isLetter c && schemeRest rest
  | [] => false
  end.



(** The confidences contact discovery assigns. *)
Definition levels : list float := [0.9; 0.8; 0.7; 0.85; 0.6; 0.5]%float.

(** A contact whose confidence is one of them. *)
Definition graded (c : Contact.t) : Prop := In (Contact.confidence c) levels.

(** The first contact of highest confidence, read from the end of the
    list: a later contact wins only when it is strictly better. *)
Fixpoint firstHighest (l : list Contact.t) : option Contact.t :=
  match l with
  | [] => None
  | x :: rest =>
      match firstHighest rest with
      | None => Some x
      | Some m =>
          if PrimFloat.ltb 0 (PrimFloat.sub (Contact.confidence m) (Contact.confidence x))
          then Some m else Some x
      end
  end.

(** The page of the obfuscated address. *)
Definition janePage : jsstring * jsstring :=
  (lit "https://example.com/", lit "jane [at] example [dot] com").

(** A page with a JSON-LD block that parses and one that does not; the
    backquotes of the literal stand for double quotes. *)
Definition quoted' (s : string) : jsstring :=
  List.map (fun c => if (c =? 96)%N then RegExp.dquote else c) (lit s).

(** A page with a telephone link and a Calendly link. *)
Definition twoLinks : jsstring :=
  quoted' "<a href=`tel:+441234567890`>Call</a> <a href=`https://calendly.com/acme`>Book</a>".


(* ================================================================== *)
(** ** The scoring rule in exact arithmetic *)
(* ================================================================== *)

(** The scoring rule as the specification words it, over the rationals;
    the theorems below compare the engine, which computes in doubles, with
    it. *)
Module Exact.

Definition statusValue (s : Status) : Q :=
  match s with
  | pass => 1
  | warn => 1 # 2
  | fail => 0
  end.

(** Nearest integer, a half going up. *)
Definition round (q : Q) : Z := Qfloor (q + (1 # 2)).

Definition sumQ (l : list Q) : Q := fold_right Qplus 0%Q l.

(** The sum over the category's map of weight times status value; a
    mapped check that the issue list lacks counts as a fail. *)
Definition weightedSum (issues : list Issue.t) (cat : jsstring) : Q :=
  sumQ (List.map (fun e => inject_Z (snd e) * statusValue (statusOf issues (fst e)))%Q
          (entriesOf cat)).

Definition totalWeight (cat : jsstring) : Q :=
  sumQ (List.map (fun e => inject_Z (snd e)) (entriesOf cat)).

Definition percentage (issues : list Issue.t) (cat : jsstring) : Q :=
  (100 * weightedSum issues cat / totalWeight cat)%Q.

Definition share (cat : jsstring) : Q :=
  (inject_Z (default 0%Z (lookup cat overallWeights)) / 100)%Q.

Definition contribution (issues : list Issue.t) (cat : jsstring) : Q :=
  (percentage issues cat * share cat)%Q.

Definition overall (issues : list Issue.t) : Q :=
  sumQ (List.map (contribution issues) categories).

Definition gradeOf (overall : Q) : Grade.t :=
  if Qle_bool 90 overall then Grade.A
  else if Qle_bool 80 overall then Grade.B
  else if Qle_bool 70 overall then Grade.C
  else if Qle_bool 60 overall then Grade.D
  else Grade.F.

(** The grade the thresholds give to an integer score. *)
Definition gradeOfZ (overall : Z) : Grade.t :=
  if 90 <=? overall then Grade.A
  else if 80 <=? overall then Grade.B
  else if 70 <=? overall then Grade.C
  else if 60 <=? overall then Grade.D
  else Grade.F.

End Exact.

(** The scoring rule as the specification states it, with nothing taken
    from the engine: the reading of the issue list, the four fixed maps
    from check id to weight, and the four shares. *)
Module Spec.

(** The status the list reports for a check id: the one of its issue,
    the last one if the list holds several, and fail when it holds none. *)
Definition reported (issues : list Issue.t) (id : string) : Status :=
  match List.find (fun i => str_eqb (Issue.id i) (lit id)) (rev issues) with
  | Some i => Issue.status i
  | None => fail
  end.

Definition technical_seo : list (string * Z) :=
  [ ("viewport_meta", 2); ("meta_robots", 4); ("canonical_tag", 4);
    ("https_mixed_content", 3) ]%string.

Definition onpage_seo : list (string * Z) :=
  [ ("title_tag", 6); ("meta_description", 4); ("h1_tag", 4);
    ("heading_hierarchy", 2); ("image_alt", 3); ("image_lazy", 2);
    ("image_filename", 1); ("internal_links", 5); ("word_count", 3);
    ("publish_date", 2) ]%string.

Definition entity_trust : list (string * Z) :=
  [ ("open_graph", 2); ("entity_schema_org", 4); ("entity_nap", 3);
    ("entity_social_profiles", 1) ]%string.

Definition hygiene : list (string * Z) :=
  [ ("hygiene_favicon", 1); ("hygiene_manifest", 1); ("hygiene_charset", 2);
    ("hygiene_html_lang", 2); ("hygiene_copyright_year", 1) ]%string.

(** 100 times the weighted sum of the status values over the sum of the
    weights. *)
Definition percentage (issues : list Issue.t) (map : list (string * Z)) : Q :=
  (100
   * Exact.sumQ
       (List.map (fun e => inject_Z (snd e) * Exact.statusValue (reported issues (fst e)))
          map)
   / Exact.sumQ (List.map (fun e => inject_Z (snd e)) map))%Q.

(** The category percentages times the shares 35%, 35%, 20% and 10%. *)
Definition overall (issues : list Issue.t) : Q :=
  (percentage issues technical_seo * (35 # 100)
   + percentage issues onpage_seo * (35 # 100)
   + percentage issues entity_trust * (20 # 100)
   + percentage issues hygiene * (10 # 100))%Q.

(** A contact of one of the two types the best contact is chosen among. *)
Definition emailOrCalendly (c : Contact.t) : Prop :=
  Contact.type c = lit "email" \/ Contact.type c = lit "calendly".

End Spec.

(** An issue that carries only an id and a status. *)
Definition bare (id : string) (status : Status) : Issue.t :=
  {| Issue.id := lit id; Issue.status := status; Issue.details := None;
     Issue.fix_ := None; Issue.page := None; Issue.category := None |}.

(** The full catalogue passing except for a failing title, a failing image
    file name and a warning on the internal links. *)
Definition issues90 : list Issue.t :=
  [ bare "title_tag" fail; bare "meta_description" pass; bare "viewport_meta" pass;
    bare "h1_tag" pass; bare "heading_hierarchy" pass; bare "canonical_tag" pass;
    bare "meta_robots" pass; bare "open_graph" pass; bare "https_mixed_content" pass;
    bare "image_alt" pass; bare "image_lazy" pass; bare "image_filename" fail;
    bare "internal_links" warn; bare "publish_date" pass; bare "word_count" pass;
    bare "entity_schema_org" pass; bare "entity_nap" pass;
    bare "entity_social_profiles" pass; bare "hygiene_favicon" pass;
    bare "hygiene_manifest" pass; bare "hygiene_charset" pass;
    bare "hygiene_html_lang" pass; bare "hygiene_copyright_year" pass ].

(** The same catalogue with a passing title. *)
Definition issues90' : list Issue.t :=
  bare "title_tag" pass :: tl issues90.

(** The check ids of a category's weight map. *)
Definition checksOf (cat : jsstring) : list jsstring := List.map fst (entriesOf cat).
Definition mapsCheck (cat x : jsstring) : bool := existsb (str_eqb x) (checksOf cat).

Definition withStatus (s : Status) (i : Issue.t) : Issue.t :=
  {| Issue.id := Issue.id i; Issue.status := s; Issue.details := Issue.details i;
     Issue.fix_ := Issue.fix_ i; Issue.page := Issue.page i;
     Issue.category := Issue.category i |}.

(** Two issue lists that differ only in the status of the check [x]:
    position by position the issues are equal, or both are the issue of
    [x] with possibly different statuses. *)
Definition differOnlyAt (x : jsstring) (l1 l2 : list Issue.t) : Prop :=
  Forall2 (fun i j => i = j \/ (Issue.id i = x /\ j = withStatus (Issue.status j) i))
    l1 l2.

(** The entry the loop pushes for a category. *)
Definition scoreEntry (st : jsstring -> Status) (cat : jsstring) : CategoryScore.t :=
  {| CategoryScore.id := cat;
     CategoryScore.score := Math_round (pctOf st cat);
     CategoryScore.weighted := Math_round (weightedOf st cat) |}.

(** The status the engine reads at a key of a map of issues. *)
Definition statusIn (m : gmap jsstring Issue.t) (k : jsstring) : Status :=
  match m !! k with
  | Some i => Issue.status i
  | None => fail
  end.

(** Every check id of the weight maps. *)
Definition allChecks : list jsstring := flat_map checksOf categories.

(** The catalogue of check ids, in the order of the specification's table. *)
Definition catalogue : list jsstring :=
  List.map lit
    [ "title_tag"; "meta_description"; "viewport_meta"; "h1_tag"; "heading_hierarchy";
      "canonical_tag"; "meta_robots"; "open_graph"; "https_mixed_content"; "image_alt";
      "image_lazy"; "image_filename"; "internal_links"; "publish_date"; "word_count";
      "entity_schema_org"; "entity_nap"; "entity_social_profiles"; "hygiene_favicon";
      "hygiene_manifest"; "hygiene_charset"; "hygiene_html_lang";
      "hygiene_copyright_year" ]%string.

(** What the handler and the scoring engine see of an issue. *)
Definition outcomeOf (i : Issue.t) : Status * option JSON :=
  (Issue.status i, Issue.details i).

(** Twice the status value, and twice a category's weighted sum, as
    integers. *)
Definition twice (s : Status) : Z :=
  match s with
  | pass => 2
  | warn => 1
  | fail => 0
  end.

Definition doubledSum (st : jsstring -> Status) (entries : list (jsstring * Z)) : Z :=
  fold_right (fun e k => snd e * twice (st (fst e)) + k) 0 entries.

(** The sum of a category's weights and its share of the overall score. *)
Definition totalOf (cat : jsstring) : Z :=
  fold_right Z.add 0 (List.map snd (entriesOf cat)).
Definition shareOf (cat : jsstring) : Z :=
  default 0 (lookup cat overallWeights).

(** A category's contribution computed from its doubled sum [k], the sum
    [w] of its weights and its share [p], by the engine's operations. *)
Definition pctFrom (w k : Z) : float :=
  PrimFloat.mul (PrimFloat.div (PrimFloat.div (Z2F k) 2) (Z2F w)) 100.

Definition weightedFrom (w p k : Z) : float :=
  PrimFloat.mul (pctFrom w k) (PrimFloat.div (Z2F p) 100).

Definition overallFrom (k1 k2 k3 k4 : Z) : float :=
  PrimFloat.add
    (PrimFloat.add
       (PrimFloat.add (PrimFloat.add 0 (weightedFrom 13 35 k1)) (weightedFrom 32 35 k2))
       (weightedFrom 10 20 k3))
    (weightedFrom 7 10 k4).

(** The four categories, and the entry the loop pushes for one. *)
Definition techCat := lit "technical_seo".
Definition onpageCat := lit "onpage_seo".
Definition entityCat := lit "entity_trust".
Definition hygieneCat := lit "hygiene".

Definition catScore (cat : jsstring) (w p k : Z) : CategoryScore.t :=
  {| CategoryScore.id := cat;
     CategoryScore.score := Math_round (pctFrom w k);
     CategoryScore.weighted := Math_round (weightedFrom w p k) |}.

(** The exact overall score, as a fraction over 5824 = lcm(26, 64, 7). *)
Definition overallNum (k1 k2 k3 k4 : Z) : Z :=
  7840 * k1 + 3185 * k2 + 5824 * k3 + 4160 * k4.

Definition upTo (n : Z) : list Z := List.map Z.of_nat (seq 0 (S (Z.to_nat n))).

Fixpoint vectors (n : nat) : list (list Status) :=
  match n with
  | O => [[]]
  | S n' =>
      flat_map (fun v => [pass :: v; warn :: v; fail :: v]) (vectors n')
  end.

Definition grade_eqb (a b : Grade.t) : bool :=
  match a, b with
  | Grade.A, Grade.A | Grade.B, Grade.B | Grade.C, Grade.C
  | Grade.D, Grade.D | Grade.F, Grade.F => true
  | _, _ => false
  end.

(** The checks run over every status vector of a category and over every
    combination of doubled sums. *)
Definition rawFrom (ws : list Z) (v : list Status) : float :=
  fold_left
    (fun s e => PrimFloat.add s (PrimFloat.mul (statusToScore (fst e)) (Z2F (snd e))))
    (combine v ws) 0%float.

Definition doubledFrom (ws : list Z) (v : list Status) : Z :=
  fold_right (fun e k => snd e * twice (fst e) + k) 0 (combine v ws).

Definition rawCheck (ws : list Z) (total : Z) : bool :=
  forallb
    (fun v =>
       PrimFloat.Leibniz.eqb (rawFrom ws v) (PrimFloat.div (Z2F (doubledFrom ws v)) 2)
       && (0 <=? doubledFrom ws v) && (doubledFrom ws v <=? 2 * total))
    (vectors (List.length ws)).

Definition categoryCheck (w p : Z) : bool :=
  forallb
    (fun k =>
       PrimFloat.Leibniz.eqb (Math_round (pctFrom w k))
         (Z2F (Exact.round (100 * (k # 2) / inject_Z w)))
       && PrimFloat.Leibniz.eqb (Math_round (weightedFrom w p k))
            (Z2F (Exact.round (100 * (k # 2) / inject_Z w * (inject_Z p / 100)))))
    (upTo (2 * w)).

(** [b] is the double of value [c / 2], in normal form with an exponent
    between -53 and -46. *)
Definition halfIs (b : float) (c : Z) : bool :=
  match Prim2SF b with
  | S754_finite false m e =>
      (-53 <=? e) && (e <=? -46) && (Zpos (digits2_pos m) =? 53)
      && (Zpos m =? c * 2 ^ (- e - 1))
  | _ => false
  end.

(** The grade of the exact score [num / 5824]. *)
Definition gradeNum (num : Z) : Grade.t :=
  if 524160 <=? num then Grade.A
  else if 465920 <=? num then Grade.B
  else if 407680 <=? num then Grade.C
  else if 349440 <=? num then Grade.D
  else Grade.F.

(** The check of one combination: the double [x] rounds to [n] (read off
    two comparisons when [n] is positive) and is graded as the exact score. *)
Definition leafCheck (x : float) (n num : Z) : bool :=
  (if n =? 0 then PrimFloat.Leibniz.eqb (Math_round x) (Z2F n)
   else PrimFloat.leb (PrimFloat.sub (Z2F n) 0.5) x
        && PrimFloat.ltb x (PrimFloat.add (Z2F n) 0.5))
  && grade_eqb (gradeOf x) (gradeNum num).

Definition entityTable : list (float * Z * Z) :=
  List.map (fun k3 => (weightedFrom 10 20 k3, 5824 * k3, k3)) (upTo 20).

(* ================================================================== *)
(** ** Further notions for the properties of the engine *)
(* ================================================================== *)

(** The engine run on an assignment of statuses to check ids:
    [scoreCategories issues] is [scoreWith (statusOf issues)]. *)
Definition scoreWith (st : jsstring -> Status) : Scored.t :=
  let '(overall, out) := fold_left (scoreStep st) categories (0%float, []) in
  {| Scored.overall := Math_round overall;
     Scored.grade := gradeOf overall;
     Scored.categories := out |}.

(** The running sum [overall] after the four categories. *)
Definition overallOf (st : jsstring -> Status) : float :=
  PrimFloat.add
    (PrimFloat.add
       (PrimFloat.add (PrimFloat.add 0 (weightedOf st techCat)) (weightedOf st onpageCat))
       (weightedOf st entityCat))
    (weightedOf st hygieneCat).

(** Grades from worst to best. *)
Definition gradeRank (g : Grade.t) : Z :=
  match g with
  | Grade.A => 4
  | Grade.B => 3
  | Grade.C => 2
  | Grade.D => 1
  | Grade.F => 0
  end.

(** [l2] lists the checks of [l1] in the same order, each with a status
    at least as good. *)
Definition improves (l1 l2 : list Issue.t) : Prop :=
  Forall2
    (fun i j => Issue.id i = Issue.id j
                /\ twice (Issue.status i) <= twice (Issue.status j))
    l1 l2.

(** A category entry with integer scores. *)
Definition catEntry (cat : jsstring) (score weighted : Z) : CategoryScore.t :=
  {| CategoryScore.id := cat;
     CategoryScore.score := Z2F score;
     CategoryScore.weighted := Z2F weighted |}.

(** The exact score of a combination of doubled sums, rounded. *)
Definition overallRound (k1 k2 k3 k4 : Z) : Z :=
  Exact.round (overallNum k1 k2 k3 k4 # 5824).
Definition scoreRound (w k : Z) : Z :=
  Exact.round (100 * (k # 2) / inject_Z w).
Definition weightedRound (w p k : Z) : Z :=
  Exact.round (100 * (k # 2) / inject_Z w * (inject_Z p / 100)).

(** An issue reduced to its id and status, with other texts in the other
    fields. *)
Definition relabelled (i : Issue.t) : Issue.t :=
  {| Issue.id := Issue.id i; Issue.status := Issue.status i; Issue.details := None;
     Issue.fix_ := Some (lit "see the guide"); Issue.page := None;
     Issue.category := Some (lit "uncategorised") |}.

(** The second entry is the first one's category with scores no lower. *)
Definition noLower (c1 c2 : CategoryScore.t) : Prop :=
  CategoryScore.id c1 = CategoryScore.id c2
  /\ PrimFloat.leb (CategoryScore.score c1) (CategoryScore.score c2) = true
  /\ PrimFloat.leb (CategoryScore.weighted c1) (CategoryScore.weighted c2) = true.

(** The result when every weighted check passes, and when none passes or
    warns. *)
Definition perfectScore : Scored.t :=
  {| Scored.overall := 100; Scored.grade := Grade.A;
     Scored.categories :=
       [catEntry techCat 100 35; catEntry onpageCat 100 35;
        catEntry entityCat 100 20; catEntry hygieneCat 100 10] |}.

Definition zeroScore : Scored.t :=
  {| Scored.overall := 0; Scored.grade := Grade.F;
     Scored.categories :=
       [catEntry techCat 0 0; catEntry onpageCat 0 0;
        catEntry entityCat 0 0; catEntry hygieneCat 0 0] |}.

(** The checks of the evaluator that report pass or warn and never fail. *)
Definition neverFails : list jsstring :=
  List.map lit
    [ "heading_hierarchy"; "canonical_tag"; "publish_date"; "entity_schema_org";
      "entity_nap"; "entity_social_profiles"; "hygiene_favicon"; "hygiene_manifest";
      "hygiene_charset"; "hygiene_html_lang"; "hygiene_copyright_year" ]%string.

(** The checks that report pass or fail and never warn. *)
Definition neverWarns : list jsstring :=
  List.map lit [ "viewport_meta"; "meta_robots" ]%string.

(** The worst statuses the evaluator can report. *)
Definition worstCase (id : jsstring) : Status :=
  if existsb (str_eqb id) neverFails then warn else fail.

(** The category the weight tables put a check id in. *)
Definition categoryOf (id : jsstring) : option jsstring :=
  List.find (fun cat => mapsCheck cat id) categories.

(** [body.options || {}], the options the handler passes to every audit. *)
Definition optionsOf (body : Request.body) : JSON :=
  if truthyOpt (Request.options body) then default (JObj []) (Request.options body)
  else JObj [].

(** page.tsx, handleSubmit: a response that is not ok raises an error;
    otherwise the cards shown are [Array.isArray(data) ? data : [data]].
    [None] stands for the error, and for a body that is no audit result. *)
Definition resultsShown {AuditResult : Type} (res : Response AuditResult)
  : option (list AuditResult) :=
  if (200 <=? status AuditResult res) && (status AuditResult res <=? 299) then
    match json AuditResult res with
    | Single _ r => Some [r]
    | Batch _ rs => Some rs
    | Failure _ _ => None
    end
  else None.

(** Requests and audits for the examples: a body without options, an audit
    that answers with its origin, and one that fails on one origin. *)
Definition requestFor (url : UrlField) : Request.body :=
  {| Request.url := url; Request.options := None |}.

Definition echoAudit : jsstring -> JSON -> option jsstring -> completion jsstring :=
  fun origin _ _ => Ok origin.

Definition auditExcept (bad : jsstring)
  : jsstring -> JSON -> option jsstring -> completion jsstring :=
  fun origin _ _ =>
    if str_eqb origin bad then Throw (Error (lit "Failed to fetch " ++ origin))
    else Ok origin.

(** The kinds of contact discovery pushes: a type with its confidence. *)
Definition contactKinds : list (jsstring * float) :=
  [ (lit "email", 0.9); (lit "phone", 0.8); (lit "linkedin", 0.7);
    (lit "calendly", 0.85); (lit "vcard", 0.85); (lit "email", 0.6);
    (lit "phone", 0.5); (lit "email", 0.85) ]%float.

(** A contact of one of these kinds whose source is one of the URLs. *)
Definition foundOn (urls : list jsstring) (c : Contact.t) : Prop :=
  In (Contact.sourceUrl c) urls
  /\ In (Contact.type c, Contact.confidence c) contactKinds.

(* ================================================================== *)
(** ** Schema types and suggestions *)
(* ================================================================== *)

(** [walk] of extractSchemaTypes: the types it pushes for a value, in
    order, or the exception of a [String(x)] that throws.  The fields of a
    [JObj] are the own properties of the object in the order Object.keys
    lists them; the keys of an array are its indices. *)
Fixpoint walk (h : Host) (obj : JSON) {struct obj} : completion (list jsstring) :=
  match obj with
  | JObj fields =>
      andThen
        match assoc (lit "@type") fields with
        | Some t =>
            if truthy t then
              match t with
              | JArr xs => mapM (JS_String h) xs
              | _ => andThen (JS_String h t) (fun type => Ok [type])
              end
            else Ok []
        | None => Ok []
        end
        (fun types =>
           andThen
             ((fix keys (fields : list (jsstring * JSON)) : completion (list jsstring) :=
                 match fields with
                 | [] => Ok []
                 | (_, v) :: rest =>
                     andThen (walk h v) (fun first =>
                       andThen (keys rest) (fun others => Ok (first ++ others)))
                 end) fields)
             (fun inner => Ok (types ++ inner)))
  | JArr xs =>
      (fix elements (xs : list JSON) : completion (list jsstring) :=
         match xs with
         | [] => Ok []
         | x :: rest =>
             andThen (walk h x) (fun first =>
               andThen (elements rest) (fun others => Ok (first ++ others)))
         end) xs
  | _ => Ok []
  end.

Definition extractSchemaTypes (h : Host) (jsonld : list JSON)
  : completion (list jsstring) :=
  andThen (flatMapM (walk h) jsonld) (fun types => Ok (unique types)).

Definition RECOMMENDED_SCHEMA : list jsstring :=
  List.map lit
    [ "Organization"; "LocalBusiness"; "Service"; "Product"; "FAQPage"; "HowTo";
      "VideoObject"; "Review"; "BreadcrumbList"; "Article"; "BlogPosting"; "WebSite";
      "WebPage" ]%string.

(** [arr.includes(t)] on strings. *)
Definition includes (arr : list jsstring) (t : jsstring) : bool :=
  existsb (str_eqb t) arr.

(** auditOne: RECOMMENDED_SCHEMA.filter(t=>!detectedTypes.includes(t)).slice(0,10) *)
Definition suggestionsFor (detectedTypes : list jsstring) : list jsstring :=
  firstn 10 (List.filter (fun t => negb (includes detectedTypes t)) RECOMMENDED_SCHEMA).

Module Schema.
Record t : Type := { detectedTypes : list jsstring; suggestions : list jsstring }.
End Schema.

(** The [schema] field of an audit of a page. *)
Definition schemaOf (h : Host) (html : jsstring) : completion Schema.t :=
  andThen (extractSchemaTypes h (extractJsonLd h html)) (fun detectedTypes =>
    Ok {| Schema.detectedTypes := detectedTypes;
          Schema.suggestions := suggestionsFor detectedTypes |}).

(** A page whose JSON-LD block gives an object with a property named
    toString as a type. *)
Definition unprintableType : jsstring :=
  quoted' "<script type=`application/ld+json`>{`@type`:{`toString`:1}}</script>".

(** A page with the types of three recommended schemas in one block. *)
Definition threeTypes : jsstring :=
  quoted' "<script type=`application/ld+json`>{`@type`:[`Organization`,`WebSite`],`publisher`:{`@type`:`Service`}}</script>".

(** [within v w]: the value [w] is [v] or lies inside it, under any
    nesting of properties and array elements. *)
Inductive within : JSON -> JSON -> Prop :=
| within_here (v : JSON) : within v v
| within_field (fields : list (jsstring * JSON)) (k : jsstring) (v w : JSON) :
    In (k, v) fields -> within v w -> within (JObj fields) w
| within_element (xs : list JSON) (x w : JSON) :
    In x xs -> within x w -> within (JArr xs) w.

(** How many of the recommended types were detected. *)
Definition detectedRecommended (detectedTypes : list jsstring) : nat :=
  List.length (List.filter (includes detectedTypes) RECOMMENDED_SCHEMA).

(* ================================================================== *)
(** ** The network *)
(* ================================================================== *)

Module Res.
(** What the route reads of a fetch Response: [ok], [status], the final
    [url], the body as [text()] resolves it or the exception it rejects
    with, and the headers. *)
Record t : Type := {
  ok : bool;
  status : Z;
  url : jsstring;
  text : completion jsstring;
  headers : Headers
}.
End Res.

(** [fetch(url, { redirect: 'follow' })]: the response, or the exception
    the promise rejects with.  One audit requests its thirteen URLs once
    each, so it sees the network as a function of the URL. *)
Definition Fetch : Type := jsstring -> completion Res.t.

Module Fetched.
Record t : Type := { ok : bool; status : Z; text : jsstring; headers : Headers }.
End Fetched.

Definition fetchText (fetch : Fetch) (url : jsstring) : completion Fetched.t :=
  andThen (fetch url) (fun res =>
    if negb (Res.ok res) then
      Ok {| Fetched.ok := false; Fetched.status := Res.status res;
            Fetched.text := []; Fetched.headers := Res.headers res |}
    else
      andThen (Res.text res) (fun text =>
        Ok {| Fetched.ok := true; Fetched.status := Res.status res;
              Fetched.text := text; Fetched.headers := Res.headers res |})).

(* ================================================================== *)
(** ** Core files check *)
(* ================================================================== *)

Module CoreFile.
(** [{ exists, url?, lastModified? }]; the field [exists] is [exists_]. *)
Record t : Type := {
  exists_ : bool;
  url : option jsstring;
  lastModified : option jsstring
}.
End CoreFile.

Module Files.
Record t : Type := { robots : CoreFile.t; sitemap : CoreFile.t; llm : CoreFile.t }.
End Files.

Inductive FileKey : Type := Robots | Sitemap | Llm.

Definition targets : list (FileKey * jsstring) :=
  [ (Robots, lit "/robots.txt");
    (Sitemap, lit "/sitemap.xml");
    (Llm, lit "/llm.txt");
    (Llm, lit "/ai.txt");
    (Llm, lit "/ai.json");
    (Llm, lit "/.well-known/ai-plugin.json") ].

Definition absent : CoreFile.t :=
  {| CoreFile.exists_ := false; CoreFile.url := None; CoreFile.lastModified := None |}.

(** [res.headers.get('last-modified') || undefined] *)
Definition lastModifiedOf (res : Res.t) : option jsstring :=
  match Res.headers res (lit "last-modified") with
  | Some v => if nonEmpty v then Some v else None
  | None => None
  end.

Definition present (u : jsstring) (res : Res.t) : CoreFile.t :=
  {| CoreFile.exists_ := true; CoreFile.url := Some u;
     CoreFile.lastModified := lastModifiedOf res |}.

(** The three assignments of the loop body: the one of the key applies. *)
Definition store (key : FileKey) (file : CoreFile.t) (files : Files.t) : Files.t :=
  match key with
  | Robots => {| Files.robots := file; Files.sitemap := Files.sitemap files;
                 Files.llm := Files.llm files |}
  | Sitemap => {| Files.robots := Files.robots files; Files.sitemap := file;
                  Files.llm := Files.llm files |}
  | Llm => {| Files.robots := Files.robots files; Files.sitemap := Files.sitemap files;
              Files.llm := file |}
  end.

Fixpoint checkTargets (fetch : Fetch) (origin : jsstring)
  (ts : list (FileKey * jsstring)) (files : Files.t) : completion Files.t :=
  match ts with
  | [] => Ok files
  | (key, path) :: rest =>
      let u := origin ++ path in
      andThen (fetch u) (fun res =>
        checkTargets fetch origin rest
          (if Res.ok res then store key (present u res) files else files))
  end.

Definition checkCoreFiles (fetch : Fetch) (origin : jsstring) : completion Files.t :=
  checkTargets fetch origin targets
    {| Files.robots := absent; Files.sitemap := absent; Files.llm := absent |}.

(* ================================================================== *)
(** ** The crawl *)
(* ================================================================== *)

Definition HIGH_SIGNAL_PATHS : list jsstring :=
  List.map lit
    [ "/"; "/contact"; "/about"; "/team"; "/company"; "/leadership"; "/press";
      "/privacy"; "/careers" ]%string.

Module Page.
Record t : Type := { url : jsstring; html : jsstring; headers : Headers }.
End Page.

Fixpoint crawl (fetch : Fetch) (origin : jsstring) (paths : list jsstring)
  : completion (list Page.t) :=
  match paths with
  | [] => Ok []
  | p :: rest =>
      andThen (fetch (origin ++ p)) (fun res =>
        if Res.ok res then
          andThen (Res.text res) (fun html =>
            andThen (crawl fetch origin rest) (fun pages =>
              Ok ({| Page.url := Res.url res; Page.html := html;
                     Page.headers := Res.headers res |} :: pages)))
        else crawl fetch origin rest)
  end.

(** [crawlSmall(origin, limit)]; the audit calls it with the default
    limit, 6. *)
Definition crawlSmall (fetch : Fetch) (origin : jsstring) (limit : nat)
  : completion (list Page.t) :=
  crawl fetch origin (firstn limit HIGH_SIGNAL_PATHS).

(* ================================================================== *)
(** ** Single-site audit *)
(* ================================================================== *)

Module Best.
(** [{ label: best.value, value: best.value, sourceUrl: best.sourceUrl }] *)
Record t : Type := { label : jsstring; value : jsstring; sourceUrl : jsstring }.
End Best.

Module Audit.
(** The result of an audit; [pagespeed] holds the three PageSpeed fields
    and [ownerCandidates] the officers found, whatever their type. *)
Record t (PageSpeed Owner : Type) : Type := {
  target : jsstring;
  summary : float * Grade.t;
  categories : list CategoryScore.t;
  issues : list Issue.t;
  files : Files.t;
  schema : Schema.t;
  pagespeed : PageSpeed;
  best : option Best.t;
  ownerCandidates : list Owner
}.
Arguments target {PageSpeed Owner} _.
Arguments summary {PageSpeed Owner} _.
Arguments categories {PageSpeed Owner} _.
Arguments issues {PageSpeed Owner} _.
Arguments files {PageSpeed Owner} _.
Arguments schema {PageSpeed Owner} _.
Arguments pagespeed {PageSpeed Owner} _.
Arguments best {PageSpeed Owner} _.
Arguments ownerCandidates {PageSpeed Owner} _.
End Audit.

(** [jsonld.find(x => x?.['@type']==='Organization' && x.name)?.name] *)
Definition organizationName (jsonld : list JSON) : option JSON :=
  match List.find (fun x => isOrganization x && truthyOpt (jsGet x (lit "name"))) jsonld with
  | Some x => jsGet x (lit "name")
  | None => None
  end.

(** The brand guessed from the Organization name or the page title: the
    title up to the first bar or, when that is empty, up to the first en
    dash. *)
Definition brandGuess (h : Host) (text : jsstring) (jsonld : list JSON) : JSON :=
  let t := match exec titleRe text with
           | Some m => grp m 1
           | None => []
           end in
  match organizationName jsonld with
  | Some org => org
  | None =>
      let bar := Str.trim (hd [] (Str.split 124 t)) in
      if nonEmpty bar then JStr bar
      else JStr (Str.trim (hd [] (Str.split 8211 t)))
  end.

Section Audit.
(** The two PageSpeed runs sit in a try block that catches everything, and
    the Companies House lookup catches its own errors: the audit sees each
    as a function that returns. *)
Variable PageSpeed : Type.
Variable pagespeedOf : jsstring -> option jsstring -> PageSpeed.
Variable Owner : Type.
Variable companiesHouseOwnerGuess : JSON -> list Owner.
Variable fetch : Fetch.
Variable h : Host.

Definition auditOne (origin : jsstring) (options : JSON) (PSI_KEY : option jsstring)
  : completion (Audit.t PageSpeed Owner) :=
  andThen (fetchText fetch origin) (fun home =>
    if negb (Fetched.ok home) then Throw (Error (lit "Failed to fetch " ++ origin))
    else
      let jsonld := extractJsonLd h (Fetched.text home) in
      andThen (extractSchemaTypes h jsonld) (fun detectedTypes =>
        let suggestions := suggestionsFor detectedTypes in
        andThen (checkCoreFiles fetch origin) (fun files =>
          let pagespeed := pagespeedOf origin PSI_KEY in
          andThen (evaluateHome h (Fetched.text home) (Fetched.headers home) origin)
            (fun baseIssues =>
              let brand := brandGuess h (Fetched.text home) jsonld in
              andThen (crawlSmall fetch origin 6) (fun pages =>
                andThen
                  (discoverContacts h
                     (List.map (fun p => (Page.url p, Page.html p)) pages))
                  (fun discovered =>
                    let best := Discovery.best discovered in
                    let ownerCandidates :=
                      if truthyOpt (jsGet options (lit "enrichment"))
                      then companiesHouseOwnerGuess brand else [] in
                    let scored := scoreCategories baseIssues in
                    Ok {| Audit.target := origin;
                          Audit.summary :=
                            (Scored.overall scored, Scored.grade scored);
                          Audit.categories := Scored.categories scored;
                          Audit.issues := baseIssues;
                          Audit.files := files;
                          Audit.schema :=
                            {| Schema.detectedTypes := detectedTypes;
                               Schema.suggestions := suggestions |};
                          Audit.pagespeed := pagespeed;
                          Audit.best :=
                            option_map
                              (fun b => {| Best.label := Contact.value b;
                                           Best.value := Contact.value b;
                                           Best.sourceUrl := Contact.sourceUrl b |})
                              best;
                          Audit.ownerCandidates := ownerCandidates |})))))).
End Audit.

(** Notions for the properties of the audit. *)

(** The request of a URL resolves with an ok response. *)
Definition responds (fetch : Fetch) (u : jsstring) : bool :=
  match fetch u with
  | Ok res => Res.ok res
  | Throw _ => false
  end.

(** The request of a URL resolves, whatever the status. *)
Definition resolves (fetch : Fetch) (u : jsstring) : Prop :=
  exists res, fetch u = Ok res.

(** It resolves, and the body of an ok response can be read. *)
Definition readable (fetch : Fetch) (u : jsstring) : Prop :=
  exists res, fetch u = Ok res
              /\ (Res.ok res = true -> exists text, Res.text res = Ok text).

(** The URLs probed for the AI policy file, and the pages crawled. *)
Definition llmCandidates (origin : jsstring) : list jsstring :=
  List.map (fun path => origin ++ lit path)
    [ "/llm.txt"; "/ai.txt"; "/ai.json"; "/.well-known/ai-plugin.json" ]%string.

Definition coreUrls (origin : jsstring) : list jsstring :=
  List.map (fun t => origin ++ snd t) targets.

Definition crawlUrls (origin : jsstring) : list jsstring :=
  List.map (fun p => origin ++ p) (firstn 6 HIGH_SIGNAL_PATHS).

(** What a file entry reports for a URL that responds or not. *)
Definition reported (fetch : Fetch) (u : jsstring) (file : CoreFile.t) : Prop :=
  CoreFile.exists_ file = responds fetch u
  /\ CoreFile.url file = if responds fetch u then Some u else None.

(** The last element of a list, if any. *)
Definition lastOf {T : Type} (l : list T) : option T := hd_error (rev l).

(** A network for the examples: the home page and /contact respond, every
    other request resolves with status 404. *)
Definition okPage (u text : jsstring) : Res.t :=
  {| Res.ok := true; Res.status := 200; Res.url := u; Res.text := Ok text;
     Res.headers := fun _ => None |}.

Definition notFound (u : jsstring) : Res.t :=
  {| Res.ok := false; Res.status := 404; Res.url := u; Res.text := Ok [];
     Res.headers := fun _ => None |}.

Definition smallSite : Fetch :=
  fun u =>
    if str_eqb u (lit "https://a.example/") then
      Ok (okPage u (lit "<title>Acme | Home</title><h1>Acme</h1>"))
    else if str_eqb u (lit "https://a.example//contact") then
      Ok (okPage u (quoted' "<a href=`mailto:hi@a.example`>Mail us</a>"))
    else if str_eqb u (lit "https://a.example//ai.txt") then Ok (okPage u [])
    else if str_eqb u (lit "https://a.example//ai.json") then Ok (okPage u [])
    else Ok (notFound u).

(** A network on which the request of /llm.txt is rejected. *)
Definition brokenSite : Fetch :=
  fun u =>
    if str_eqb u (lit "https://a.example//llm.txt")
    then Throw (TypeError (lit "fetch failed"))
    else smallSite u.

(** A page the crawl keeps: the response of one of the paths, with the
    final URL of the response as its URL. *)
Definition crawled (fetch : Fetch) (origin : jsstring) (paths : list jsstring)
  (url html : jsstring) : Prop :=
  exists p res,
    In p paths /\ fetch (origin ++ p) = Ok res /\ Res.ok res = true
    /\ Res.text res = Ok html /\ Res.url res = url.

(** The audit of the examples: no PageSpeed data and no owner lookup. *)
Definition smallAudit (fetch : Fetch) (origin : jsstring) (options : JSON)
  : completion (Audit.t unit unit) :=
  auditOne unit (fun _ _ => tt) unit (fun _ => []) fetch SmallHost.host
    origin options None.

(* ================================================================== *)
(** ** The audit page (src/app/audit/page.tsx) *)
(* ================================================================== *)

(** The loop of [s.split(re)] for a pattern without capture groups, on a
    subject that is not empty: [p] is where the current piece starts,
    [piece] holds its code units up to the position of [s], in reverse.
    A match that ends at [p] is skipped; every turn moves forward or rules
    out the empty match at its position, so twice the length of the
    subject bounds the turns. *)
Fixpoint splitLoop (fuel : nat) (ic : bool) (r : re) (p : nat) (piece : jsstring)
  (s : state) : list jsstring :=
  match fuel with
  | O => [rev piece]
  | S fuel' =>
      let step :=
        match advance s with
        | Some (c, s') => splitLoop fuel' ic r p (c :: piece) s'
        | None => [rev piece]
        end in
      match rest s with
      | [] => [rev piece]
      | _ :: _ =>
          match run ic r Some s with
          | Some e =>
              if Nat.eqb (pos e) p then step
              else rev piece
                   :: splitLoop fuel' ic r (pos e) []
                        {| pos := pos e; prev := prev e; rest := rest e; caps := [] |}
          | None => step
          end
      end
  end.

(** [s.split(re)]: the empty subject gives no piece when the pattern
    matches it, and itself otherwise. *)
Definition splitBy (re : regex) (s : jsstring) : list jsstring :=
  let start := {| pos := 0; prev := None; rest := s; caps := [] |} in
  match s with
  | [] =>
      match run (ignoreCase re) (source re) Some start with
      | Some _ => []
      | None => [[]]
      end
  | _ :: _ =>
      splitLoop (2 * S (List.length s)) (ignoreCase re) (source re) 0 [] start
  end.

(** /\r?\n|,|\s/ *)
Definition separatorRe : regex :=
  re_ (alt [cat [opt (Chr 13); Chr 10]; str ","; Cls false space]).

(** The page's normaliser: the route's, with null for an exception. *)
Definition normalizeOrigin (h : Host) (input : jsstring) : option jsstring :=
  match URL_new h (withScheme input) None with
  | None => None
  | Some u =>
      match URL_new h (URL.origin u) None with
      | None => None
      | Some o => Some (URL.href o)
      end
  end.

(** [arr.map(f).filter(x => !!x)] for an [f] that returns a string or
    null. *)
Fixpoint mapTruthy (f : jsstring -> option jsstring) (arr : list jsstring)
  : list jsstring :=
  match arr with
  | [] => []
  | x :: rest =>
      match f x with
      | Some y => if nonEmpty y then y :: mapTruthy f rest else mapTruthy f rest
      | None => mapTruthy f rest
      end
  end.

Definition rawPieces (input : jsstring) : list jsstring :=
  List.filter nonEmpty (List.map Str.trim (splitBy separatorRe input)).

Definition parseMulti (h : Host) (input : jsstring) : list jsstring :=
  let raw := rawPieces input in
  let norms := mapTruthy (normalizeOrigin h) raw in
  firstn 10 (unique norms).

(** [parsed.length > 0 && parsed.length <= 10 && !loading] *)
Definition canSubmit (parsed : list jsstring) (loading : bool) : bool :=
  (0 <? List.length parsed)%nat && (List.length parsed <=? 10)%nat && negb loading.

(** The body handleSubmit posts for a list that is not empty:
    [{ url: list.length === 1 ? list[0] : list, options: { enrichment } }]. *)
Definition submitted (list : list jsstring) (includeEnrichment : bool) : Request.body :=
  {| Request.url := match list with
                    | [x] => UrlString x
                    | _ => UrlArray list
                    end;
     Request.options := Some (JObj [(lit "enrichment", JBool includeEnrichment)]) |}.

(** [severityRank]: fail, then warn, then pass. *)
Definition severityRank (s : Status) : float :=
  match s with
  | fail => 0
  | warn => 1
  | pass => 2
  end.

(** The rows of IssuesTable: nothing for an empty list, otherwise
    [[...items].sort((a, b) => severityRank(a.status) - severityRank(b.status))]. *)
Definition issueRows (items : list Issue.t) : option (list Issue.t) :=
  match items with
  | [] => None
  | _ :: _ =>
      Some (sort (fun a b => PrimFloat.sub (severityRank (Issue.status a))
                               (severityRank (Issue.status b))) items)
  end.

Definition hasStatus (s : Status) (i : Issue.t) : bool :=
  match s, Issue.status i with
  | pass, pass | warn, warn | fail, fail => true
  | _, _ => false
  end.

(* ================================================================== *)
(** * Properties *)
(* ================================================================== *)

(** ** Scoring: from issue lists to status vectors and doubled sums *)

Lemma vectors_complete (v : list Status) : In v (vectors (List.length v)).
Proof.
  induction v as [|x v IH]; simpl; [now left|].
  apply in_flat_map. exists v. split; [exact IH|].
  destruct x; simpl; auto.
Qed.

Lemma upTo_complete (n k : Z) : 0 <= k <= n -> In k (upTo n).
Proof.
  intros Hk. unfold upTo. apply in_map_iff.
  exists (Z.to_nat k). split; [lia|]. apply in_seq. lia.
Qed.

Lemma rawScore_rawFrom (st : jsstring -> Status) (es : list (jsstring * Z)) :
  rawScore st es = rawFrom (List.map snd es) (List.map (fun e => st (fst e)) es).
Proof.
  unfold rawScore, rawFrom. generalize 0%float as acc.
  induction es as [|e es IH]; intros acc; simpl; [reflexivity|].
  apply IH.
Qed.

Lemma doubledSum_doubledFrom (st : jsstring -> Status) (es : list (jsstring * Z)) :
  doubledSum st es = doubledFrom (List.map snd es) (List.map (fun e => st (fst e)) es).
Proof.
  unfold doubledSum, doubledFrom.
  induction es as [|e es IH]; simpl; [reflexivity|]. now rewrite IH.
Qed.

Lemma rawCheck_sound (ws : list Z) (total : Z) (v : list Status) :
  rawCheck ws total = true ->
  List.length v = List.length ws ->
  rawFrom ws v = PrimFloat.div (Z2F (doubledFrom ws v)) 2
  /\ 0 <= doubledFrom ws v <= 2 * total.
Proof.
  intros Hcheck Hlen. unfold rawCheck in Hcheck.
  rewrite forallb_forall in Hcheck.
  specialize (Hcheck v). rewrite <- Hlen in Hcheck.
  specialize (Hcheck (vectors_complete v)).
  apply andb_prop in Hcheck as [Hcheck Hhi].
  apply andb_prop in Hcheck as [Heq Hlo].
  apply Leibniz.eqb_spec in Heq. split; [exact Heq|lia].
Qed.


Lemma rawCheck_categories :
  forallb (fun cat => rawCheck (List.map snd (entriesOf cat)) (totalOf cat)) categories
  = true.
Proof. vm_compute. reflexivity. Qed.

Lemma sumWeights_categories :
  forallb (fun cat => PrimFloat.Leibniz.eqb (sumWeights (entriesOf cat)) (Z2F (totalOf cat)))
    categories = true.
Proof. vm_compute. reflexivity. Qed.

Lemma category_shape (st : jsstring -> Status) (cat : jsstring) :
  In cat categories ->
  let k := doubledSum st (entriesOf cat) in
  pctOf st cat = pctFrom (totalOf cat) k
  /\ weightedOf st cat = weightedFrom (totalOf cat) (shareOf cat) k
  /\ 0 <= k <= 2 * totalOf cat.
Proof.
  intros Hin k.
  pose proof rawCheck_categories as Hraw.
  pose proof sumWeights_categories as Hsum.
  rewrite forallb_forall in Hraw, Hsum.
  specialize (Hraw cat Hin). specialize (Hsum cat Hin).
  apply Leibniz.eqb_spec in Hsum.
  destruct (rawCheck_sound _ _ (List.map (fun e => st (fst e)) (entriesOf cat)) Hraw)
    as [Heq Hbound].
  { now rewrite !length_map. }
  rewrite <- rawScore_rawFrom, <- doubledSum_doubledFrom in Heq.
  rewrite <- doubledSum_doubledFrom in Hbound.
  assert (Hpct : pctOf st cat = pctFrom (totalOf cat) k).
  { unfold pctOf, pctFrom. now rewrite Heq, Hsum. }
  split; [exact Hpct|]. split; [|exact Hbound].
  unfold weightedOf, weightedFrom. now rewrite Hpct.
Qed.

Lemma categories_eq : categories = [techCat; onpageCat; entityCat; hygieneCat].
Proof. reflexivity. Qed.


Lemma scoreCategories_shape (issues : list Issue.t) :
  let k := fun cat => doubledSum (statusOf issues) (entriesOf cat) in
  let x := overallFrom (k techCat) (k onpageCat) (k entityCat) (k hygieneCat) in
  scoreCategories issues
  = {| Scored.overall := Math_round x;
       Scored.grade := gradeOf x;
       Scored.categories :=
         [catScore techCat 13 35 (k techCat); catScore onpageCat 32 35 (k onpageCat);
          catScore entityCat 10 20 (k entityCat); catScore hygieneCat 7 10 (k hygieneCat)] |}
  /\ 0 <= k techCat <= 26 /\ 0 <= k onpageCat <= 64
  /\ 0 <= k entityCat <= 20 /\ 0 <= k hygieneCat <= 14.
Proof.
  intros k x.
  set (st := statusOf issues).
  destruct (category_shape st techCat) as (P1 & W1 & B1); [rewrite categories_eq; simpl; tauto|].
  destruct (category_shape st onpageCat) as (P2 & W2 & B2); [rewrite categories_eq; simpl; tauto|].
  destruct (category_shape st entityCat) as (P3 & W3 & B3); [rewrite categories_eq; simpl; tauto|].
  destruct (category_shape st hygieneCat) as (P4 & W4 & B4); [rewrite categories_eq; simpl; tauto|].
  change (totalOf techCat) with 13 in *. change (shareOf techCat) with 35 in *.
  change (totalOf onpageCat) with 32 in *. change (shareOf onpageCat) with 35 in *.
  change (totalOf entityCat) with 10 in *. change (shareOf entityCat) with 20 in *.
  change (totalOf hygieneCat) with 7 in *. change (shareOf hygieneCat) with 10 in *.
  split; [|unfold k; fold st; lia].
  transitivity
    {| Scored.overall :=
         Math_round (PrimFloat.add (PrimFloat.add (PrimFloat.add (PrimFloat.add 0
           (weightedOf st techCat)) (weightedOf st onpageCat)) (weightedOf st entityCat))
           (weightedOf st hygieneCat));
       Scored.grade :=
         gradeOf (PrimFloat.add (PrimFloat.add (PrimFloat.add (PrimFloat.add 0
           (weightedOf st techCat)) (weightedOf st onpageCat)) (weightedOf st entityCat))
           (weightedOf st hygieneCat));
       Scored.categories :=
         List.map (fun cat =>
           {| CategoryScore.id := cat;
              CategoryScore.score := Math_round (pctOf st cat);
              CategoryScore.weighted := Math_round (weightedOf st cat) |})
           [techCat; onpageCat; entityCat; hygieneCat] |}.
  - reflexivity.
  - simpl List.map. rewrite P1, P2, P3, P4, W1, W2, W3, W4. reflexivity.
Qed.

(** ** Scoring: the exact rule in terms of doubled sums *)

Lemma round_proper (q q' : Q) : (q == q')%Q -> Exact.round q = Exact.round q'.
Proof.
  intros Heq. unfold Exact.round. apply Qfloor_comp. now rewrite Heq.
Qed.

Lemma sumQ_inject (ws : list Z) :
  (Exact.sumQ (List.map inject_Z ws) == inject_Z (fold_right Z.add 0%Z ws))%Q.
Proof.
  induction ws as [|w ws IH]; simpl; [reflexivity|].
  rewrite IH, inject_Z_plus. reflexivity.
Qed.

Lemma totalWeight_totalOf (cat : jsstring) :
  (Exact.totalWeight cat == inject_Z (totalOf cat))%Q.
Proof.
  unfold Exact.totalWeight, totalOf.
  rewrite <- sumQ_inject, List.map_map. reflexivity.
Qed.

Lemma statusValue_twice (s : Status) : (Exact.statusValue s == twice s # 2)%Q.
Proof. destruct s; reflexivity. Qed.

Lemma weightedSum_doubled (issues : list Issue.t) (cat : jsstring) :
  (Exact.weightedSum issues cat == doubledSum (statusOf issues) (entriesOf cat) # 2)%Q.
Proof.
  unfold Exact.weightedSum. generalize (entriesOf cat) as es.
  induction es as [|[id w] es IH]; [reflexivity|].
  cbn [List.map Exact.sumQ fold_right doubledSum fst snd].
  fold (Exact.sumQ (List.map
    (fun e => inject_Z (snd e) * Exact.statusValue (statusOf issues (fst e)))%Q es)).
  fold (doubledSum (statusOf issues) es).
  rewrite IH, statusValue_twice.
  unfold Qeq, Qplus, Qmult, inject_Z. cbn [Qnum Qden]. lia.
Qed.

Lemma percentage_doubled (issues : list Issue.t) (cat : jsstring) :
  (Exact.percentage issues cat
   == 100 * (doubledSum (statusOf issues) (entriesOf cat) # 2) / inject_Z (totalOf cat))%Q.
Proof.
  unfold Exact.percentage.
  now rewrite weightedSum_doubled, totalWeight_totalOf.
Qed.

Lemma overall_doubled (issues : list Issue.t) :
  let k := fun cat => doubledSum (statusOf issues) (entriesOf cat) in
  (Exact.overall issues
   == overallNum (k techCat) (k onpageCat) (k entityCat) (k hygieneCat) # 5824)%Q.
Proof.
  intros k.
  change (Exact.overall issues)
    with (Exact.percentage issues techCat * (inject_Z 35 / 100)
          + (Exact.percentage issues onpageCat * (inject_Z 35 / 100)
             + (Exact.percentage issues entityCat * (inject_Z 20 / 100)
                + (Exact.percentage issues hygieneCat * (inject_Z 10 / 100) + 0))))%Q.
  rewrite !percentage_doubled. fold (k techCat) (k onpageCat) (k entityCat) (k hygieneCat).
  change (totalOf techCat) with 13. change (totalOf onpageCat) with 32.
  change (totalOf entityCat) with 10. change (totalOf hygieneCat) with 7.
  generalize (k techCat) (k onpageCat) (k entityCat) (k hygieneCat).
  intros k1 k2 k3 k4. unfold overallNum.
  unfold Qeq, Qdiv, Qplus, Qmult, Qinv, inject_Z. cbn [Qnum Qden]. lia.
Qed.

Lemma categoryCheck_categories :
  forallb (fun cat => categoryCheck (totalOf cat) (shareOf cat)) categories = true.
Proof. vm_compute. reflexivity. Qed.

(** *** Rounding read off comparisons *)

Lemma halves_table :
  forallb (fun n => halfIs (PrimFloat.sub (Z2F n) 0.5) (2 * n - 1)
                    && halfIs (PrimFloat.add (Z2F n) 0.5) (2 * n + 1))
    (List.tl (upTo 100)) = true.
Proof. vm_compute. reflexivity. Qed.

Lemma digits2_size (m : positive) : digits2_pos m = Pos.size m.
Proof. induction m; simpl; congruence. Qed.

Lemma digits53 (m : positive) :
  Zpos (digits2_pos m) = 53 -> 2 ^ 52 <= Zpos m < 2 ^ 53.
Proof.
  intros H. rewrite digits2_size in H.
  pose proof (Pos.size_gt m) as Hgt. pose proof (Pos.size_le m) as Hle.
  assert (Hs : Pos.size m = 53%positive) by lia. rewrite Hs in *.
  split.
  - assert (2 ^ 53 <= 2 * Zpos m); [|lia].
    change (2 ^ 53) with (Zpos (2 ^ 53)). change (2 * Zpos m) with (Zpos (m~0)). lia.
  - change (2 ^ 53) with (Zpos (2 ^ 53)). lia.
Qed.

Lemma exponent_cases (e : Z) :
  -53 <= e <= -46 ->
  e = -53 \/ e = -52 \/ e = -51 \/ e = -50 \/ e = -49 \/ e = -48 \/ e = -47 \/ e = -46.
Proof. lia. Qed.

Ltac pow2 :=
  repeat match goal with
         | |- context [2 ^ ?k] =>
             let v := eval vm_compute in (2 ^ k) in change (2 ^ k) with v
         | H : context [2 ^ ?k] |- _ =>
             let v := eval vm_compute in (2 ^ k) in change (2 ^ k) with v in H
         end.

(** A double that lies between [n - 1/2] (included) and [n + 1/2]
    (excluded), for an integer [n] from 1 to 100, rounds to [n]. *)
Lemma round_between (x : float) (n : Z) :
  1 <= n <= 100 ->
  PrimFloat.leb (PrimFloat.sub (Z2F n) 0.5) x = true ->
  PrimFloat.ltb x (PrimFloat.add (Z2F n) 0.5) = true ->
  Math_round x = Z2F n.
Proof.
  intros Hn Hlo Hhi.
  pose proof halves_table as Ht. rewrite forallb_forall in Ht.
  assert (Hin : In n (List.tl (upTo 100))).
  { unfold upTo. cbn [seq List.map List.tl Z.to_nat Pos.to_nat Pos.iter_op Nat.add].
    apply in_map_iff. exists (Z.to_nat n). split; [lia|]. apply in_seq. lia. }
  specialize (Ht n Hin). apply andb_prop in Ht as [Tlo Thi].
  rewrite leb_spec in Hlo. rewrite ltb_spec in Hhi.
  unfold halfIs in Tlo, Thi.
  destruct (Prim2SF (PrimFloat.sub (Z2F n) 0.5)) as [| | |[|] ml el]; try discriminate.
  destruct (Prim2SF (PrimFloat.add (Z2F n) 0.5)) as [| | |[|] mh eh]; try discriminate.
  pose proof (Prim2SF_valid x) as Hv.
  unfold Math_round.
  destruct (Prim2SF x) as [s|s| |s m e].
  - destruct s; discriminate Hlo.
  - destruct s; [discriminate Hlo|discriminate Hhi].
  - discriminate Hlo.
  - destruct s; [discriminate Hlo|].
    unfold SFleb, SFltb, SFcompare in Hlo, Hhi.
    repeat rewrite andb_true_iff in Tlo, Thi.
    destruct Tlo as [[[Tl1 Tl2] Tl3] Tl4]. destruct Thi as [[[Th1 Th2] Th3] Th4].
    apply Z.leb_le in Tl1, Tl2, Th1, Th2. apply Z.eqb_eq in Tl3, Tl4, Th3, Th4.
    apply digits53 in Tl3, Th3.
    assert (He : el <= e <= eh).
    { destruct (Z.compare_spec el e), (Z.compare_spec e eh); try lia; discriminate. }
    assert (Hd : Zpos (digits2_pos m) = 53).
    { cbn [SpecFloat.valid_binary] in Hv.
      unfold bounded, canonical_mantissa, fexp, emin in Hv.
      apply andb_prop in Hv as [Hv _]. apply Z.eqb_eq in Hv.
      unfold prec, emax in Hv. lia. }
    apply digits53 in Hd.
    assert (Hml : el = e -> Zpos ml <= Zpos m).
    { intros ->. rewrite Z.compare_refl in Hlo.
      rewrite Pos.compare_cont_spec in Hlo. cbn [Pos.switch_Eq] in Hlo.
      destruct (Pos.compare_spec ml m); try lia; discriminate. }
    assert (Hmh : e = eh -> Zpos m < Zpos mh).
    { intros ->. rewrite Z.compare_refl in Hhi.
      rewrite Pos.compare_cont_spec in Hhi. cbn [Pos.switch_Eq] in Hhi.
      destruct (Pos.compare_spec m mh); try lia; discriminate. }
    clear Hlo Hhi Hv.
    assert (Hneg : (0 <=? e) = false) by (apply Z.leb_gt; lia).
    rewrite Hneg. cbv zeta. rewrite andb_false_r. f_equal.
    rewrite Z.shiftr_div_pow2, Z.shiftl_mul_pow2, Z.double_spec by lia.
    assert (Ee : -53 <= e <= -46) by lia.
    assert (Eel : -53 <= el <= -46) by lia.
    assert (Eeh : -53 <= eh <= -46) by lia.
    apply exponent_cases in Ee, Eel, Eeh.
    symmetry.
    apply Z.div_unique with (r := 2 * Zpos m + 1 * 2 ^ (- e) - n * 2 ^ (1 - e)); [|lia].
    left.
    repeat match goal with H : _ \/ _ |- _ => destruct H as [H|H] end; subst e el eh;
      pow2; lia.
Qed.

(** *** Every combination of doubled sums *)

Lemma overallSweep_holds :
  (let t3 := entityTable in
   forallb (fun k1 =>
     let s1 := PrimFloat.add 0 (weightedFrom 13 35 k1) in
     let a1 := 7840 * k1 in
     forallb (fun k2 =>
       let s2 := PrimFloat.add s1 (weightedFrom 32 35 k2) in
       let a2 := a1 + 3185 * k2 in
       forallb (fun k4 =>
         let w4 := weightedFrom 7 10 k4 in
         let a4 := a2 + 4160 * k4 in
         let n0 := (2 * a4 + 5824) / 11648 in
         forallb (fun t =>
           leafCheck (PrimFloat.add (PrimFloat.add s2 (fst (fst t))) w4)
             (n0 + snd t) (a4 + snd (fst t))) t3)
         (upTo 14)) (upTo 64)) (upTo 26))
  = true.
Proof. vm_compute. reflexivity. Qed.

Lemma gradeNum_exact (num : Z) : gradeNum num = Exact.gradeOf (num # 5824).
Proof.
  unfold gradeNum, Exact.gradeOf, Qle_bool. cbn [Qnum Qden].
  rewrite Z.mul_1_r. reflexivity.
Qed.

Lemma round_split (a k : Z) :
  Exact.round ((a + 5824 * k) # 5824) = (2 * a + 5824) / 11648 + k.
Proof.
  unfold Exact.round, Qplus, Qfloor. cbn [Qnum Qden].
  change (Z.pos (5824 * 2)) with 11648.
  replace ((a + 5824 * k) * 2 + 1 * 5824) with (2 * a + 5824 + k * 11648) by lia.
  apply Z.div_add. lia.
Qed.

Lemma overallCheck_sound (k1 k2 k3 k4 : Z) :
  0 <= k1 <= 26 -> 0 <= k2 <= 64 -> 0 <= k3 <= 20 -> 0 <= k4 <= 14 ->
  Math_round (overallFrom k1 k2 k3 k4)
  = Z2F (Exact.round (overallNum k1 k2 k3 k4 # 5824))
  /\ gradeOf (overallFrom k1 k2 k3 k4)
     = Exact.gradeOf (overallNum k1 k2 k3 k4 # 5824).
Proof.
  intros H1 H2 H3 H4.
  pose proof overallSweep_holds as Hc. cbv zeta in Hc.
  rewrite forallb_forall in Hc. specialize (Hc k1 (upTo_complete 26 k1 H1)).
  rewrite forallb_forall in Hc. specialize (Hc k2 (upTo_complete 64 k2 H2)).
  rewrite forallb_forall in Hc. specialize (Hc k4 (upTo_complete 14 k4 H4)).
  rewrite forallb_forall in Hc.
  specialize (Hc (weightedFrom 10 20 k3, 5824 * k3, k3)).
  assert (Hin : In (weightedFrom 10 20 k3, 5824 * k3, k3) entityTable).
  { unfold entityTable.
    apply (in_map (fun k => (weightedFrom 10 20 k, 5824 * k, k))).
    now apply upTo_complete. }
  specialize (Hc Hin). cbn [fst snd] in Hc.
  fold (overallFrom k1 k2 k3 k4) in Hc.
  replace (7840 * k1 + 3185 * k2 + 4160 * k4 + 5824 * k3)
    with (overallNum k1 k2 k3 k4) in Hc by (unfold overallNum; lia).
  set (a := 7840 * k1 + 3185 * k2 + 4160 * k4) in *.
  assert (Hnum : overallNum k1 k2 k3 k4 = a + 5824 * k3)
    by (unfold overallNum; subst a; lia).
  assert (Hround : Exact.round (overallNum k1 k2 k3 k4 # 5824)
                   = (2 * a + 5824) / 11648 + k3)
    by (rewrite Hnum; apply round_split).
  rewrite <- Hround in Hc.
  assert (Hrange : 0 <= Exact.round (overallNum k1 k2 k3 k4 # 5824) <= 100).
  { rewrite Hround.
    assert (0 <= a <= 465920) by (subst a; lia). clearbody a.
    assert (0 <= (2 * a + 5824) / 11648) by (apply Z.div_pos; lia).
    assert ((2 * a + 5824) / 11648 < 81) by (apply Z.div_lt_upper_bound; lia).
    lia. }
  unfold leafCheck in Hc. apply andb_prop in Hc as [Hr Hg].
  split.
  - destruct (Z.eqb_spec (Exact.round (overallNum k1 k2 k3 k4 # 5824)) 0) as [E|E].
    + now apply Leibniz.eqb_spec in Hr.
    + apply andb_prop in Hr as [Hlo Hhi]. apply round_between; [lia|assumption..].
  - rewrite <- gradeNum_exact.
    destruct (gradeOf _), (gradeNum _); try reflexivity; discriminate Hg.
Qed.

Lemma categoryCheck_sound (cat : jsstring) (k : Z) :
  In cat categories -> 0 <= k <= 2 * totalOf cat ->
  Math_round (pctFrom (totalOf cat) k)
  = Z2F (Exact.round (100 * (k # 2) / inject_Z (totalOf cat)))
  /\ Math_round (weightedFrom (totalOf cat) (shareOf cat) k)
     = Z2F (Exact.round (100 * (k # 2) / inject_Z (totalOf cat)
                         * (inject_Z (shareOf cat) / 100))).
Proof.
  intros Hin Hk.
  pose proof categoryCheck_categories as Hc.
  rewrite forallb_forall in Hc. specialize (Hc cat Hin).
  unfold categoryCheck in Hc. rewrite forallb_forall in Hc.
  specialize (Hc k (upTo_complete _ k Hk)).
  apply andb_prop in Hc as [Hp Hw].
  now apply Leibniz.eqb_spec in Hp, Hw.
Qed.

Lemma score_exact (issues : list Issue.t) (cat : jsstring) :
  In cat categories ->
  Math_round (pctFrom (totalOf cat) (doubledSum (statusOf issues) (entriesOf cat)))
  = Z2F (Exact.round (Exact.percentage issues cat)).
Proof.
  intros Hin.
  destruct (category_shape (statusOf issues) cat Hin) as (_ & _ & Hk).
  destruct (categoryCheck_sound cat _ Hin Hk) as [Hp _].
  rewrite Hp. f_equal. apply round_proper. symmetry. apply percentage_doubled.
Qed.

Lemma scoreCategories_exact (issues : list Issue.t) :
  List.map (fun c => (CategoryScore.id c, CategoryScore.score c))
    (Scored.categories (scoreCategories issues))
  = List.map (fun cat => (cat, Z2F (Exact.round (Exact.percentage issues cat))))
      categories
  /\ Scored.overall (scoreCategories issues)
     = Z2F (Exact.round (Exact.overall issues)).
Proof.
  destruct (scoreCategories_shape issues) as (Hshape & B1 & B2 & B3 & B4).
  cbv zeta in Hshape. rewrite Hshape. cbn [Scored.categories Scored.overall].
  split.
  - rewrite categories_eq. cbn [List.map catScore CategoryScore.id CategoryScore.score].
    rewrite <- (score_exact issues techCat), <- (score_exact issues onpageCat),
      <- (score_exact issues entityCat), <- (score_exact issues hygieneCat)
      by (rewrite categories_eq; simpl; tauto).
    reflexivity.
  - destruct (overallCheck_sound _ _ _ _ B1 B2 B3 B4) as [Hr _].
    rewrite Hr. f_equal. apply round_proper. symmetry. apply overall_doubled.
Qed.

(** The engine reads the issue list as the specification does: the map it
    builds holds, for each id, the last issue of that id. *)
Lemma reported_statusOf (issues : list Issue.t) (id : string) :
  Spec.reported issues id = statusOf issues (lit id).
Proof.
  unfold Spec.reported, statusOf, byId.
  induction issues as [|i issues IH] using rev_ind.
  - cbn. now rewrite lookup_empty.
  - rewrite rev_app_distr, foldl_snoc. cbn [rev app List.find].
    unfold str_eqb at 1. destruct (decide (Issue.id i = lit id)) as [Heq|Hne].
    + rewrite bool_decide_eq_true_2 by exact Heq.
      now rewrite <- Heq, lookup_insert_eq.
    + rewrite bool_decide_eq_false_2 by exact Hne.
      rewrite lookup_insert_ne by exact Hne. exact IH.
Qed.

Lemma spec_percentage (issues : list Issue.t) (cat : jsstring)
  (map : list (string * Z)) :
  entriesOf cat = List.map (fun e => (lit (fst e), snd e)) map ->
  Spec.percentage issues map = Exact.percentage issues cat.
Proof.
  intros Hmap.
  unfold Spec.percentage, Exact.percentage, Exact.weightedSum, Exact.totalWeight.
  rewrite Hmap, !map_map. cbn [fst snd]. f_equal. f_equal. f_equal.
  apply map_ext. intros e. now rewrite reported_statusOf.
Qed.

Lemma spec_overall (issues : list Issue.t) :
  (Exact.overall issues == Spec.overall issues)%Q.
Proof.
  unfold Exact.overall, Spec.overall, Exact.contribution.
  rewrite categories_eq. cbn [List.map Exact.sumQ fold_right].
  rewrite (spec_percentage issues techCat Spec.technical_seo eq_refl),
    (spec_percentage issues onpageCat Spec.onpage_seo eq_refl),
    (spec_percentage issues entityCat Spec.entity_trust eq_refl),
    (spec_percentage issues hygieneCat Spec.hygiene eq_refl).
  change (Exact.share techCat) with (35 # 100)%Q.
  change (Exact.share onpageCat) with (35 # 100)%Q.
  change (Exact.share entityCat) with (20 # 100)%Q.
  change (Exact.share hygieneCat) with (10 # 100)%Q.
  generalize (Exact.percentage issues techCat) (Exact.percentage issues onpageCat)
    (Exact.percentage issues entityCat) (Exact.percentage issues hygieneCat).
  intros p1 p2 p3 p4.
  ring.
Qed.

(** C1.  For every issue list, the engine returns the four categories
    technical_seo, onpage_seo, entity_trust and hygiene, each with as its
    score the rounding (a half going up) of 100 times the weighted sum of
    the status values of the checks of its fixed map (pass 1, warn 1/2,
    fail 0, a check the list does not report counting as fail) divided by
    the sum of the map's weights; and the overall score is the rounding of
    the sum of the unrounded category percentages times the shares 35, 35,
    20 and 10 percent.  The engine computes in doubles; the right-hand
    sides are exact rationals over the maps and shares written out in
    [Spec], with [Spec]'s own reading of the issue list. *)
Theorem scoreCategories_formula (issues : list Issue.t) :
  List.map (fun c => (CategoryScore.id c, CategoryScore.score c))
    (Scored.categories (scoreCategories issues))
  = [ (lit "technical_seo",
       Z2F (Exact.round (Spec.percentage issues Spec.technical_seo)));
      (lit "onpage_seo", Z2F (Exact.round (Spec.percentage issues Spec.onpage_seo)));
      (lit "entity_trust", Z2F (Exact.round (Spec.percentage issues Spec.entity_trust)));
      (lit "hygiene", Z2F (Exact.round (Spec.percentage issues Spec.hygiene))) ]
  /\ Scored.overall (scoreCategories issues)
     = Z2F (Exact.round (Spec.overall issues)).
Proof.
  destruct (scoreCategories_exact issues) as [Hcats Hoverall]. split.
  - rewrite Hcats, categories_eq. cbn [List.map].
    now rewrite (spec_percentage issues techCat Spec.technical_seo eq_refl),
      (spec_percentage issues onpageCat Spec.onpage_seo eq_refl),
      (spec_percentage issues entityCat Spec.entity_trust eq_refl),
      (spec_percentage issues hygieneCat Spec.hygiene eq_refl).
  - rewrite Hoverall. f_equal. apply round_proper, spec_overall.
Qed.

(** The weighted contribution a category reports is rounded the same way. *)
Lemma weighted_exact (issues : list Issue.t) :
  List.map CategoryScore.weighted (Scored.categories (scoreCategories issues))
  = List.map (fun cat => Z2F (Exact.round (Exact.contribution issues cat))) categories.
Proof.
  destruct (scoreCategories_shape issues) as (Hshape & _).
  cbv zeta in Hshape. rewrite Hshape. cbn [Scored.categories].
  assert (H : forall cat, In cat categories ->
    Math_round (weightedFrom (totalOf cat) (shareOf cat)
                  (doubledSum (statusOf issues) (entriesOf cat)))
    = Z2F (Exact.round (Exact.contribution issues cat))).
  { intros cat Hin.
    destruct (category_shape (statusOf issues) cat Hin) as (_ & _ & Hk).
    destruct (categoryCheck_sound cat _ Hin Hk) as [_ Hw].
    rewrite Hw. f_equal. apply round_proper. unfold Exact.contribution.
    rewrite percentage_doubled. reflexivity. }
  rewrite categories_eq. cbn [List.map catScore CategoryScore.weighted].
  rewrite <- (H techCat), <- (H onpageCat), <- (H entityCat), <- (H hygieneCat)
    by (rewrite categories_eq; simpl; tauto).
  reflexivity.
Qed.

(** ** Scoring: the grade *)

(** C2, as stated, fails: on [issues90] the unrounded overall score is
    89.609375, so the returned overall is 90 and the grade is B. *)
Lemma grade_B_at_returned_90 :
  overallSum issues90 = 89.609375%float
  /\ Scored.overall (scoreCategories issues90) = 90%float
  /\ Scored.grade (scoreCategories issues90) = Grade.B
  /\ Scored.grade (scoreCategories issues90) <> Exact.gradeOfZ 90.
Proof.
  assert (H : Scored.grade (scoreCategories issues90) = Grade.B)
    by (vm_compute; reflexivity).
  repeat split; try (vm_compute; reflexivity).
  rewrite H. discriminate.
Qed.

Lemma gradeOf_proper (q q' : Q) : (q == q')%Q -> Exact.gradeOf q = Exact.gradeOf q'.
Proof.
  intros Heq. unfold Exact.gradeOf.
  assert (H : forall x, Qle_bool x q = Qle_bool x q') by (intros x; now rewrite Heq).
  now rewrite !H.
Qed.

Lemma gradeOf_near_round (num : Z) :
  let q := num # 5824 in
  Exact.gradeOf q = Exact.gradeOfZ (Exact.round q)
  \/ Exact.gradeOf q = Exact.gradeOfZ (Exact.round q - 1).
Proof.
  intros q. subst q.
  unfold Exact.round, Exact.gradeOf, Exact.gradeOfZ, Qle_bool, Qplus, Qfloor.
  cbn [Qnum Qden].
  change (Z.pos (5824 * 2)) with 11648. change (Z.pos 5824) with 5824.
  change (Z.pos 2) with 2. change (Z.pos 1) with 1.
  pose proof (Z.div_mod (num * 2 + 1 * 5824) 11648 ltac:(lia)) as Hd.
  pose proof (Z.mod_pos_bound (num * 2 + 1 * 5824) 11648 ltac:(lia)) as Hm.
  set (n := (num * 2 + 1 * 5824) / 11648) in *.
  repeat match goal with
         | |- context [Z.leb ?a ?b] => destruct (Z.leb_spec a b)
         end; try (left; reflexivity); try (right; reflexivity); exfalso; lia.
Qed.

Lemma Z2F_small_injective :
  forallb (fun n => forallb (fun m =>
    implb (PrimFloat.Leibniz.eqb (Z2F n) (Z2F m)) (n =? m)) [89; 90]) (upTo 100) = true.
Proof. vm_compute. reflexivity. Qed.

Lemma Z2F_small (n m : Z) : 0 <= n <= 100 -> In m [89; 90] -> Z2F n = Z2F m -> n = m.
Proof.
  intros Hn Hm Heq. pose proof Z2F_small_injective as H.
  rewrite forallb_forall in H. specialize (H n (upTo_complete 100 n Hn)).
  rewrite forallb_forall in H. specialize (H m Hm).
  apply Leibniz.eqb_spec in Heq. rewrite Heq in H. simpl in H. lia.
Qed.

(** C2, amended.  The grade is the one the thresholds (90 A, 80 B, 70 C,
    60 D, else F) give to the unrounded overall score; the returned overall
    is that score rounded, so the grade is the one of the returned overall
    or of the integer just below it: a returned 89 always comes with B, a
    returned 90 with A or B. *)
Theorem grade_from_unrounded_overall (issues : list Issue.t) :
  let r := scoreCategories issues in
  let n := Exact.round (Exact.overall issues) in
  Scored.grade r = Exact.gradeOf (Exact.overall issues)
  /\ Scored.overall r = Z2F n
  /\ (Scored.grade r = Exact.gradeOfZ n \/ Scored.grade r = Exact.gradeOfZ (n - 1))
  /\ (Scored.overall r = 89%float -> Scored.grade r = Grade.B)
  /\ (Scored.overall r = 90%float ->
      Scored.grade r = Grade.A \/ Scored.grade r = Grade.B).
Proof.
  intros r n.
  destruct (scoreCategories_shape issues) as (Hshape & B1 & B2 & B3 & B4).
  cbv zeta in Hshape.
  destruct (overallCheck_sound _ _ _ _ B1 B2 B3 B4) as [Hr Hg].
  pose proof (overall_doubled issues) as Hq. cbv zeta in Hq.
  set (num := overallNum _ _ _ _) in *.
  assert (Hgrade : Scored.grade r = Exact.gradeOf (Exact.overall issues)).
  { subst r. rewrite Hshape. cbn [Scored.grade]. rewrite Hg.
    apply gradeOf_proper. now symmetry. }
  assert (Hover : Scored.overall r = Z2F n).
  { subst r n. rewrite Hshape. cbn [Scored.overall]. rewrite Hr.
    f_equal. apply round_proper. now symmetry. }
  assert (Hn : n = Exact.round (num # 5824)) by (apply round_proper, Hq).
  assert (Hnear : Scored.grade r = Exact.gradeOfZ n
                  \/ Scored.grade r = Exact.gradeOfZ (n - 1)).
  { rewrite Hgrade, (gradeOf_proper _ _ Hq), Hn. apply gradeOf_near_round. }
  assert (Hrange : 0 <= n <= 100).
  { rewrite Hn. unfold Exact.round, Qplus, Qfloor. cbn [Qnum Qden].
    assert (0 <= num <= 582400) by (subst num; unfold overallNum; lia).
    change (Z.pos (5824 * 2)) with 11648. clearbody num.
    split; [apply Z.div_pos; lia|].
    enough ((num * 2 + 1 * 5824) / 11648 < 101) by lia.
    apply Z.div_lt_upper_bound; lia. }
  repeat split; try assumption.
  - intros H89. rewrite Hover in H89.
    apply (Z2F_small n 89 Hrange) in H89; [|simpl; tauto].
    rewrite H89 in Hnear. destruct Hnear as [H|H]; exact H.
  - intros H90. rewrite Hover in H90.
    apply (Z2F_small n 90 Hrange) in H90; [|simpl; tauto].
    rewrite H90 in Hnear. destruct Hnear as [H|H]; [left|right]; exact H.
Qed.

(** ** Scoring: a change of one status stays in its category *)

Lemma statusIn_insert_same (m1 m2 : gmap jsstring Issue.t) (i : Issue.t) (k : jsstring) :
  statusIn m1 k = statusIn m2 k ->
  statusIn (<[Issue.id i := i]> m1) k = statusIn (<[Issue.id i := i]> m2) k.
Proof.
  intros H. unfold statusIn in *.
  destruct (decide (Issue.id i = k)) as [->|Hne].
  - now rewrite !lookup_insert_eq.
  - now rewrite !lookup_insert_ne.
Qed.

Lemma byId_frame (x : jsstring) (l1 l2 : list Issue.t) :
  differOnlyAt x l1 l2 ->
  forall m1 m2 k, k <> x ->
    statusIn m1 k = statusIn m2 k ->
    statusIn (foldl (fun m i => <[Issue.id i := i]> m) m1 l1) k
    = statusIn (foldl (fun m i => <[Issue.id i := i]> m) m2 l2) k.
Proof.
  induction 1 as [|i j l1 l2 Hij _ IH]; intros m1 m2 k Hk Hm; [exact Hm|].
  simpl. apply IH; [exact Hk|].
  destruct Hij as [<-|[Hid ->]].
  - now apply statusIn_insert_same.
  - cbn [withStatus Issue.id]. unfold statusIn.
    rewrite !lookup_insert_ne by congruence. exact Hm.
Qed.

Lemma statusOf_frame (x : jsstring) (l1 l2 : list Issue.t) (k : jsstring) :
  differOnlyAt x l1 l2 -> k <> x -> statusOf l1 k = statusOf l2 k.
Proof.
  intros Hd Hk. apply (byId_frame x l1 l2 Hd ∅ ∅ k Hk). reflexivity.
Qed.

Lemma rawScore_ext (st1 st2 : jsstring -> Status) (es : list (jsstring * Z)) :
  (forall e, In e es -> st1 (fst e) = st2 (fst e)) ->
  rawScore st1 es = rawScore st2 es.
Proof.
  unfold rawScore. generalize 0%float as acc.
  induction es as [|e es IH]; intros acc Hext; [reflexivity|].
  simpl. rewrite (Hext e) by now left.
  apply IH. intros e' He'. apply Hext. now right.
Qed.

Lemma scoreEntry_ext (st1 st2 : jsstring -> Status) (cat : jsstring) :
  (forall k, In k (checksOf cat) -> st1 k = st2 k) ->
  scoreEntry st1 cat = scoreEntry st2 cat.
Proof.
  intros Hext.
  assert (Hp : pctOf st1 cat = pctOf st2 cat).
  { unfold pctOf. f_equal. f_equal. apply rawScore_ext.
    intros e He. apply Hext. unfold checksOf. now apply in_map. }
  unfold scoreEntry, weightedOf. now rewrite Hp.
Qed.

Lemma categories_of_score (issues : list Issue.t) :
  Scored.categories (scoreCategories issues)
  = List.map (scoreEntry (statusOf issues)) categories.
Proof. reflexivity. Qed.

Lemma mapsCheck_false (cat x k : jsstring) :
  mapsCheck cat x = false -> In k (checksOf cat) -> k <> x.
Proof.
  unfold mapsCheck. intros Hf Hin ->.
  assert (existsb (str_eqb x) (checksOf cat) = true); [|congruence].
  apply existsb_exists. exists x. split; [exact Hin|].
  unfold str_eqb. now apply bool_decide_eq_true.
Qed.

Lemma owners_unique :
  forallb (fun x =>
    (List.length (List.filter (fun cat => mapsCheck cat x) categories) <=? 1)%nat)
    allChecks = true.
Proof. vm_compute. reflexivity. Qed.

Lemma one_owner (x : jsstring) :
  (List.length (List.filter (fun cat => mapsCheck cat x) categories) <= 1)%nat.
Proof.
  destruct (existsb (str_eqb x) allChecks) eqn:Hx.
  - apply existsb_exists in Hx as (y & Hy & Heq).
    unfold str_eqb in Heq. apply bool_decide_eq_true in Heq. subst y.
    pose proof owners_unique as H. rewrite forallb_forall in H.
    specialize (H x Hy). now apply Nat.leb_le in H.
  - assert (Hnone : forall cat, In cat categories -> mapsCheck cat x = false).
    { intros cat Hcat. destruct (mapsCheck cat x) eqn:Hm; [|reflexivity].
      unfold mapsCheck in Hm. apply existsb_exists in Hm as (y & Hy & Heq).
      assert (existsb (str_eqb x) allChecks = true); [|congruence].
      apply existsb_exists. exists y. split; [|exact Heq].
      unfold allChecks. apply in_flat_map. now exists cat. }
    induction categories as [|c cs IH]; simpl; [lia|].
    rewrite (Hnone c) by now left. apply IH.
    intros cat Hcat. apply Hnone. now right.
Qed.

(** C4.  When two issue lists differ only in the status of one check id,
    the two runs report the same categories in the same order, and every
    category whose weight map does not contain that id has the same score
    and the same weighted contribution in both; at most one category's map
    contains the id. *)
Theorem other_categories_unchanged (x : jsstring) (l1 l2 : list Issue.t) :
  differOnlyAt x l1 l2 ->
  Forall2
    (fun c1 c2 =>
       CategoryScore.id c1 = CategoryScore.id c2
       /\ (mapsCheck (CategoryScore.id c1) x = false -> c1 = c2))
    (Scored.categories (scoreCategories l1))
    (Scored.categories (scoreCategories l2))
  /\ (List.length (List.filter (fun cat => mapsCheck cat x) categories) <= 1)%nat.
Proof.
  intros Hd. split; [|apply one_owner].
  rewrite !categories_of_score.
  induction categories as [|cat cats IH]; simpl; constructor; [|exact IH].
  split; [reflexivity|]. cbn [scoreEntry CategoryScore.id].
  intros Hmaps. apply scoreEntry_ext.
  intros k Hk. apply (statusOf_frame x); [exact Hd|].
  now apply (mapsCheck_false cat).
Qed.

Lemma issues90_differ : differOnlyAt (lit "title_tag") issues90 issues90'.
Proof.
  unfold differOnlyAt, issues90', issues90. cbn [tl].
  constructor; [right; split; reflexivity|].
  repeat (constructor; [left; reflexivity|]). constructor.
Defined.

Lemma other_categories_unchanged_witness :
  Forall2
    (fun c1 c2 =>
       CategoryScore.id c1 = CategoryScore.id c2
       /\ (mapsCheck (CategoryScore.id c1) (lit "title_tag") = false -> c1 = c2))
    (Scored.categories (scoreCategories issues90))
    (Scored.categories (scoreCategories issues90'))
  /\ (List.length
        (List.filter (fun cat => mapsCheck cat (lit "title_tag")) categories) <= 1)%nat.
Proof.
  apply (other_categories_unchanged (lit "title_tag") issues90 issues90').
  exact issues90_differ.
Defined.

(** ** The issue evaluator *)

Lemma catalogue_NoDup : List.NoDup catalogue.
Proof. apply NoDup_ListNoDup, (bool_decide_unpack _). vm_compute. exact I. Qed.

Lemma evaluateHome_ids (h : Host) (html : jsstring) (headers : Headers)
  (url : jsstring) (issues : list Issue.t) :
  evaluateHome h html headers url = Ok issues ->
  List.map Issue.id issues = catalogue.
Proof.
  unfold evaluateHome. destruct (URL_new h url None) as [u|]; [|discriminate].
  intros [= <-]. reflexivity.
Qed.

(** C3.  For every markup, headers and URL (a string the URL parser
    accepts), the evaluator returns a list of issues whose ids are the 23
    ids of the catalogue, each exactly once, in the catalogue's order. *)
Theorem evaluateHome_catalogue (h : Host) (html : jsstring) (headers : Headers)
  (url : jsstring) (u : URL.t) :
  URL_new h url None = Some u ->
  exists issues,
    evaluateHome h html headers url = Ok issues
    /\ List.map Issue.id issues = catalogue
    /\ List.NoDup catalogue /\ List.length catalogue = 23%nat.
Proof.
  intros Hu. unfold evaluateHome. rewrite Hu.
  eexists. split; [reflexivity|].
  split; [reflexivity|]. split; [exact catalogue_NoDup|reflexivity].
Qed.

Lemma evaluateHome_catalogue_witness :
  exists issues,
    evaluateHome SmallHost.host (lit "<title>Hello</title><img src='a.png'>")
      SmallHost.noHeaders (lit "https://example.com/") = Ok issues
    /\ List.map Issue.id issues = catalogue
    /\ List.NoDup catalogue /\ List.length catalogue = 23%nat.
Proof.
  eapply (evaluateHome_catalogue SmallHost.host). vm_compute. reflexivity.
Defined.

(** The evaluator returns nothing when the page URL does not parse. *)
Lemma evaluateHome_throws (h : Host) (html : jsstring) (headers : Headers)
  (url : jsstring) :
  URL_new h url None = None ->
  evaluateHome h html headers url = Throw (InvalidURL url).
Proof. intros Hu. unfold evaluateHome. now rewrite Hu. Qed.

Lemma foldl_insert_other (l : list Issue.t) (m : gmap jsstring Issue.t) (k : jsstring) :
  ~ In k (List.map Issue.id l) ->
  foldl (fun m i => <[Issue.id i := i]> m) m l !! k = m !! k.
Proof.
  revert m. induction l as [|j l IH]; intros m Hk; [reflexivity|].
  simpl in *. rewrite IH by tauto. apply lookup_insert_ne. tauto.
Qed.

Lemma byId_lookup (l : list Issue.t) (i : Issue.t) :
  List.NoDup (List.map Issue.id l) -> In i l -> byId l !! Issue.id i = Some i.
Proof.
  unfold byId. generalize (∅ : gmap jsstring Issue.t) as m.
  induction l as [|j l IH]; intros m Hnd Hin; [destruct Hin|].
  simpl in Hnd. apply List.NoDup_cons_iff in Hnd as [Hj Hnd].
  destruct Hin as [->|Hin]; simpl.
  - rewrite foldl_insert_other by exact Hj. apply lookup_insert_eq.
  - now apply IH.
Qed.

Lemma ratio_none (k : nat) (dflt : float) : ratio k 0 dflt = dflt.
Proof. reflexivity. Qed.

(** C10.  On a page whose markup has no img tag, the three image checks
    take their defaults: image_alt passes with a missing-alt ratio of 0,
    image_filename passes with a descriptive ratio of 1, and image_lazy
    fails with a lazy ratio of 0. *)
Theorem no_images_defaults (h : Host) (html : jsstring) (headers : Headers)
  (url : jsstring) (issues : list Issue.t) :
  imgTags html = [] ->
  evaluateHome h html headers url = Ok issues ->
  outcomeOf <$> byId issues !! lit "image_alt"
  = Some (pass, obj [field "missingRatio" (JNum 0)])
  /\ outcomeOf <$> byId issues !! lit "image_filename"
     = Some (pass, obj [field "descriptiveRatio" (JNum 1)])
  /\ outcomeOf <$> byId issues !! lit "image_lazy"
     = Some (fail, obj [field "lazyRatio" (JNum 0)]).
Proof.
  intros Himg Heval.
  pose proof (evaluateHome_ids _ _ _ _ _ Heval) as Hids.
  assert (Hnd : List.NoDup (List.map Issue.id issues))
    by (rewrite Hids; exact catalogue_NoDup).
  unfold evaluateHome in Heval.
  destruct (URL_new h url None) as [u|]; [|discriminate].
  injection Heval as <-.
  repeat split.
  - change (lit "image_alt") with (Issue.id (imageAltIssue html url)).
    rewrite byId_lookup; [|exact Hnd|simpl; tauto].
    unfold imageAltIssue, outcomeOf. rewrite Himg. reflexivity.
  - change (lit "image_filename") with (Issue.id (imageFilenameIssue html url)).
    rewrite byId_lookup; [|exact Hnd|simpl; tauto].
    unfold imageFilenameIssue, outcomeOf. rewrite Himg. reflexivity.
  - change (lit "image_lazy") with (Issue.id (imageLazyIssue html url)).
    rewrite byId_lookup; [|exact Hnd|simpl; tauto].
    unfold imageLazyIssue, outcomeOf. rewrite Himg. reflexivity.
Qed.

Lemma no_images_defaults_witness :
  exists issues,
    evaluateHome SmallHost.host (lit "<h1>No pictures here</h1>") SmallHost.noHeaders
      (lit "https://example.com/") = Ok issues
    /\ outcomeOf <$> byId issues !! lit "image_alt"
       = Some (pass, obj [field "missingRatio" (JNum 0)])
    /\ outcomeOf <$> byId issues !! lit "image_filename"
       = Some (pass, obj [field "descriptiveRatio" (JNum 1)])
    /\ outcomeOf <$> byId issues !! lit "image_lazy"
       = Some (fail, obj [field "lazyRatio" (JNum 0)]).
Proof.
  eexists. split; [reflexivity|].
  apply (no_images_defaults SmallHost.host (lit "<h1>No pictures here</h1>")
           SmallHost.noHeaders (lit "https://example.com/"));
    [vm_compute; reflexivity|reflexivity].
Defined.

(** ** The handler and the origin normaliser *)

Section HandlerFacts.
Variable AuditResult : Type.
Variable auditOne : jsstring -> JSON -> option jsstring -> completion AuditResult.
Variable PSI_KEY : option jsstring.
Variable N8N : option jsstring.
Variable earliest : list exn -> nat.

(** C5, amended.  When the origin list is empty after normalisation and
    deduplication (as for an empty input array), no audit runs and the
    request succeeds: status 200 with an empty list of results.  The
    webhook receives the empty list when its URL is set and is not the
    empty string, and nothing is sent otherwise. *)
Theorem empty_batch_succeeds (h : Host) (body : Request.body)
  (origins : list jsstring) :
  originList h (Request.url body) = Ok origins ->
  dedup origins = [] ->
  POST AuditResult auditOne PSI_KEY N8N earliest h (Ok body)
  = {| response := {| status := 200; json := Batch AuditResult [] |};
       webhook := match N8N with
                  | Some (c :: url) => Some (c :: url, [])
                  | Some [] | None => None
                  end |}.
Proof.
  intros Hlist Hdedup. unfold POST, webhookUrl. rewrite Hlist, Hdedup.
  cbn [promiseAll mapM]. f_equal. now destruct N8N as [[|c url]|].
Qed.
End HandlerFacts.

Lemma empty_batch_succeeds_witness :
  POST unit (fun _ _ _ => Ok tt) None (Some (lit "https://hooks.example/n8n"))
    (fun _ => 0%nat) SmallHost.host
    (Ok {| Request.url := UrlArray []; Request.options := None |})
  = {| response := {| status := 200; json := Batch unit [] |};
       webhook := Some (lit "https://hooks.example/n8n", []) |}.
Proof.
  apply (empty_batch_succeeds unit (fun _ _ _ => Ok tt) None
           (Some (lit "https://hooks.example/n8n")) (fun _ => 0%nat) SmallHost.host
           {| Request.url := UrlArray []; Request.options := None |} []);
    reflexivity.
Defined.

(** C5, as stated, fails: an empty input array is answered with status 200
    and an empty list, not with an error. *)
Lemma empty_batch_is_not_an_error :
  let out := POST unit (fun _ _ _ => Ok tt) None None (fun _ => 0%nat) SmallHost.host
               (Ok {| Request.url := UrlArray []; Request.options := None |}) in
  originList SmallHost.host (UrlArray []) = Ok []
  /\ dedup [] = []
  /\ status unit (response unit out) = 200
  /\ json unit (response unit out) = Batch unit [].
Proof. repeat split. Qed.

(** A string that does not start with http is parsed with https:// in
    front of it. *)
Lemma normaliseOrigin_prefixed (h : Host) (input : jsstring) :
  Str.startsWith (lit "http") input = false ->
  withScheme input = lit "https://" ++ input
  /\ normaliseOrigin h input = normaliseOrigin h (lit "https://" ++ input).
Proof.
  intros Hs. unfold normaliseOrigin, withScheme. rewrite Hs.
  split; reflexivity.
Qed.

(** A string that starts with http is parsed as it is. *)
Lemma normaliseOrigin_unprefixed (h : Host) (input : jsstring) :
  Str.startsWith (lit "http") input = true ->
  withScheme input = input.
Proof. intros Hs. unfold withScheme. now rewrite Hs. Qed.

(** The result depends on the input only through the origin of the parsed
    URL: path and query play no part. *)
Lemma normaliseOrigin_origin (h : Host) (a b : jsstring) (ua ub : URL.t) :
  URL_new h (withScheme a) None = Some ua ->
  URL_new h (withScheme b) None = Some ub ->
  URL.origin ua = URL.origin ub ->
  normaliseOrigin h a = normaliseOrigin h b.
Proof.
  intros Ha Hb Ho. unfold normaliseOrigin. now rewrite Ha, Hb, Ho.
Qed.

(** A string the URL parser rejects makes the normaliser throw. *)
Lemma normaliseOrigin_unparsable (h : Host) (input : jsstring) :
  URL_new h (withScheme input) None = None ->
  normaliseOrigin h input = Throw (InvalidURL (withScheme input)).
Proof. intros Hu. unfold normaliseOrigin. now rewrite Hu. Qed.

(** C6 at httpbin.org: the string has no scheme, yet it starts with http,
    so the parser receives it without https:// and rejects it; with the
    prefix it would have been normalised. *)
Theorem normaliseOrigin_httpbin :
  hasScheme (lit "httpbin.org") = false
  /\ withScheme (lit "httpbin.org") = lit "httpbin.org"
  /\ (forall h : Host,
        normaliseOrigin h (lit "httpbin.org")
        = match URL_new h (lit "httpbin.org") None with
          | None => Throw (InvalidURL (lit "httpbin.org"))
          | Some u =>
              match URL_new h (URL.origin u) None with
              | None => Throw (InvalidURL (URL.origin u))
              | Some o => Ok (URL.href o)
              end
          end)
  /\ normaliseOrigin SmallHost.host (lit "httpbin.org")
     = Throw (InvalidURL (lit "httpbin.org"))
  /\ normaliseOrigin SmallHost.host (lit "https://httpbin.org")
     = Ok (lit "https://httpbin.org/").
Proof.
  split; [reflexivity|]. split; [reflexivity|]. split; [intros h; reflexivity|].
  split; vm_compute; reflexivity.
Qed.

(** ** JSON-LD extraction and contact discovery *)

(** C7 at the page of the specification's example: the e-mail pattern asks
    for a literal dot in the domain, so the obfuscated address is not
    matched and the page yields no contact at all. *)
Theorem discoverContacts_jane (h : Host) :
  Str.includes (lit "jane [at] example [dot] com") (bodyText (snd janePage)) = true
  /\ matchAll EMAIL_RE (bodyText (snd janePage)) = []
  /\ discoverContacts h [janePage]
     = Ok {| Discovery.contacts := []; Discovery.best := None |}.
Proof.
  split; [vm_compute; reflexivity|]. split; [vm_compute; reflexivity|].
  assert (Hc : pageContacts h janePage = Ok []).
  { unfold pageContacts, janePage. unfold extractJsonLd.
    replace (matchAll linkRe _) with (@nil result) by (vm_compute; reflexivity).
    replace (matchAll jsonLdRe _) with (@nil result) by (vm_compute; reflexivity).
    replace (matchAll EMAIL_RE _) with (@nil result) by (vm_compute; reflexivity).
    replace (matchAll PHONE_RE _) with (@nil result) by (vm_compute; reflexivity).
    reflexivity. }
  unfold discoverContacts. cbn [flatMapM]. rewrite Hc. reflexivity.
Qed.

(** The helper does undo the obfuscation when it is given the text. *)
Lemma deobfuscateEmail_jane :
  deobfuscateEmail (lit "jane [at] example [dot] com") = lit "jane@example.com".
Proof. vm_compute. reflexivity. Qed.

(** With a literal dot the address is found. *)
Lemma discoverContacts_jane_dotted (h : Host) :
  exists best,
    discoverContacts h [(lit "https://example.com/", lit "jane [at] example.com")]
    = Ok {| Discovery.contacts :=
              [mkContact (lit "email") (lit "jane@example.com")
                 (lit "https://example.com/") None 0.6];
            Discovery.best := best |}.
Proof.
  assert (Hc : pageContacts h (lit "https://example.com/", lit "jane [at] example.com")
               = Ok [mkContact (lit "email") (lit "jane@example.com")
                       (lit "https://example.com/") None 0.6]).
  { unfold pageContacts, extractJsonLd.
    replace (matchAll linkRe _) with (@nil result) by (vm_compute; reflexivity).
    replace (matchAll jsonLdRe _) with (@nil result) by (vm_compute; reflexivity).
    replace (matchAll PHONE_RE _) with (@nil result) by (vm_compute; reflexivity).
    vm_compute. reflexivity. }
  unfold discoverContacts. cbn [flatMapM]. rewrite Hc. cbn [andThen app].
  eexists. reflexivity.
Qed.



(** ** The best contact *)

Section SortHead.
Context {T : Type} (cmp : T -> T -> float).

Lemma insertSorted_head (x : T) (sorted : list T) :
  hd_error (insertSorted cmp x sorted)
  = match hd_error sorted with
    | None => Some x
    | Some y => if PrimFloat.ltb 0 (cmp x y) then Some y else Some x
    end.
Proof.
  destruct sorted as [|y rest]; [reflexivity|].
  simpl. now destruct (PrimFloat.ltb 0 (cmp x y)).
Qed.
End SortHead.

Lemma pickBest_firstHighest (out : list Contact.t) :
  pickBest out = firstHighest (List.filter isReachable out).
Proof.
  unfold pickBest. generalize (List.filter isReachable out) as l.
  induction l as [|x l IH]; [reflexivity|].
  cbn [sort fold_right firstHighest].
  rewrite insertSorted_head. fold (sort (fun a b : Contact.t =>
    PrimFloat.sub (Contact.confidence b) (Contact.confidence a)) l).
  rewrite IH. reflexivity.
Qed.

(** On the confidences discovery assigns, the sign of a difference is the
    comparison, and the comparison is a total order. *)
Lemma levels_order :
  forallb (fun a => forallb (fun b =>
    Bool.eqb (PrimFloat.ltb 0 (PrimFloat.sub b a)) (PrimFloat.ltb a b)
    && (PrimFloat.ltb a b || PrimFloat.leb b a)
    && forallb (fun c =>
         implb (PrimFloat.leb a b && PrimFloat.leb b c) (PrimFloat.leb a c)
         && implb (PrimFloat.ltb a b && PrimFloat.leb b c) (PrimFloat.leb a c))
         levels) levels) levels = true.
Proof. vm_compute. reflexivity. Qed.

Lemma levels_facts (a b : float) :
  In a levels -> In b levels ->
  PrimFloat.ltb 0 (PrimFloat.sub b a) = PrimFloat.ltb a b
  /\ (PrimFloat.ltb a b = false -> PrimFloat.leb b a = true)
  /\ (forall c, In c levels ->
        (PrimFloat.leb a b = true -> PrimFloat.leb b c = true -> PrimFloat.leb a c = true)
        /\ (PrimFloat.ltb a b = true -> PrimFloat.leb b c = true -> PrimFloat.leb a c = true)).
Proof.
  intros Ha Hb. pose proof levels_order as H.
  rewrite forallb_forall in H. specialize (H a Ha).
  rewrite forallb_forall in H. specialize (H b Hb).
  apply andb_prop in H as [H Htrans]. apply andb_prop in H as [Hsign Htotal].
  split; [now apply Bool.eqb_prop|]. split.
  - intros Hlt. rewrite Hlt in Htotal. exact Htotal.
  - intros c Hc. rewrite forallb_forall in Htrans. specialize (Htrans c Hc).
    apply andb_prop in Htrans as [H1 H2].
    split; intros Hab Hbc; rewrite Hab, Hbc in *; assumption.
Qed.

Lemma firstHighest_spec (l : list Contact.t) :
  Forall graded l ->
  match firstHighest l with
  | None => l = []
  | Some b =>
      exists before after,
        l = before ++ b :: after
        /\ Forall (fun c => PrimFloat.ltb (Contact.confidence c) (Contact.confidence b) = true)
             before
        /\ Forall (fun c => PrimFloat.leb (Contact.confidence c) (Contact.confidence b) = true)
             after
  end.
Proof.
  induction 1 as [|x l Hx Hl IH]; [reflexivity|].
  cbn [firstHighest]. destruct (firstHighest l) as [m|].
  - destruct IH as (before & after & -> & Hbefore & Hafter).
    assert (Hm : graded m).
    { rewrite List.Forall_forall in Hl. apply Hl, in_elt. }
    destruct (levels_facts _ _ Hx Hm) as (Hsign & Htotal & Htrans).
    rewrite Hsign.
    destruct (PrimFloat.ltb (Contact.confidence x) (Contact.confidence m)) eqn:Hlt.
    + exists (x :: before), after. split; [reflexivity|].
      split; [constructor; assumption|assumption].
    + exists [], (before ++ m :: after). split; [reflexivity|].
      split; [constructor|].
      specialize (Htotal eq_refl).
      rewrite List.Forall_forall in Hl, Hbefore, Hafter. apply List.Forall_forall.
      intros c Hc. pose proof (Hl c Hc) as Hgc.
      destruct (levels_facts _ _ Hgc Hm) as (_ & _ & Hcm).
      specialize (Hcm _ Hx) as [Hle Hlt'].
      apply in_app_or in Hc as [Hc|[<-|Hc]].
      * apply Hlt'; [now apply Hbefore|exact Htotal].
      * exact Htotal.
      * apply Hle; [now apply Hafter|exact Htotal].
  - subst l. exists [], []. repeat split; constructor.
Qed.

Lemma when_graded (b : bool) (c : Contact.t) :
  graded c -> Forall graded (when b c).
Proof.
  intros Hc. destruct b; [constructor; [exact Hc|constructor]|constructor].
Qed.

Lemma mkContact_graded (t v u : jsstring) (x : option JSON) (p : float) :
  In p levels -> graded (mkContact t v u x p).
Proof. intros Hp. exact Hp. Qed.

Ltac level := apply mkContact_graded; simpl; tauto.

(** What holds of the pushes of every turn holds of all the pushes. *)
Lemma flatMapM_Forall {T U : Type} (P : U -> Prop) (f : T -> completion (list U))
  (l : list T) (zs : list U) :
  (forall x ys, In x l -> f x = Ok ys -> Forall P ys) ->
  flatMapM f l = Ok zs -> Forall P zs.
Proof.
  revert zs. induction l as [|x l IH]; intros zs Hf; cbn [flatMapM].
  - intros [= <-]. constructor.
  - destruct (f x) as [ys|] eqn:Hx; [|discriminate]. cbn [andThen].
    destruct (flatMapM f l) as [zs'|]; [|discriminate]. cbn [andThen].
    intros [= <-]. apply Forall_app_2.
    + apply (Hf x ys); [now left|exact Hx].
    + apply IH; [|reflexivity]. intros x' ys' Hin. apply Hf. now right.
Qed.

Lemma contactPointContacts_graded (h : Host) (url : jsstring) (c : JSON)
  (cs : list Contact.t) :
  contactPointContacts h url c = Ok cs -> Forall graded cs.
Proof.
  unfold contactPointContacts. intros H.
  destruct (jsGet c (lit "email")) as [email|];
    [destruct (truthy email); [destruct (JS_String h email); [|discriminate H]|]|];
    cbn [andThen] in H;
    (destruct (jsGet c (lit "telephone")) as [telephone|];
     [destruct (truthy telephone);
      [destruct (JS_String h telephone); [|discriminate H]|]|]);
    cbn [andThen] in H; injection H as <-;
    repeat (constructor; [level|]); constructor.
Qed.

Lemma itemContacts_graded (h : Host) (url : jsstring) (item : JSON)
  (cs : list Contact.t) :
  itemContacts h url item = Ok cs -> Forall graded cs.
Proof.
  unfold itemContacts.
  destruct (isOrganization item); [|intros [= <-]; constructor].
  destruct (jsGet item (lit "contactPoint")) as [cp|]; [|intros [= <-]; constructor].
  destruct (truthy cp); [|intros [= <-]; constructor].
  apply flatMapM_Forall. intros c ys _. apply contactPointContacts_graded.
Qed.

Lemma pageContacts_graded (h : Host) (page : jsstring * jsstring)
  (cs : list Contact.t) :
  pageContacts h page = Ok cs -> Forall graded cs.
Proof.
  destruct page as [url html]. unfold pageContacts.
  destruct (flatMapM (itemContacts h url) (extractJsonLd h html)) as [found|] eqn:Hf;
    [|discriminate]. cbn [andThen]. intros [= <-].
  repeat apply Forall_app_2.
  - apply Forall_flat_map, List.Forall_forall. intros m _. unfold linkContacts.
    repeat apply Forall_app_2; apply when_graded; level.
  - apply Forall_map, List.Forall_forall. intros m _. unfold emailContact. level.
  - apply Forall_map, List.Forall_forall. intros m _. unfold phoneContact. level.
  - apply (flatMapM_Forall graded (itemContacts h url) (extractJsonLd h html));
      [|exact Hf].
    intros item ys _. apply itemContacts_graded.
Qed.

Lemma discovered_graded (h : Host) (pages : list (jsstring * jsstring))
  (r : Discovery.t) :
  discoverContacts h pages = Ok r -> Forall graded (Discovery.contacts r).
Proof.
  unfold discoverContacts.
  destruct (flatMapM (pageContacts h) pages) as [out|] eqn:Hout; [|discriminate].
  cbn [andThen]. intros [= <-]. cbn [Discovery.contacts].
  apply (flatMapM_Forall graded (pageContacts h) pages); [|exact Hout].
  intros page ys _. apply pageContacts_graded.
Qed.

Lemma discovered_best (h : Host) (pages : list (jsstring * jsstring))
  (r : Discovery.t) :
  discoverContacts h pages = Ok r ->
  Discovery.best r = pickBest (Discovery.contacts r).
Proof.
  unfold discoverContacts.
  destruct (flatMapM (pageContacts h) pages) as [out|]; [|discriminate].
  cbn [andThen]. now intros [= <-].
Qed.

Lemma filter_split {T : Type} (p : T -> bool) (l l1 l2 : list T) (b : T) :
  List.filter p l = l1 ++ b :: l2 ->
  exists k1 k2, l = k1 ++ b :: k2 /\ List.filter p k1 = l1 /\ List.filter p k2 = l2.
Proof.
  revert l1. induction l as [|x l IH]; intros l1 H.
  - destruct l1; discriminate H.
  - cbn [List.filter] in H. destruct (p x) eqn:Hx.
    + destruct l1 as [|y l1]; cbn [app] in H; injection H as Hxy Hrest.
      * subst x. exists [], l. now split.
      * subst y. destruct (IH l1 Hrest) as (k1 & k2 & -> & H1 & H2).
        exists (x :: k1), k2. split; [reflexivity|]. split; [|exact H2].
        cbn [List.filter]. now rewrite Hx, H1.
    + destruct (IH l1 H) as (k1 & k2 & -> & H1 & H2).
      exists (x :: k1), k2. split; [reflexivity|]. split; [|exact H2].
      cbn [List.filter]. now rewrite Hx.
Qed.

Lemma isReachable_spec (c : Contact.t) :
  isReachable c = true <-> Spec.emailOrCalendly c.
Proof.
  unfold isReachable, Spec.emailOrCalendly, str_eqb.
  rewrite orb_true_iff, !bool_decide_eq_true. reflexivity.
Qed.

(** C9.  For the contacts discovered on any pages, the best contact is
    null exactly when no contact has type email or calendly; otherwise it
    has one of these two types and is, among the contacts of these types,
    the first of highest confidence: every such contact before it has a
    strictly lower confidence and none after it has a higher one.  An
    e-mail at 0.6 and a Calendly link at 0.85 give the Calendly link, in
    either order; a phone number at 0.8 is passed over for an e-mail at
    0.6, and alone it gives no best contact. *)
Theorem best_is_first_highest (h : Host) (pages : list (jsstring * jsstring))
  (r : Discovery.t) :
  discoverContacts h pages = Ok r ->
  match Discovery.best r with
  | None => Forall (fun c => ~ Spec.emailOrCalendly c) (Discovery.contacts r)
  | Some b =>
      Spec.emailOrCalendly b
      /\ exists before after,
           Discovery.contacts r = before ++ b :: after
           /\ Forall (fun c => Spec.emailOrCalendly c ->
                               PrimFloat.ltb (Contact.confidence c) (Contact.confidence b)
                               = true) before
           /\ Forall (fun c => Spec.emailOrCalendly c ->
                               PrimFloat.leb (Contact.confidence c) (Contact.confidence b)
                               = true) after
  end
  /\ forall (v1 u1 v2 u2 v3 u3 : jsstring) (x1 x2 x3 : option JSON),
       let e := mkContact (lit "email") v1 u1 x1 0.6 in
       let c := mkContact (lit "calendly") v2 u2 x2 0.85 in
       let p := mkContact (lit "phone") v3 u3 x3 0.8 in
       pickBest [e; c] = Some c /\ pickBest [c; e] = Some c
       /\ pickBest [p; e] = Some e /\ pickBest [e; p] = Some e /\ pickBest [p] = None.
Proof.
  intros Hr. split; [|intros; repeat split; reflexivity].
  rewrite (discovered_best h pages r Hr), pickBest_firstHighest.
  pose proof (discovered_graded h pages r Hr) as Hg.
  assert (Hgf : Forall graded (List.filter isReachable (Discovery.contacts r))).
  { rewrite List.Forall_forall in *. intros c Hc. apply Hg.
    apply filter_In in Hc. tauto. }
  pose proof (firstHighest_spec _ Hgf) as Hspec.
  destruct (firstHighest (List.filter isReachable (Discovery.contacts r))) as [b|].
  - destruct Hspec as (l1 & l2 & Hl & Hbefore & Hafter).
    assert (Hb : In b (List.filter isReachable (Discovery.contacts r)))
      by (rewrite Hl; apply in_elt).
    apply filter_In in Hb as [_ Hb]. split; [now apply isReachable_spec|].
    destruct (filter_split _ _ _ _ _ Hl) as (k1 & k2 & Hk & H1 & H2).
    exists k1, k2. split; [exact Hk|]. rewrite List.Forall_forall in Hbefore, Hafter.
    split; apply List.Forall_forall; intros c Hc Hw; apply isReachable_spec in Hw.
    + apply Hbefore. rewrite <- H1. now apply filter_In.
    + apply Hafter. rewrite <- H2. now apply filter_In.
  - apply List.Forall_forall. intros c Hc Hw. apply isReachable_spec in Hw.
    assert (Hin : In c (List.filter isReachable (Discovery.contacts r)))
      by now apply filter_In.
    rewrite Hspec in Hin. exact Hin.
Qed.

Lemma best_is_first_highest_witness :
  exists r,
    discoverContacts SmallHost.host [(lit "https://example.com/", twoLinks)] = Ok r
    /\ (match Discovery.best r with
        | None => Forall (fun c => ~ Spec.emailOrCalendly c) (Discovery.contacts r)
        | Some b =>
            Spec.emailOrCalendly b
            /\ exists before after,
                 Discovery.contacts r = before ++ b :: after
                 /\ Forall (fun c => Spec.emailOrCalendly c ->
                                     PrimFloat.ltb (Contact.confidence c)
                                       (Contact.confidence b) = true) before
                 /\ Forall (fun c => Spec.emailOrCalendly c ->
                                     PrimFloat.leb (Contact.confidence c)
                                       (Contact.confidence b) = true) after
        end
        /\ forall (v1 u1 v2 u2 v3 u3 : jsstring) (x1 x2 x3 : option JSON),
             let e := mkContact (lit "email") v1 u1 x1 0.6 in
             let c := mkContact (lit "calendly") v2 u2 x2 0.85 in
             let p := mkContact (lit "phone") v3 u3 x3 0.8 in
             pickBest [e; c] = Some c /\ pickBest [c; e] = Some c
             /\ pickBest [p; e] = Some e /\ pickBest [e; p] = Some e
             /\ pickBest [p] = None).
Proof.
  eexists. split; [vm_compute; reflexivity|].
  apply (best_is_first_highest SmallHost.host [(lit "https://example.com/", twoLinks)]).
  vm_compute. reflexivity.
Defined.

(* ================================================================== *)
(** * Further properties *)
(* ================================================================== *)

(** ** The scoring engine as a function of the statuses *)

Lemma scoreCategories_scoreWith (issues : list Issue.t) :
  scoreCategories issues = scoreWith (statusOf issues).
Proof. reflexivity. Qed.

Lemma scoreWith_unfold (st : jsstring -> Status) :
  scoreWith st
  = {| Scored.overall := Math_round (overallOf st);
       Scored.grade := gradeOf (overallOf st);
       Scored.categories := List.map (scoreEntry st) categories |}.
Proof. reflexivity. Qed.

Lemma checksOf_allChecks (cat k : jsstring) :
  In cat categories -> In k (checksOf cat) -> In k allChecks.
Proof.
  intros Hcat Hk. unfold allChecks. apply in_flat_map. now exists cat.
Qed.

Lemma weightedOf_ext (st1 st2 : jsstring -> Status) (cat : jsstring) :
  (forall k, In k (checksOf cat) -> st1 k = st2 k) ->
  weightedOf st1 cat = weightedOf st2 cat.
Proof.
  intros Hext. pose proof (scoreEntry_ext st1 st2 cat Hext) as H.
  unfold weightedOf.
  assert (Hp : pctOf st1 cat = pctOf st2 cat).
  { unfold pctOf. f_equal. f_equal. apply rawScore_ext.
    intros e He. apply Hext. unfold checksOf. now apply in_map. }
  now rewrite Hp.
Qed.

Lemma scoreWith_ext (st1 st2 : jsstring -> Status) :
  (forall k, In k allChecks -> st1 k = st2 k) -> scoreWith st1 = scoreWith st2.
Proof.
  intros Hext. rewrite !scoreWith_unfold.
  assert (Hcat : forall cat, In cat categories ->
                   forall k, In k (checksOf cat) -> st1 k = st2 k).
  { intros cat Hcat k Hk. apply Hext. now apply (checksOf_allChecks cat). }
  assert (Ho : overallOf st1 = overallOf st2).
  { unfold overallOf.
    rewrite (weightedOf_ext st1 st2 techCat), (weightedOf_ext st1 st2 onpageCat),
      (weightedOf_ext st1 st2 entityCat), (weightedOf_ext st1 st2 hygieneCat);
      [reflexivity|apply Hcat; rewrite categories_eq; simpl; tauto..]. }
  rewrite Ho. f_equal.
  apply map_ext_in. intros cat Hin. apply scoreEntry_ext. now apply Hcat.
Qed.

(** X1.  The result depends on the issue list only through the status the map
    holds for each check id of the weight tables: the other fields of an
    issue and the issues of other ids play no part. *)
Theorem score_depends_on_mapped_statuses (l1 l2 : list Issue.t) :
  Forall (fun id => statusOf l1 id = statusOf l2 id) allChecks ->
  scoreCategories l1 = scoreCategories l2.
Proof.
  intros H. rewrite !scoreCategories_scoreWith. apply scoreWith_ext.
  now apply List.Forall_forall.
Qed.

Lemma score_depends_on_mapped_statuses_witness :
  scoreCategories issues90
  = scoreCategories (bare "not_a_check" fail :: List.map relabelled issues90).
Proof.
  apply score_depends_on_mapped_statuses.
  repeat constructor.
Defined.

(** ** The map of issues *)

Lemma foldl_insert_lookup (l : list Issue.t) (m : gmap jsstring Issue.t) (k : jsstring) :
  foldl (fun m i => <[Issue.id i := i]> m) m l !! k
  = match byId l !! k with
    | Some i => Some i
    | None => m !! k
    end.
Proof.
  unfold byId. revert m. induction l as [|j l IH]; intros m; [reflexivity|].
  cbn [foldl]. rewrite (IH (<[Issue.id j := j]> m)), (IH (<[Issue.id j := j]> ∅)).
  destruct (foldl _ ∅ l !! k); [reflexivity|].
  destruct (decide (Issue.id j = k)) as [->|Hne].
  - now rewrite !lookup_insert_eq.
  - now rewrite !lookup_insert_ne.
Qed.

Lemma byId_sound (l : list Issue.t) (k : jsstring) (i : Issue.t) :
  byId l !! k = Some i -> Issue.id i = k /\ In i l.
Proof.
  induction l as [|j l IH] using rev_ind; [discriminate|].
  unfold byId. rewrite foldl_app. cbn [foldl]. fold (byId l).
  destruct (decide (Issue.id j = k)) as [<-|Hne].
  - rewrite lookup_insert_eq. intros [= <-]. split; [reflexivity|].
    apply in_or_app. right. now left.
  - rewrite lookup_insert_ne by exact Hne. intros H. apply IH in H as [Hid Hin].
    split; [exact Hid|]. apply in_or_app. now left.
Qed.

Lemma byId_complete (l : list Issue.t) (k : jsstring) :
  In k (List.map Issue.id l) -> exists i, byId l !! k = Some i.
Proof.
  induction l as [|j l IH] using rev_ind; [intros []|].
  rewrite List.map_app. intros Hin. unfold byId. rewrite foldl_app. cbn [foldl].
  fold (byId l).
  destruct (decide (Issue.id j = k)) as [<-|Hne].
  - exists j. apply lookup_insert_eq.
  - rewrite lookup_insert_ne by exact Hne. apply IH.
    apply in_app_or in Hin as [Hin|[Hin|[]]]; [exact Hin|contradiction].
Qed.

Lemma statusOf_app (l1 l2 : list Issue.t) (k : jsstring) :
  statusOf (l1 ++ l2) k
  = match byId l2 !! k with
    | Some i => Issue.status i
    | None => statusOf l1 k
    end.
Proof.
  unfold statusOf, byId at 1. rewrite foldl_app. fold (byId l1).
  rewrite foldl_insert_lookup. now destruct (byId l2 !! k).
Qed.

(** X2.  When an id occurs several times the last issue decides, as in the Map
    constructor: issues appended to a list replace the earlier issues of
    their ids, so a list that covers every weighted check makes whatever
    precedes it irrelevant. *)
Theorem later_issues_override (l1 l2 : list Issue.t) :
  incl allChecks (List.map Issue.id l2) ->
  (forall i, statusOf (l1 ++ [i]) (Issue.id i) = Issue.status i)
  /\ scoreCategories (l1 ++ l2) = scoreCategories l2.
Proof.
  intros Hcover. split.
  - intros i. rewrite statusOf_app. unfold byId. cbn [foldl].
    now rewrite lookup_insert_eq.
  - rewrite !scoreCategories_scoreWith. apply scoreWith_ext.
    intros k Hk. rewrite statusOf_app.
    destruct (byId_complete l2 k (Hcover k Hk)) as [i Hi].
    unfold statusOf. now rewrite Hi.
Qed.

Lemma later_issues_override_witness :
  (forall i, statusOf (issues90 ++ [i]) (Issue.id i) = Issue.status i)
  /\ scoreCategories (issues90 ++ issues90') = scoreCategories issues90'.
Proof.
  apply (later_issues_override issues90 issues90').
  intros k Hk. vm_compute in Hk. vm_compute.
  repeat (destruct Hk as [<-|Hk]; [tauto|]). destruct Hk.
Defined.

(** X3.  With distinct ids the order of the issues does not matter. *)
Theorem score_order_independent (l l' : list Issue.t) :
  List.NoDup (List.map Issue.id l) ->
  Permutation l l' ->
  scoreCategories l = scoreCategories l'.
Proof.
  intros Hnd Hperm.
  assert (Hnd' : List.NoDup (List.map Issue.id l')).
  { eapply Permutation_NoDup; [|exact Hnd]. now apply Permutation_map. }
  rewrite !scoreCategories_scoreWith. apply scoreWith_ext.
  intros k _. unfold statusOf.
  destruct (byId l !! k) as [i|] eqn:E.
  - apply byId_sound in E as [<- Hin].
    rewrite (byId_lookup l' i Hnd'); [reflexivity|].
    eapply Permutation_in; eassumption.
  - destruct (byId l' !! k) as [i|] eqn:E'; [|reflexivity].
    apply byId_sound in E' as [<- Hin].
    rewrite (byId_lookup l i Hnd) in E; [discriminate|].
    eapply Permutation_in; [symmetry|]; eassumption.
Qed.

Lemma score_order_independent_witness :
  scoreCategories issues90 = scoreCategories (rev issues90).
Proof.
  apply score_order_independent.
  - apply NoDup_ListNoDup, (bool_decide_unpack _). vm_compute. exact I.
  - apply Permutation_rev.
Defined.

(** ** The scores as integers *)

Lemma scoreWith_exact (st : jsstring -> Status) :
  let k := fun cat => doubledSum st (entriesOf cat) in
  scoreWith st
  = {| Scored.overall :=
         Z2F (overallRound (k techCat) (k onpageCat) (k entityCat) (k hygieneCat));
       Scored.grade :=
         gradeNum (overallNum (k techCat) (k onpageCat) (k entityCat) (k hygieneCat));
       Scored.categories :=
         [catEntry techCat (scoreRound 13 (k techCat)) (weightedRound 13 35 (k techCat));
          catEntry onpageCat (scoreRound 32 (k onpageCat))
            (weightedRound 32 35 (k onpageCat));
          catEntry entityCat (scoreRound 10 (k entityCat))
            (weightedRound 10 20 (k entityCat));
          catEntry hygieneCat (scoreRound 7 (k hygieneCat))
            (weightedRound 7 10 (k hygieneCat))] |}
  /\ 0 <= k techCat <= 26 /\ 0 <= k onpageCat <= 64
  /\ 0 <= k entityCat <= 20 /\ 0 <= k hygieneCat <= 14.
Proof.
  intros k.
  assert (Hin : forall cat, In cat [techCat; onpageCat; entityCat; hygieneCat] ->
                  In cat categories) by (intros cat H; exact H).
  destruct (category_shape st techCat) as (P1 & W1 & B1); [apply Hin; simpl; tauto|].
  destruct (category_shape st onpageCat) as (P2 & W2 & B2); [apply Hin; simpl; tauto|].
  destruct (category_shape st entityCat) as (P3 & W3 & B3); [apply Hin; simpl; tauto|].
  destruct (category_shape st hygieneCat) as (P4 & W4 & B4); [apply Hin; simpl; tauto|].
  destruct (categoryCheck_sound techCat _ ltac:(apply Hin; simpl; tauto) B1) as [S1 V1].
  destruct (categoryCheck_sound onpageCat _ ltac:(apply Hin; simpl; tauto) B2) as [S2 V2].
  destruct (categoryCheck_sound entityCat _ ltac:(apply Hin; simpl; tauto) B3) as [S3 V3].
  destruct (categoryCheck_sound hygieneCat _ ltac:(apply Hin; simpl; tauto) B4) as [S4 V4].
  change (totalOf techCat) with 13 in *. change (shareOf techCat) with 35 in *.
  change (totalOf onpageCat) with 32 in *. change (shareOf onpageCat) with 35 in *.
  change (totalOf entityCat) with 10 in *. change (shareOf entityCat) with 20 in *.
  change (totalOf hygieneCat) with 7 in *. change (shareOf hygieneCat) with 10 in *.
  fold (k techCat) (k onpageCat) (k entityCat) (k hygieneCat) in *.
  split; [|lia].
  destruct (overallCheck_sound (k techCat) (k onpageCat) (k entityCat) (k hygieneCat))
    as [Hr Hg]; try lia.
  rewrite scoreWith_unfold. unfold overallOf.
  rewrite W1, W2, W3, W4. fold (overallFrom (k techCat) (k onpageCat) (k entityCat)
                                   (k hygieneCat)).
  rewrite Hr, Hg, <- gradeNum_exact. f_equal.
  rewrite categories_eq. cbn [List.map]. unfold scoreEntry.
  rewrite P1, P2, P3, P4, W1, W2, W3, W4, S1, S2, S3, S4, V1, V2, V3, V4.
  reflexivity.
Qed.

Lemma scoreRound_bounds :
  forallb (fun cat => forallb (fun k =>
    (0 <=? scoreRound (totalOf cat) k) && (scoreRound (totalOf cat) k <=? 100)
    && (0 <=? weightedRound (totalOf cat) (shareOf cat) k)
    && (weightedRound (totalOf cat) (shareOf cat) k <=? shareOf cat))
    (upTo (2 * totalOf cat))) categories = true.
Proof. vm_compute. reflexivity. Qed.

Lemma scoreRound_range (cat : jsstring) (k : Z) :
  In cat categories -> 0 <= k <= 2 * totalOf cat ->
  0 <= scoreRound (totalOf cat) k <= 100
  /\ 0 <= weightedRound (totalOf cat) (shareOf cat) k <= shareOf cat.
Proof.
  intros Hcat Hk. pose proof scoreRound_bounds as H.
  rewrite forallb_forall in H. specialize (H cat Hcat).
  rewrite forallb_forall in H. specialize (H k (upTo_complete _ k Hk)).
  repeat (apply andb_prop in H as [H ?]). lia.
Qed.

Lemma overallRound_range (k1 k2 k3 k4 : Z) :
  0 <= k1 <= 26 -> 0 <= k2 <= 64 -> 0 <= k3 <= 20 -> 0 <= k4 <= 14 ->
  0 <= overallRound k1 k2 k3 k4 <= 100.
Proof.
  intros H1 H2 H3 H4. unfold overallRound, Exact.round, Qplus, Qfloor.
  cbn [Qnum Qden]. change (Z.pos (5824 * 2)) with 11648.
  assert (0 <= overallNum k1 k2 k3 k4 <= 582400) by (unfold overallNum; lia).
  generalize dependent (overallNum k1 k2 k3 k4). intros num Hnum.
  split; [apply Z.div_pos; lia|].
  enough ((num * 2 + 1 * 5824) / 11648 < 101) by lia.
  apply Z.div_lt_upper_bound; lia.
Qed.

(** X4.  Every score the engine returns is an integer (as a double): the four
    categories come in the order technical_seo, onpage_seo, entity_trust,
    hygiene, each with a score from 0 to 100 and a weighted contribution
    from 0 to its share, and the overall score is from 0 to 100. *)
Theorem scores_are_bounded_integers (issues : list Issue.t) :
  exists n s1 w1 s2 w2 s3 w3 s4 w4 : Z,
    Scored.overall (scoreCategories issues) = Z2F n
    /\ Scored.categories (scoreCategories issues)
       = [catEntry techCat s1 w1; catEntry onpageCat s2 w2;
          catEntry entityCat s3 w3; catEntry hygieneCat s4 w4]
    /\ 0 <= n <= 100
    /\ (0 <= s1 <= 100 /\ 0 <= w1 <= 35) /\ (0 <= s2 <= 100 /\ 0 <= w2 <= 35)
    /\ (0 <= s3 <= 100 /\ 0 <= w3 <= 20) /\ (0 <= s4 <= 100 /\ 0 <= w4 <= 10).
Proof.
  rewrite scoreCategories_scoreWith.
  destruct (scoreWith_exact (statusOf issues)) as (Heq & B1 & B2 & B3 & B4).
  cbv zeta in Heq. rewrite Heq. cbn [Scored.overall Scored.categories].
  do 9 eexists. split; [reflexivity|]. split; [reflexivity|].
  split; [now apply overallRound_range|].
  pose proof (scoreRound_range techCat _ ltac:(simpl; tauto) B1) as R1.
  pose proof (scoreRound_range onpageCat _ ltac:(simpl; tauto) B2) as R2.
  pose proof (scoreRound_range entityCat _ ltac:(simpl; tauto) B3) as R3.
  pose proof (scoreRound_range hygieneCat _ ltac:(simpl; tauto) B4) as R4.
  exact (conj R1 (conj R2 (conj R3 R4))).
Qed.

(** ** Better statuses never lower a score *)

Lemma doubledSum_mono (st1 st2 : jsstring -> Status) (es : list (jsstring * Z)) :
  Forall (fun e => 0 <= snd e) es ->
  (forall e, In e es -> twice (st1 (fst e)) <= twice (st2 (fst e))) ->
  doubledSum st1 es <= doubledSum st2 es.
Proof.
  induction 1 as [|e es He _ IH]; intros Hle; [reflexivity|].
  cbn [doubledSum fold_right].
  fold (doubledSum st1 es) (doubledSum st2 es).
  specialize (IH (fun e' H' => Hle e' (or_intror H'))).
  pose proof (Hle e (or_introl eq_refl)) as Hhd.
  pose proof (Z.mul_le_mono_nonneg_l _ _ (snd e) He Hhd). lia.
Qed.

Lemma weights_nonneg :
  forallb (fun cat => forallb (fun e => 0 <=? snd e) (entriesOf cat)) categories = true.
Proof. vm_compute. reflexivity. Qed.

Lemma doubledSum_category_mono (st1 st2 : jsstring -> Status) (cat : jsstring) :
  In cat categories ->
  (forall k, In k allChecks -> twice (st1 k) <= twice (st2 k)) ->
  doubledSum st1 (entriesOf cat) <= doubledSum st2 (entriesOf cat).
Proof.
  intros Hcat Hle. apply doubledSum_mono.
  - pose proof weights_nonneg as H. rewrite forallb_forall in H.
    specialize (H cat Hcat). rewrite forallb_forall in H.
    apply List.Forall_forall. intros e He. specialize (H e He). lia.
  - intros e He. apply Hle, (checksOf_allChecks cat); [exact Hcat|].
    unfold checksOf. now apply in_map.
Qed.

Lemma round_mono (p q : Q) : (p <= q)%Q -> Exact.round p <= Exact.round q.
Proof.
  intros H. unfold Exact.round. apply Qfloor_resp_le.
  now apply Qplus_le_l.
Qed.

Lemma scoreRound_mono (w p k k' : Z) :
  0 < w -> 0 <= p -> k <= k' ->
  scoreRound w k <= scoreRound w k' /\ weightedRound w p k <= weightedRound w p k'.
Proof.
  intros Hw Hp Hk. destruct w as [|w|w]; try lia.
  assert (H : (100 * (k # 2) / inject_Z (Z.pos w)
               <= 100 * (k' # 2) / inject_Z (Z.pos w))%Q).
  { unfold Qle, Qdiv, Qmult, Qinv, inject_Z. cbn [Qnum Qden]. nia. }
  split; apply round_mono; [exact H|].
  apply Qmult_le_compat_r; [exact H|].
  unfold Qle, Qdiv, Qmult, Qinv, inject_Z. cbn [Qnum Qden]. lia.
Qed.

Lemma overallRound_mono (n n' : Z) :
  n <= n' -> Exact.round (n # 5824) <= Exact.round (n' # 5824).
Proof.
  intros H. apply round_mono. unfold Qle. cbn [Qnum Qden]. lia.
Qed.

Lemma gradeNum_mono (n n' : Z) :
  n <= n' -> gradeRank (gradeNum n) <= gradeRank (gradeNum n').
Proof.
  intros H. unfold gradeNum.
  repeat match goal with
         | |- context [Z.leb ?a ?b] => destruct (Z.leb_spec a b)
         end; cbn [gradeRank]; lia.
Qed.

Lemma Z2F_leb_table :
  forallb (fun a => forallb (fun b =>
    implb (a <=? b) (PrimFloat.leb (Z2F a) (Z2F b))) (upTo 100)) (upTo 100) = true.
Proof. vm_compute. reflexivity. Qed.

Lemma Z2F_leb (a b : Z) :
  0 <= a -> a <= b -> b <= 100 -> PrimFloat.leb (Z2F a) (Z2F b) = true.
Proof.
  intros Ha Hab Hb. pose proof Z2F_leb_table as H.
  rewrite forallb_forall in H. specialize (H a (upTo_complete 100 a ltac:(lia))).
  rewrite forallb_forall in H. specialize (H b (upTo_complete 100 b ltac:(lia))).
  assert (Hle : (a <=? b) = true) by (apply Z.leb_le; lia).
  rewrite Hle in H. exact H.
Qed.

Lemma scoreWith_mono (st1 st2 : jsstring -> Status) :
  (forall k, In k allChecks -> twice (st1 k) <= twice (st2 k)) ->
  PrimFloat.leb (Scored.overall (scoreWith st1)) (Scored.overall (scoreWith st2)) = true
  /\ gradeRank (Scored.grade (scoreWith st1)) <= gradeRank (Scored.grade (scoreWith st2))
  /\ Forall2 noLower (Scored.categories (scoreWith st1))
       (Scored.categories (scoreWith st2)).
Proof.
  intros Hle.
  destruct (scoreWith_exact st1) as (E1 & A1 & A2 & A3 & A4).
  destruct (scoreWith_exact st2) as (E2 & B1 & B2 & B3 & B4).
  cbv zeta in E1, E2. rewrite E1, E2.
  cbn [Scored.overall Scored.grade Scored.categories].
  assert (Hc : forall cat, In cat [techCat; onpageCat; entityCat; hygieneCat] ->
                 doubledSum st1 (entriesOf cat) <= doubledSum st2 (entriesOf cat)).
  { intros cat Hcat. now apply doubledSum_category_mono. }
  pose proof (Hc techCat ltac:(simpl; tauto)) as M1.
  pose proof (Hc onpageCat ltac:(simpl; tauto)) as M2.
  pose proof (Hc entityCat ltac:(simpl; tauto)) as M3.
  pose proof (Hc hygieneCat ltac:(simpl; tauto)) as M4.
  set (a1 := doubledSum st1 (entriesOf techCat)) in *.
  set (a2 := doubledSum st1 (entriesOf onpageCat)) in *.
  set (a3 := doubledSum st1 (entriesOf entityCat)) in *.
  set (a4 := doubledSum st1 (entriesOf hygieneCat)) in *.
  set (b1 := doubledSum st2 (entriesOf techCat)) in *.
  set (b2 := doubledSum st2 (entriesOf onpageCat)) in *.
  set (b3 := doubledSum st2 (entriesOf entityCat)) in *.
  set (b4 := doubledSum st2 (entriesOf hygieneCat)) in *.
  clearbody a1 a2 a3 a4 b1 b2 b3 b4.
  assert (Hnum : overallNum a1 a2 a3 a4 <= overallNum b1 b2 b3 b4)
    by (unfold overallNum; lia).
  split; [|split].
  - pose proof (overallRound_range a1 a2 a3 a4 A1 A2 A3 A4).
    pose proof (overallRound_range b1 b2 b3 b4 B1 B2 B3 B4).
    apply Z2F_leb; try lia. now apply overallRound_mono.
  - now apply gradeNum_mono.
  - pose proof (scoreRound_range techCat a1 ltac:(simpl; tauto) A1) as [? ?].
    pose proof (scoreRound_range techCat b1 ltac:(simpl; tauto) B1) as [? ?].
    pose proof (scoreRound_range onpageCat a2 ltac:(simpl; tauto) A2) as [? ?].
    pose proof (scoreRound_range onpageCat b2 ltac:(simpl; tauto) B2) as [? ?].
    pose proof (scoreRound_range entityCat a3 ltac:(simpl; tauto) A3) as [? ?].
    pose proof (scoreRound_range entityCat b3 ltac:(simpl; tauto) B3) as [? ?].
    pose proof (scoreRound_range hygieneCat a4 ltac:(simpl; tauto) A4) as [? ?].
    pose proof (scoreRound_range hygieneCat b4 ltac:(simpl; tauto) B4) as [? ?].
    change (totalOf techCat) with 13 in *. change (shareOf techCat) with 35 in *.
    change (totalOf onpageCat) with 32 in *. change (shareOf onpageCat) with 35 in *.
    change (totalOf entityCat) with 10 in *. change (shareOf entityCat) with 20 in *.
    change (totalOf hygieneCat) with 7 in *. change (shareOf hygieneCat) with 10 in *.
    destruct (scoreRound_mono 13 35 a1 b1) as [? ?]; try lia.
    destruct (scoreRound_mono 32 35 a2 b2) as [? ?]; try lia.
    destruct (scoreRound_mono 10 20 a3 b3) as [? ?]; try lia.
    destruct (scoreRound_mono 7 10 a4 b4) as [? ?]; try lia.
    repeat (constructor; [split; [reflexivity|]; split; apply Z2F_leb; lia|]).
    constructor.
Qed.

Lemma foldl_insert_mono (l1 l2 : list Issue.t) :
  improves l1 l2 ->
  forall m1 m2 k,
    twice (statusIn m1 k) <= twice (statusIn m2 k) ->
    twice (statusIn (foldl (fun m i => <[Issue.id i := i]> m) m1 l1) k)
    <= twice (statusIn (foldl (fun m i => <[Issue.id i := i]> m) m2 l2) k).
Proof.
  induction 1 as [|i j l1 l2 [Hid Hst] _ IH]; intros m1 m2 k Hm; [exact Hm|].
  cbn [foldl]. apply IH. unfold statusIn in *. rewrite <- Hid.
  destruct (decide (Issue.id i = k)) as [->|Hne].
  - now rewrite !lookup_insert_eq.
  - now rewrite !lookup_insert_ne.
Qed.

Lemma improves_statusOf (l1 l2 : list Issue.t) :
  improves l1 l2 -> forall k, twice (statusOf l1 k) <= twice (statusOf l2 k).
Proof.
  intros Himp k. apply (foldl_insert_mono l1 l2 Himp ∅ ∅ k). reflexivity.
Qed.

(** X5.  Raising statuses (fail to warn to pass) never lowers a category score,
    a weighted contribution or the overall score, and never worsens the
    grade. *)
Theorem improving_never_lowers (l1 l2 : list Issue.t) :
  improves l1 l2 ->
  PrimFloat.leb (Scored.overall (scoreCategories l1))
    (Scored.overall (scoreCategories l2)) = true
  /\ gradeRank (Scored.grade (scoreCategories l1))
     <= gradeRank (Scored.grade (scoreCategories l2))
  /\ Forall2 noLower (Scored.categories (scoreCategories l1))
       (Scored.categories (scoreCategories l2)).
Proof.
  intros Himp. rewrite !scoreCategories_scoreWith. apply scoreWith_mono.
  intros k _. now apply improves_statusOf.
Qed.

Lemma issues90_improves : improves issues90 issues90'.
Proof.
  unfold improves, issues90', issues90. cbn [tl].
  repeat (constructor; [split; [reflexivity|cbn; lia]|]). constructor.
Defined.

Lemma improving_never_lowers_witness :
  PrimFloat.leb (Scored.overall (scoreCategories issues90))
    (Scored.overall (scoreCategories issues90')) = true
  /\ gradeRank (Scored.grade (scoreCategories issues90))
     <= gradeRank (Scored.grade (scoreCategories issues90'))
  /\ Forall2 noLower (Scored.categories (scoreCategories issues90))
       (Scored.categories (scoreCategories issues90')).
Proof. apply improving_never_lowers. exact issues90_improves. Defined.

(** ** The two ends of the scale *)

(** X6.  When every weighted check passes the result is 100 in every category,
    100 overall and grade A. *)
Theorem all_pass_scores_100 (issues : list Issue.t) :
  Forall (fun id => statusOf issues id = pass) allChecks ->
  scoreCategories issues = perfectScore.
Proof.
  intros H. rewrite scoreCategories_scoreWith.
  rewrite (scoreWith_ext _ (fun _ => pass)) by now apply List.Forall_forall.
  vm_compute. reflexivity.
Qed.

Lemma all_pass_scores_100_witness :
  scoreCategories (List.map (withStatus pass) issues90) = perfectScore.
Proof. apply all_pass_scores_100. repeat constructor. Defined.

(** X7.  When no weighted check passes or warns, in particular on an empty
    issue list, where every check counts as failed, the result is 0 in
    every category, 0 overall and grade F. *)
Theorem nothing_passes_scores_0 (issues : list Issue.t) :
  Forall (fun id => statusOf issues id = fail) allChecks ->
  scoreCategories issues = zeroScore.
Proof.
  intros H. rewrite scoreCategories_scoreWith.
  rewrite (scoreWith_ext _ (fun _ => fail)) by now apply List.Forall_forall.
  vm_compute. reflexivity.
Qed.

Lemma nothing_passes_scores_0_witness : scoreCategories [] = zeroScore.
Proof. apply nothing_passes_scores_0. repeat constructor. Defined.

(** ** The evaluator and the weight tables *)

Lemma evaluateHome_list (h : Host) (html : jsstring) (headers : Headers)
  (url : jsstring) (issues : list Issue.t) :
  evaluateHome h html headers url = Ok issues ->
  exists origin,
    issues
    = [ titleIssue html url; metaDescriptionIssue html url; viewportIssue html url;
        h1Issue html url; headingHierarchyIssue html url; canonicalIssue html url;
        metaRobotsIssue html headers url; openGraphIssue html url;
        mixedContentIssue html url; imageAltIssue html url; imageLazyIssue html url;
        imageFilenameIssue html url; internalLinksIssue h html url origin;
        publishDateIssue html url; wordCountIssue html url;
        entitySchemaIssue html url; entityNapIssue html url;
        entitySocialIssue html url; faviconIssue html url; manifestIssue html url;
        charsetIssue html url; htmlLangIssue html url; copyrightYearIssue h html url ].
Proof.
  unfold evaluateHome. destruct (URL_new h url None) as [u|]; [|discriminate].
  intros [= <-]. now exists (URL.origin u).
Qed.

Lemma catalogue_allChecks :
  forallb (fun id => existsb (str_eqb id) catalogue) allChecks
  && forallb (fun id => existsb (str_eqb id) allChecks) catalogue = true.
Proof. vm_compute. reflexivity. Qed.

Lemma existsb_str_eqb (x : jsstring) (l : list jsstring) :
  existsb (str_eqb x) l = true <-> In x l.
Proof.
  rewrite existsb_exists. split.
  - intros (y & Hy & Heq). unfold str_eqb in Heq.
    apply bool_decide_eq_true in Heq. now subst.
  - intros H. exists x. split; [exact H|]. unfold str_eqb.
    now apply bool_decide_eq_true.
Qed.

Lemma allChecks_catalogue (id : jsstring) : In id allChecks <-> In id catalogue.
Proof.
  pose proof catalogue_allChecks as H. apply andb_prop in H as [H1 H2].
  rewrite forallb_forall in H1, H2. split; intros Hin.
  - apply existsb_str_eqb. now apply H1.
  - apply existsb_str_eqb. now apply H2.
Qed.

Lemma evaluateHome_feeds_every_weight_aux (h : Host) (html : jsstring)
  (headers : Headers) (url : jsstring) (issues : list Issue.t) :
  evaluateHome h html headers url = Ok issues ->
  forall id, In id allChecks -> exists i, In i issues /\ byId issues !! id = Some i.
Proof.
  intros Heval id Hid. pose proof (evaluateHome_ids _ _ _ _ _ Heval) as Hids.
  apply allChecks_catalogue in Hid. rewrite <- Hids in Hid.
  destruct (byId_complete issues id Hid) as [i Hi].
  exists i. split; [|exact Hi]. now apply byId_sound in Hi.
Qed.

(** X8.  Every check the evaluator emits is weighted, and every weighted check
    is emitted: the ids of the issues are those of the weight tables, each
    once; each issue is labelled with the category whose table weighs it
    and with the page it was evaluated on; so the engine finds an issue
    for every id it looks up and never falls back on its default. *)
Theorem evaluateHome_feeds_every_weight (h : Host) (html : jsstring)
  (headers : Headers) (url : jsstring) (issues : list Issue.t) :
  evaluateHome h html headers url = Ok issues ->
  (forall id, In id (List.map Issue.id issues) <-> In id allChecks)
  /\ List.NoDup (List.map Issue.id issues)
  /\ Forall (fun i => Issue.category i = categoryOf (Issue.id i)
                      /\ Issue.page i = Some url) issues
  /\ Forall (fun id => exists i, In i issues /\ byId issues !! id = Some i) allChecks.
Proof.
  intros Heval. pose proof (evaluateHome_ids _ _ _ _ _ Heval) as Hids.
  assert (Hnd : List.NoDup (List.map Issue.id issues))
    by (rewrite Hids; exact catalogue_NoDup).
  split; [|split; [exact Hnd|split]].
  - intros id. rewrite Hids. symmetry. apply allChecks_catalogue.
  - destruct (evaluateHome_list _ _ _ _ _ Heval) as [origin ->].
    repeat (constructor; [split; reflexivity|]). constructor.
  - apply List.Forall_forall. intros id Hid.
    now apply (evaluateHome_feeds_every_weight_aux h html headers url).
Qed.

Lemma evaluateHome_feeds_every_weight_witness :
  exists issues,
    evaluateHome SmallHost.host (lit "<title>Hello</title>") SmallHost.noHeaders
      (lit "https://example.com/") = Ok issues
    /\ (forall id, In id (List.map Issue.id issues) <-> In id allChecks)
    /\ List.NoDup (List.map Issue.id issues)
    /\ Forall (fun i => Issue.category i = categoryOf (Issue.id i)
                        /\ Issue.page i = Some (lit "https://example.com/")) issues
    /\ Forall (fun id => exists i, In i issues /\ byId issues !! id = Some i) allChecks.
Proof.
  eexists. split; [reflexivity|].
  apply (evaluateHome_feeds_every_weight SmallHost.host (lit "<title>Hello</title>")
           SmallHost.noHeaders (lit "https://example.com/")).
  reflexivity.
Defined.

(** ** The floor of the score *)

Lemma status_of_neverFails (html url : jsstring) (h : Host) (headers : Headers)
  (origin : jsstring) :
  Forall (fun i => (existsb (str_eqb (Issue.id i)) neverFails = true ->
                    Issue.status i <> fail)
                   /\ (existsb (str_eqb (Issue.id i)) neverWarns = true ->
                       Issue.status i <> warn))
    [ titleIssue html url; metaDescriptionIssue html url; viewportIssue html url;
      h1Issue html url; headingHierarchyIssue html url; canonicalIssue html url;
      metaRobotsIssue html headers url; openGraphIssue html url;
      mixedContentIssue html url; imageAltIssue html url; imageLazyIssue html url;
      imageFilenameIssue html url; internalLinksIssue h html url origin;
      publishDateIssue html url; wordCountIssue html url;
      entitySchemaIssue html url; entityNapIssue html url;
      entitySocialIssue html url; faviconIssue html url; manifestIssue html url;
      charsetIssue html url; htmlLangIssue html url; copyrightYearIssue h html url ].
Proof.
  repeat (constructor;
          [split; intros Hin;
           first [ discriminate Hin
                 | clear Hin;
                   lazymatch goal with
                   | |- Issue.status ?i <> _ =>
                       let t := eval hnf in i in
                       change i with t; cbn [Issue.status]
                   end;
                   repeat match goal with
                          | |- context [if ?b then _ else _] => destruct b
                          end; discriminate ]|]).
  constructor.
Qed.

(** X10.  Eleven checks report pass or warn and never fail (heading hierarchy,
    canonical tag, publish date, the three entity checks after Open Graph
    and the five hygiene checks), and two report pass or fail and never
    warn (viewport and robots). *)
Theorem evaluateHome_status_ranges (h : Host) (html : jsstring) (headers : Headers)
  (url : jsstring) (issues : list Issue.t) :
  evaluateHome h html headers url = Ok issues ->
  Forall (fun i => (existsb (str_eqb (Issue.id i)) neverFails = true ->
                    Issue.status i <> fail)
                   /\ (existsb (str_eqb (Issue.id i)) neverWarns = true ->
                       Issue.status i <> warn))
    issues.
Proof.
  intros Heval. destruct (evaluateHome_list _ _ _ _ _ Heval) as [origin ->].
  apply status_of_neverFails.
Qed.

Lemma evaluateHome_status_ranges_witness :
  exists issues,
    evaluateHome SmallHost.host (lit "<h1>a</h1><h3>b</h3>") SmallHost.noHeaders
      (lit "https://example.com/") = Ok issues
    /\ Forall (fun i => (existsb (str_eqb (Issue.id i)) neverFails = true ->
                         Issue.status i <> fail)
                        /\ (existsb (str_eqb (Issue.id i)) neverWarns = true ->
                            Issue.status i <> warn))
         issues.
Proof.
  eexists. split; [reflexivity|].
  apply (evaluateHome_status_ranges SmallHost.host (lit "<h1>a</h1><h3>b</h3>")
           SmallHost.noHeaders (lit "https://example.com/")).
  reflexivity.
Defined.

Lemma worstCase_below (h : Host) (html : jsstring) (headers : Headers)
  (url : jsstring) (issues : list Issue.t) (k : jsstring) :
  evaluateHome h html headers url = Ok issues ->
  In k allChecks ->
  twice (worstCase k) <= twice (statusOf issues k).
Proof.
  intros Heval Hk.
  destruct (evaluateHome_feeds_every_weight_aux h html headers url issues Heval k Hk)
    as (i & Hin & Hi).
  destruct (evaluateHome_list _ _ _ _ _ Heval) as [origin Hl].
  pose proof (status_of_neverFails html url h headers origin) as Hr.
  rewrite <- Hl in Hr.
  rewrite List.Forall_forall in Hr. destruct (Hr i Hin) as [Hnf _].
  apply byId_sound in Hi as Hs. destruct Hs as [Hid _].
  unfold statusOf. rewrite Hi. unfold worstCase. rewrite <- Hid.
  destruct (existsb (str_eqb (Issue.id i)) neverFails).
  - specialize (Hnf eq_refl). destruct (Issue.status i); cbn; try lia. congruence.
  - destruct (Issue.status i); cbn; lia.
Qed.

Lemma worstCase_score :
  scoreWith worstCase
  = {| Scored.overall := 21; Scored.grade := Grade.F;
       Scored.categories :=
         [catEntry techCat 15 5; catEntry onpageCat 6 2; catEntry entityCat 40 8;
          catEntry hygieneCat 50 5] |}.
Proof. vm_compute. reflexivity. Qed.

Lemma overall_floor (h : Host) (html : jsstring) (headers : Headers)
  (url : jsstring) (issues : list Issue.t) :
  evaluateHome h html headers url = Ok issues ->
  PrimFloat.leb 21 (Scored.overall (scoreCategories issues)) = true.
Proof.
  intros Heval. rewrite scoreCategories_scoreWith.
  destruct (scoreWith_mono worstCase (statusOf issues)) as [Ho _].
  { intros k Hk. now apply (worstCase_below h html headers url). }
  now rewrite worstCase_score in Ho.
Qed.

Lemma score_ceiling (issues : list Issue.t) :
  PrimFloat.leb (Scored.overall (scoreCategories issues)) 100 = true.
Proof.
  rewrite scoreCategories_scoreWith.
  destruct (scoreWith_exact (statusOf issues)) as (Heq & B1 & B2 & B3 & B4).
  cbv zeta in Heq. rewrite Heq. cbn [Scored.overall].
  pose proof (overallRound_range _ _ _ _ B1 B2 B3 B4) as Hr.
  change 100%float with (Z2F 100). apply Z2F_leb; lia.
Qed.

(** X11.  No page scores below the floor: whatever the markup, the overall score
    is at least 21, technical_seo at least 15, onpage_seo at least 6,
    entity_trust at least 40 and hygiene at least 50. *)
Theorem evaluateHome_score_floor (h : Host) (html : jsstring) (headers : Headers)
  (url : jsstring) (issues : list Issue.t) :
  evaluateHome h html headers url = Ok issues ->
  PrimFloat.leb 21 (Scored.overall (scoreCategories issues)) = true
  /\ Forall2 noLower
       [catEntry techCat 15 5; catEntry onpageCat 6 2; catEntry entityCat 40 8;
        catEntry hygieneCat 50 5]
       (Scored.categories (scoreCategories issues)).
Proof.
  intros Heval. rewrite scoreCategories_scoreWith.
  destruct (scoreWith_mono worstCase (statusOf issues)) as (Ho & _ & Hc).
  { intros k Hk. now apply (worstCase_below h html headers url). }
  rewrite worstCase_score in Ho, Hc. split; [exact Ho|exact Hc].
Qed.

Lemma evaluateHome_score_floor_witness :
  exists issues,
    evaluateHome SmallHost.host [] SmallHost.noHeaders (lit "https://example.com/")
    = Ok issues
    /\ PrimFloat.leb 21 (Scored.overall (scoreCategories issues)) = true
    /\ Forall2 noLower
         [catEntry techCat 15 5; catEntry onpageCat 6 2; catEntry entityCat 40 8;
          catEntry hygieneCat 50 5]
         (Scored.categories (scoreCategories issues)).
Proof.
  eexists. split; [reflexivity|].
  apply (evaluateHome_score_floor SmallHost.host [] SmallHost.noHeaders
           (lit "https://example.com/")).
  reflexivity.
Defined.

(** ** Utils: unique *)

Lemma uniqueAcc_In (seen arr : list jsstring) (x : jsstring) :
  In x (uniqueAcc seen arr) <-> In x arr /\ ~ In x seen.
Proof.
  revert seen. induction arr as [|a arr IH]; intros seen; cbn [uniqueAcc].
  - simpl. tauto.
  - destruct (existsb (str_eqb a) seen) eqn:Ha.
    + apply existsb_str_eqb in Ha. rewrite IH. simpl. split.
      * tauto.
      * intros [[->|Hx] Hn]; [contradiction|tauto].
    + assert (Hna : ~ In a seen).
      { intros Hin. apply existsb_str_eqb in Hin. congruence. }
      simpl. rewrite IH. simpl. split.
      * intros [->|[Hx Hn]]; [tauto|]. split; [tauto|]. intros Hs. apply Hn. tauto.
      * intros [[->|Hx] Hn]; [tauto|].
        destruct (decide (a = x)) as [->|Hne]; [tauto|]. right. split; [exact Hx|].
        intros [Heq|Hs]; [congruence|contradiction].
Qed.

Lemma uniqueAcc_NoDup (seen arr : list jsstring) : List.NoDup (uniqueAcc seen arr).
Proof.
  revert seen. induction arr as [|a arr IH]; intros seen; cbn [uniqueAcc].
  - constructor.
  - destruct (existsb (str_eqb a) seen); [apply IH|].
    constructor; [|apply IH]. rewrite uniqueAcc_In. simpl. tauto.
Qed.

Lemma filter_narrow {T : Type} (p q : T -> bool) (l : list T) :
  (forall y, p y = true -> q y = true) ->
  List.filter p (List.filter q l) = List.filter p l.
Proof.
  intros Hpq. induction l as [|y l IH]; [reflexivity|]. simpl.
  destruct (q y) eqn:Hq; simpl.
  - now rewrite IH.
  - destruct (p y) eqn:Hp; [|exact IH]. apply Hpq in Hp. congruence.
Qed.

Lemma filter_both {T : Type} (p q : T -> bool) (l : list T) :
  List.filter p (List.filter q l) = List.filter (fun y => q y && p y) l.
Proof.
  induction l as [|y l IH]; [reflexivity|]. simpl.
  destruct (q y); simpl; [|exact IH]. destruct (p y); now rewrite IH.
Qed.

Lemma filter_same {T : Type} (p q : T -> bool) (l : list T) :
  (forall y, p y = q y) -> List.filter p l = List.filter q l.
Proof.
  intros H. induction l as [|y l IH]; [reflexivity|]. simpl. now rewrite H, IH.
Qed.

Lemma str_eqb_sym (a b : jsstring) : str_eqb a b = str_eqb b a.
Proof.
  unfold str_eqb. destruct (decide (a = b)) as [->|Hne].
  - reflexivity.
  - rewrite !bool_decide_eq_false_2; congruence.
Qed.

Lemma uniqueAcc_filter (seen arr : list jsstring) :
  uniqueAcc seen arr
  = List.filter (fun y => negb (existsb (str_eqb y) seen)) (unique arr).
Proof.
  unfold unique. revert seen. induction arr as [|a arr IH]; intros seen.
  - reflexivity.
  - cbn [uniqueAcc existsb]. rewrite (IH [a]). cbn [List.filter].
    destruct (existsb (str_eqb a) seen) eqn:Ha; cbn [negb].
    + rewrite (IH seen). symmetry. apply filter_narrow.
      intros y Hy. cbn [existsb]. rewrite orb_false_r.
      destruct (str_eqb y a) eqn:Hya; [|reflexivity].
      unfold str_eqb in Hya. apply bool_decide_eq_true in Hya. subst y.
      rewrite Ha in Hy. discriminate.
    + f_equal. rewrite (IH (a :: seen)), filter_both. apply filter_same.
      intros y. cbn [existsb]. rewrite orb_false_r, negb_orb. reflexivity.
Qed.

(** X12.  [[...new Set(arr)]] has no repetition and the elements of [arr], each
    at the place of its first occurrence: the head of [arr] comes first,
    followed by what the rest gives with the head's repetitions removed. *)
Theorem unique_first_occurrences (arr : list jsstring) :
  List.NoDup (unique arr)
  /\ (forall x, In x (unique arr) <-> In x arr)
  /\ match arr with
     | [] => unique arr = []
     | x :: rest =>
         unique arr = x :: List.filter (fun y => negb (str_eqb y x)) (unique rest)
     end.
Proof.
  split; [apply uniqueAcc_NoDup|]. split.
  - intros x. unfold unique. rewrite uniqueAcc_In. simpl. tauto.
  - destruct arr as [|x rest]; [reflexivity|].
    unfold unique at 1. cbn [uniqueAcc existsb]. f_equal.
    rewrite uniqueAcc_filter. apply filter_same.
    intros y. cbn [existsb]. now rewrite orb_false_r.
Qed.

(** ** The handler *)

Lemma nonEmpty_spec (s : jsstring) : nonEmpty s = true <-> s <> [].
Proof.
  destruct s as [|c s]; cbn.
  - split; [discriminate|]. intros H. now contradiction H.
  - split; [discriminate|reflexivity].
Qed.

(** X13.  The origins audited are at most ten, pairwise distinct, not empty, and
    all among the normalised inputs. *)
Theorem dedup_bounded (origins : list jsstring) :
  (List.length (dedup origins) <= 10)%nat
  /\ List.NoDup (dedup origins)
  /\ Forall (fun o => In o origins /\ o <> []) (dedup origins).
Proof.
  unfold dedup. split; [|split].
  - rewrite length_firstn. lia.
  - set (u := unique (List.filter nonEmpty origins)).
    assert (Hu : List.NoDup u) by apply uniqueAcc_NoDup.
    rewrite <- (firstn_skipn 10 u) in Hu. now apply List.NoDup_app_remove_r in Hu.
  - apply List.Forall_forall. intros o Ho.
    assert (Hu : In o (unique (List.filter nonEmpty origins))).
    { rewrite <- (firstn_skipn 10). apply in_or_app. now left. }
    clear Ho. rename Hu into Ho. unfold unique in Ho.
    apply uniqueAcc_In in Ho as [Ho _]. apply filter_In in Ho as [Hin Hne].
    split; [exact Hin|]. now apply nonEmpty_spec.
Qed.

Lemma dedup_length (origins : list jsstring) :
  (List.length (dedup origins) <= 10)%nat.
Proof. unfold dedup. rewrite length_firstn. lia. Qed.

Lemma mapM_Throw {T U : Type} (f : T -> completion U) (l : list T) (x : T) (e : exn) :
  In x l -> f x = Throw e -> exists e', mapM f l = Throw e'.
Proof.
  induction l as [|y l IH]; [contradiction|]. intros [->|Hin] Hx; cbn [mapM].
  - rewrite Hx. eauto.
  - destruct (f y); [|eauto]. destruct (IH Hin Hx) as [e' ->]. eauto.
Qed.

Lemma mapM_Ok {T U : Type} (f : T -> completion U) (l : list T) (ys : list U) :
  mapM f l = Ok ys <-> Forall2 (fun x y => f x = Ok y) l ys.
Proof.
  revert ys. induction l as [|x l IH]; intros ys; cbn [mapM].
  - split.
    + intros [= <-]. constructor.
    + intros H. inversion H. reflexivity.
  - split.
    + destruct (f x) as [y|] eqn:Hx; [|discriminate].
      destruct (mapM f l) as [ys'|] eqn:Hl; [|discriminate].
      intros [= <-]. constructor; [exact Hx|]. now apply IH.
    + intros H. inversion H as [|x' y l' ys' Hx Hrest]; subst.
      rewrite Hx. apply IH in Hrest. now rewrite Hrest.
Qed.

Lemma uniqueAcc_repeat (o : jsstring) (n : nat) : uniqueAcc [o] (repeat o n) = [].
Proof.
  induction n as [|n IH]; [reflexivity|]. cbn [repeat uniqueAcc existsb].
  unfold str_eqb at 1. rewrite bool_decide_eq_true_2 by reflexivity. exact IH.
Qed.

Lemma mapM_repeat {T U : Type} (f : T -> completion U) (x : T) (y : U) (n : nat) :
  f x = Ok y -> mapM f (repeat x n) = Ok (repeat y n).
Proof.
  intros Hx. induction n as [|n IH]; [reflexivity|].
  cbn [repeat mapM]. now rewrite Hx, IH.
Qed.

Lemma rejections_In {T U : Type} (f : T -> completion U) (l : list T) (e : exn) :
  In e (rejections f l) <-> exists x, In x l /\ f x = Throw e.
Proof.
  induction l as [|y l IH]; cbn [rejections].
  - simpl. split; [tauto|]. intros (x & [] & _).
  - destruct (f y) as [v|e'] eqn:Hy.
    + rewrite IH. split.
      * intros (x & Hx & Hf). exists x. simpl. tauto.
      * intros (x & [->|Hx] & Hf); [congruence|]. now exists x.
    + simpl. rewrite IH. split.
      * intros [->|(x & Hx & Hf)]; [exists y; tauto|]. exists x. tauto.
      * intros (x & [->|Hx] & Hf); [left; congruence|]. right. now exists x.
Qed.

Lemma mapM_Throw_In {T U : Type} (f : T -> completion U) (l : list T) (e : exn) :
  mapM f l = Throw e -> In e (rejections f l).
Proof.
  induction l as [|y l IH]; cbn [mapM rejections]; [discriminate|].
  destruct (f y) as [v|e']; [|intros [= ->]; now left].
  destruct (mapM f l); [discriminate|]. intros [= ->]. now apply IH.
Qed.

Lemma promiseAll_Ok {T U : Type} (earliest : list exn -> nat) (f : T -> completion U)
  (l : list T) (ys : list U) :
  promiseAll earliest f l = Ok ys <-> mapM f l = Ok ys.
Proof.
  unfold promiseAll. destruct (mapM f l); split; congruence.
Qed.

Lemma promiseAll_Throw {T U : Type} (earliest : list exn -> nat)
  (f : T -> completion U) (l : list T) (e : exn) :
  promiseAll earliest f l = Throw e -> exists x, In x l /\ f x = Throw e.
Proof.
  unfold promiseAll. destruct (mapM f l) as [ys|first] eqn:Hm; [discriminate|].
  intros [= <-]. apply rejections_In. apply mapM_Throw_In in Hm.
  destruct (nth_in_or_default (earliest (rejections f l)) (rejections f l) first)
    as [Hin| ->]; assumption.
Qed.

Lemma promiseAll_fails {T U : Type} (earliest : list exn -> nat)
  (f : T -> completion U) (l : list T) (x : T) (e : exn) :
  In x l -> f x = Throw e -> exists e', promiseAll earliest f l = Throw e'.
Proof.
  intros Hin Hx. unfold promiseAll.
  destruct (mapM_Throw f l x e Hin Hx) as [e' ->]. eauto.
Qed.

Section HandlerProperties.
Variable AuditResult : Type.
Variable auditOne : jsstring -> JSON -> option jsstring -> completion AuditResult.
Variable PSI_KEY : option jsstring.
Variable N8N : option jsstring.
Variable earliest : list exn -> nat.

(** X14.  The handler answers with status 200 or 500 and nothing else; the body
    is an error object exactly when the status is 500, and then the
    webhook is not called. *)
Theorem POST_status_200_or_500 (h : Host) (req : Request.t) :
  let out := POST AuditResult auditOne PSI_KEY N8N earliest h req in
  let res := response AuditResult out in
  (status AuditResult res = 200 \/ status AuditResult res = 500)
  /\ (status AuditResult res = 500 <-> exists e, json AuditResult res = Failure AuditResult e)
  /\ (status AuditResult res = 500 <-> webhook AuditResult out = None /\ resultsShown res = None).
Proof.
  cbv zeta. unfold POST.
  destruct req as [body|e]; [|cbn; split; [tauto|split; [split; eauto|tauto]]].
  destruct (originList h (Request.url body)) as [origins|e];
    [|cbn; split; [tauto|split; [split; eauto|tauto]]].
  destruct (promiseAll _ _ (dedup origins)) as [results|e];
    [|cbn; split; [tauto|split; [split; eauto|tauto]]].
  cbn. split; [tauto|]. split.
  - split; [discriminate|]. intros [e He]. destruct results as [|r [|r' rs]]; discriminate.
  - split; [discriminate|]. intros [_ Hs].
    destruct results as [|r [|r' rs]]; discriminate.
Qed.

(** X15.  One audit that fails fails the whole batch: the answer is the error
    with status 500, whatever the other audits return. *)
Theorem failing_audit_fails_batch (h : Host) (body : Request.body)
  (origins : list jsstring) (o : jsstring) (e : exn) :
  originList h (Request.url body) = Ok origins ->
  In o (dedup origins) ->
  auditOne o (optionsOf body) PSI_KEY = Throw e ->
  exists e', POST AuditResult auditOne PSI_KEY N8N earliest h (Ok body)
             = failed AuditResult e'.
Proof.
  intros Hlist Hin He. unfold POST. rewrite Hlist. fold (optionsOf body).
  destruct (promiseAll_fails earliest
              (fun origin => auditOne origin (optionsOf body) PSI_KEY)
              (dedup origins) o e Hin He) as [e' ->].
  now exists e'.
Qed.

(** X16.  One entry of the batch that does not parse as a URL fails the whole
    request, with status 500. *)
Theorem unparsable_url_fails_batch (h : Host) (body : Request.body)
  (items : list jsstring) (s : jsstring) (e : exn) :
  Request.url body = UrlArray items ->
  In s items ->
  normaliseOrigin h s = Throw e ->
  exists e', POST AuditResult auditOne PSI_KEY N8N earliest h (Ok body)
             = failed AuditResult e'.
Proof.
  intros Hurl Hin He. unfold POST, originList. rewrite Hurl.
  destruct (mapM_Throw (normaliseOrigin h) items s e Hin He) as [e' ->].
  now exists e'.
Qed.

(** X17.  A request answered with status 200 ran one audit for each of the
    deduplicated origins, at most ten, and all of them succeeded; the page
    shows their results in that order, whether the body is a single object
    or an array; the webhook received the same results when its URL is
    set and is not the empty string, and nothing was sent otherwise. *)
Theorem POST_success (h : Host) (req : Request.t) :
  let out := POST AuditResult auditOne PSI_KEY N8N earliest h req in
  status AuditResult (response AuditResult out) = 200 ->
  exists body origins results,
    req = Ok body
    /\ originList h (Request.url body) = Ok origins
    /\ Forall2 (fun o r => auditOne o (optionsOf body) PSI_KEY = Ok r)
         (dedup origins) results
    /\ (List.length results <= 10)%nat
    /\ resultsShown (response AuditResult out) = Some results
    /\ webhook AuditResult out
       = match N8N with
         | Some (c :: url) => Some (c :: url, results)
         | Some [] | None => None
         end.
Proof.
  cbv zeta. unfold POST. destruct req as [body|e]; [|discriminate].
  fold (optionsOf body).
  destruct (originList h (Request.url body)) as [origins|e] eqn:Hl; [|discriminate].
  destruct (promiseAll _ _ (dedup origins)) as [results|e] eqn:Hm; [|discriminate].
  intros _. exists body, origins, results.
  apply promiseAll_Ok, mapM_Ok in Hm.
  split; [reflexivity|]. split; [exact Hl|]. split; [exact Hm|]. split; [|split].
  - pose proof (dedup_length origins) as Hd.
    apply Forall2_length in Hm. unfold jsstring in *. lia.
  - cbn. now destruct results as [|r [|r' rs]].
  - cbn [webhook]. unfold webhookUrl. now destruct N8N as [[|c url]|].
Qed.

(** X18.  A batch whose entries all normalise to one origin is audited once and
    answered with a single object, not an array; the webhook, when its URL
    is set and not empty, receives the one result. *)
Theorem repeated_url_audited_once (h : Host) (body : Request.body)
  (s o : jsstring) (n : nat) (r : AuditResult) :
  Request.url body = UrlArray (repeat s (S n)) ->
  normaliseOrigin h s = Ok o ->
  o <> [] ->
  auditOne o (optionsOf body) PSI_KEY = Ok r ->
  POST AuditResult auditOne PSI_KEY N8N earliest h (Ok body)
  = {| response := {| status := 200; json := Single AuditResult r |};
       webhook := match N8N with
                  | Some (c :: url) => Some (c :: url, [r])
                  | Some [] | None => None
                  end |}.
Proof.
  intros Hurl Hs Ho Hr. unfold POST, originList. rewrite Hurl.
  rewrite (mapM_repeat _ s o (S n) Hs). fold (optionsOf body).
  assert (Hd : dedup (repeat o (S n)) = [o]).
  { unfold dedup, unique. cbn [repeat List.filter].
    apply nonEmpty_spec in Ho as Hne. rewrite Hne.
    assert (Hf : List.filter nonEmpty (repeat o n) = repeat o n).
    { clear -Hne. induction n as [|n IH]; [reflexivity|].
      cbn [repeat List.filter]. now rewrite Hne, IH. }
    rewrite Hf. cbn [uniqueAcc existsb]. now rewrite uniqueAcc_repeat. }
  rewrite Hd. unfold promiseAll. cbn [mapM]. rewrite Hr. f_equal.
  unfold webhookUrl. now destruct N8N as [[|c url]|].
Qed.
End HandlerProperties.

Lemma failing_audit_fails_batch_witness :
  exists e',
    POST jsstring (auditExcept (lit "https://b.example/")) None None (fun _ => 0%nat)
      SmallHost.host
      (Ok (requestFor (UrlArray [lit "a.example"; lit "b.example"; lit "c.example"])))
    = failed jsstring e'.
Proof.
  apply (failing_audit_fails_batch jsstring (auditExcept (lit "https://b.example/"))
           None None (fun _ => 0%nat) SmallHost.host
           (requestFor (UrlArray [lit "a.example"; lit "b.example"; lit "c.example"]))
           [lit "https://a.example/"; lit "https://b.example/"; lit "https://c.example/"]
           (lit "https://b.example/")
           (Error (lit "Failed to fetch https://b.example/"))).
  - reflexivity.
  - right. left. reflexivity.
  - reflexivity.
Defined.

Lemma unparsable_url_fails_batch_witness :
  exists e',
    POST jsstring echoAudit None None (fun _ => 0%nat) SmallHost.host
      (Ok (requestFor (UrlArray [lit "a.example"; lit "http://"])))
    = failed jsstring e'.
Proof.
  apply (unparsable_url_fails_batch jsstring echoAudit None None (fun _ => 0%nat)
           SmallHost.host
           (requestFor (UrlArray [lit "a.example"; lit "http://"]))
           [lit "a.example"; lit "http://"] (lit "http://")
           (InvalidURL (lit "http://"))).
  - reflexivity.
  - right. left. reflexivity.
  - reflexivity.
Defined.

Lemma POST_success_witness :
  exists body origins results,
    Ok (requestFor (UrlArray [lit "a.example"; lit "https://a.example/x"; lit "b.example"]))
    = Ok body
    /\ originList SmallHost.host (Request.url body) = Ok origins
    /\ Forall2 (fun o r => echoAudit o (optionsOf body) None = Ok r)
         (dedup origins) results
    /\ (List.length results <= 10)%nat
    /\ resultsShown
         (response jsstring
            (POST jsstring echoAudit None (Some (lit "https://hooks.example/n8n"))
               (fun _ => 0%nat) SmallHost.host
               (Ok (requestFor (UrlArray [lit "a.example"; lit "https://a.example/x";
                                          lit "b.example"])))))
       = Some results
    /\ webhook jsstring
         (POST jsstring echoAudit None (Some (lit "https://hooks.example/n8n"))
            (fun _ => 0%nat) SmallHost.host
            (Ok (requestFor (UrlArray [lit "a.example"; lit "https://a.example/x";
                                       lit "b.example"]))))
       = match Some (lit "https://hooks.example/n8n") with
         | Some (c :: url) => Some (c :: url, results)
         | Some [] | None => None
         end.
Proof.
  apply (POST_success jsstring echoAudit None (Some (lit "https://hooks.example/n8n"))
           (fun _ => 0%nat) SmallHost.host
           (Ok (requestFor (UrlArray [lit "a.example"; lit "https://a.example/x";
                                      lit "b.example"])))).
  reflexivity.
Defined.

Lemma repeated_url_audited_once_witness :
  POST jsstring echoAudit None (Some []) (fun _ => 0%nat) SmallHost.host
    (Ok (requestFor (UrlArray (repeat (lit "a.example") 3))))
  = {| response := {| status := 200; json := Single jsstring (lit "https://a.example/") |};
       webhook := match Some [] with
                  | Some (c :: url) => Some (c :: url, [lit "https://a.example/"])
                  | Some [] | None => None
                  end |}.
Proof.
  apply (repeated_url_audited_once jsstring echoAudit None (Some []) (fun _ => 0%nat)
           SmallHost.host
           (requestFor (UrlArray (repeat (lit "a.example") 3)))
           (lit "a.example") (lit "https://a.example/") 2 (lit "https://a.example/")).
  - reflexivity.
  - reflexivity.
  - discriminate.
  - reflexivity.
Defined.

(** ** Contact discovery *)

Lemma when_foundOn (urls : list jsstring) (b : bool) (c : Contact.t) :
  foundOn urls c -> Forall (foundOn urls) (when b c).
Proof.
  intros Hc. destruct b; [constructor; [exact Hc|constructor]|constructor].
Qed.

Lemma mkContact_foundOn (urls : list jsstring) (t v u : jsstring) (x : option JSON)
  (p : float) :
  In u urls -> In (t, p) contactKinds -> foundOn urls (mkContact t v u x p).
Proof. intros Hu Hk. split; [exact Hu|exact Hk]. Qed.

Lemma contactPointContacts_foundOn (h : Host) (urls : list jsstring) (url : jsstring)
  (c : JSON) (cs : list Contact.t) :
  In url urls -> contactPointContacts h url c = Ok cs -> Forall (foundOn urls) cs.
Proof.
  intros Hu. unfold contactPointContacts. intros H.
  destruct (jsGet c (lit "email")) as [email|];
    [destruct (truthy email); [destruct (JS_String h email); [|discriminate H]|]|];
    cbn [andThen] in H;
    (destruct (jsGet c (lit "telephone")) as [telephone|];
     [destruct (truthy telephone);
      [destruct (JS_String h telephone); [|discriminate H]|]|]);
    cbn [andThen] in H; injection H as <-;
    repeat (constructor; [apply mkContact_foundOn; [exact Hu|simpl; tauto]|]);
    constructor.
Qed.

Lemma itemContacts_foundOn (h : Host) (urls : list jsstring) (url : jsstring)
  (item : JSON) (cs : list Contact.t) :
  In url urls -> itemContacts h url item = Ok cs -> Forall (foundOn urls) cs.
Proof.
  intros Hu. unfold itemContacts.
  destruct (isOrganization item); [|intros [= <-]; constructor].
  destruct (jsGet item (lit "contactPoint")) as [cp|]; [|intros [= <-]; constructor].
  destruct (truthy cp); [|intros [= <-]; constructor].
  apply flatMapM_Forall. intros c ys _. now apply contactPointContacts_foundOn.
Qed.

Lemma pageContacts_foundOn (h : Host) (urls : list jsstring) (page : jsstring * jsstring)
  (cs : list Contact.t) :
  In (fst page) urls -> pageContacts h page = Ok cs -> Forall (foundOn urls) cs.
Proof.
  destruct page as [url html]. cbn [fst]. intros Hu. unfold pageContacts.
  destruct (flatMapM (itemContacts h url) (extractJsonLd h html)) as [found|] eqn:Hf;
    [|discriminate]. cbn [andThen]. intros [= <-].
  repeat apply Forall_app_2.
  - apply Forall_flat_map, List.Forall_forall. intros m _. unfold linkContacts.
    repeat apply Forall_app_2; apply when_foundOn;
      (apply mkContact_foundOn; [exact Hu|simpl; tauto]).
  - apply Forall_map, List.Forall_forall. intros m _. unfold emailContact.
    apply mkContact_foundOn; [exact Hu|simpl; tauto].
  - apply Forall_map, List.Forall_forall. intros m _. unfold phoneContact.
    apply mkContact_foundOn; [exact Hu|simpl; tauto].
  - apply (flatMapM_Forall (foundOn urls) (itemContacts h url) (extractJsonLd h html));
      [|exact Hf].
    intros item ys _. now apply itemContacts_foundOn.
Qed.

(** X19.  Every contact discovery returns names as its source the URL of one
    of the pages given, and its type and confidence are one of eight fixed
    pairs: a type is never given another confidence than the table's. *)
Theorem contacts_name_their_page (h : Host) (pages : list (jsstring * jsstring))
  (r : Discovery.t) :
  discoverContacts h pages = Ok r ->
  Forall (foundOn (List.map fst pages)) (Discovery.contacts r).
Proof.
  unfold discoverContacts.
  destruct (flatMapM (pageContacts h) pages) as [out|] eqn:Hout; [|discriminate].
  cbn [andThen]. intros [= <-]. cbn [Discovery.contacts].
  apply (flatMapM_Forall _ (pageContacts h) pages); [|exact Hout].
  intros page ys Hin. apply pageContacts_foundOn. now apply in_map.
Qed.

Lemma contacts_name_their_page_witness :
  exists r,
    discoverContacts SmallHost.host [(lit "https://example.com/", twoLinks)] = Ok r
    /\ Forall (foundOn (List.map fst [(lit "https://example.com/", twoLinks)]))
         (Discovery.contacts r).
Proof.
  eexists. split; [vm_compute; reflexivity|].
  apply (contacts_name_their_page SmallHost.host
           [(lit "https://example.com/", twoLinks)]).
  vm_compute. reflexivity.
Defined.

(** ** Schema types and suggestions *)

Lemma walk_JObj (h : Host) (fields : list (jsstring * JSON)) :
  walk h (JObj fields)
  = andThen
      match assoc (lit "@type") fields with
      | Some t =>
          if truthy t then
            match t with
            | JArr xs => mapM (JS_String h) xs
            | _ => andThen (JS_String h t) (fun type => Ok [type])
            end
          else Ok []
      | None => Ok []
      end
      (fun types =>
         andThen (flatMapM (fun kv => walk h (snd kv)) fields)
           (fun inner => Ok (types ++ inner))).
Proof.
  cbn [walk]. f_equal.
  assert (Hk : forall fs,
             (fix keys (fields : list (jsstring * JSON)) : completion (list jsstring) :=
                match fields with
                | [] => Ok []
                | (_, v) :: rest =>
                    andThen (walk h v) (fun first =>
                      andThen (keys rest) (fun others => Ok (first ++ others)))
                end) fs
             = flatMapM (fun kv => walk h (snd kv)) fs).
  { induction fs as [|[k v] rest IH]; [reflexivity|].
    cbn [flatMapM snd]. now rewrite <- IH. }
  now rewrite Hk.
Qed.

Lemma walk_JArr (h : Host) (xs : list JSON) :
  walk h (JArr xs) = flatMapM (walk h) xs.
Proof.
  cbn [walk]. induction xs as [|x rest IH]; [reflexivity|].
  cbn [flatMapM]. now rewrite <- IH.
Qed.

(** A loop that returns ran every turn, and its pushes are those of its
    turns. *)
Lemma flatMapM_turn {T U : Type} (f : T -> completion (list U)) (l : list T)
  (zs : list U) (x : T) :
  flatMapM f l = Ok zs -> In x l -> exists ys, f x = Ok ys /\ incl ys zs.
Proof.
  revert zs. induction l as [|y l IH]; intros zs H Hin; [contradiction|].
  cbn [flatMapM] in H. destruct (f y) as [ys|] eqn:Hy; [|discriminate H].
  cbn [andThen] in H. destruct (flatMapM f l) as [zs'|]; [|discriminate H].
  cbn [andThen] in H. injection H as <-. destruct Hin as [->|Hin].
  - exists ys. split; [exact Hy|]. now apply incl_appl.
  - destruct (IH zs' eq_refl Hin) as (ys' & Hx & Hincl).
    exists ys'. split; [exact Hx|]. now apply incl_appr.
Qed.

Lemma flatMapM_from {T U : Type} (f : T -> completion (list U)) (l : list T)
  (zs : list U) (z : U) :
  flatMapM f l = Ok zs -> In z zs -> exists x ys, In x l /\ f x = Ok ys /\ In z ys.
Proof.
  revert zs. induction l as [|y l IH]; intros zs H Hin; cbn [flatMapM] in H.
  - injection H as <-. contradiction.
  - destruct (f y) as [ys|] eqn:Hy; [|discriminate H]. cbn [andThen] in H.
    destruct (flatMapM f l) as [zs'|]; [|discriminate H]. cbn [andThen] in H.
    injection H as <-. apply in_app_or in Hin as [Hin|Hin].
    + exists y, ys. split; [now left|]. now split.
    + destruct (IH zs' eq_refl Hin) as (x & ys' & Hx & Hf & Hz).
      exists x, ys'. split; [now right|]. now split.
Qed.

Lemma walk_within (h : Host) (v : JSON) (fields : list (jsstring * JSON))
  (t : jsstring) (types : list jsstring) :
  within v (JObj fields) ->
  assoc (lit "@type") fields = Some (JStr t) ->
  t <> [] ->
  walk h v = Ok types ->
  In t types.
Proof.
  intros Hw Ht Hne. remember (JObj fields) as w eqn:Hweq. revert types.
  induction Hw as [v|fs k v w Hin Hw IH|xs x w Hin Hw IH]; intros types Hwalk.
  - subst v. rewrite walk_JObj, Ht in Hwalk. cbn [truthy JS_String andThen] in Hwalk.
    destruct t as [|c t]; [congruence|]. cbn [List.length Nat.eqb negb andThen] in Hwalk.
    destruct (flatMapM _ fields) as [inner|]; [|discriminate Hwalk].
    cbn [andThen] in Hwalk. injection Hwalk as <-. now left.
  - rewrite walk_JObj in Hwalk.
    destruct (match assoc (lit "@type") fs with Some _ => _ | None => _ end)
      as [own|]; [|discriminate Hwalk].
    cbn [andThen] in Hwalk.
    destruct (flatMapM _ fs) as [inner|] eqn:Hinner; [|discriminate Hwalk].
    cbn [andThen] in Hwalk. injection Hwalk as <-.
    destruct (flatMapM_turn _ _ _ (k, v) Hinner Hin) as (ys & Hys & Hincl).
    cbn [snd] in Hys. apply in_or_app. right. apply Hincl. now apply (IH Hweq).
  - rewrite walk_JArr in Hwalk.
    destruct (flatMapM_turn _ _ _ x Hwalk Hin) as (ys & Hys & Hincl).
    apply Hincl. now apply (IH Hweq).
Qed.

Lemma includes_In (arr : list jsstring) (t : jsstring) :
  includes arr t = true <-> In t arr.
Proof. apply existsb_str_eqb. Qed.

Lemma RECOMMENDED_NoDup : List.NoDup RECOMMENDED_SCHEMA.
Proof. apply NoDup_ListNoDup, (bool_decide_unpack _). vm_compute. reflexivity. Qed.

Lemma filter_NoDup {T : Type} (p : T -> bool) (l : list T) :
  List.NoDup l -> List.NoDup (List.filter p l).
Proof.
  induction 1 as [|x l Hx Hl IH]; [constructor|]. simpl.
  destruct (p x); [|exact IH]. constructor; [|exact IH].
  intros Hin. apply filter_In in Hin. tauto.
Qed.

Lemma firstn_NoDup {T : Type} (n : nat) (l : list T) :
  List.NoDup l -> List.NoDup (firstn n l).
Proof.
  intros Hl. rewrite <- (firstn_skipn n l) in Hl. now apply List.NoDup_app_remove_r in Hl.
Qed.

Lemma firstn_In {T : Type} (n : nat) (l : list T) (x : T) :
  In x (firstn n l) -> In x l.
Proof.
  intros Hin. rewrite <- (firstn_skipn n l). apply in_or_app. now left.
Qed.

(** X20.  When the schema of a home page is returned, the detected types are
    pairwise distinct, and the suggestions are at most ten recommended
    types, pairwise distinct, none of which was detected. *)
Theorem suggestions_are_new_recommendations (h : Host) (html : jsstring)
  (s : Schema.t) :
  schemaOf h html = Ok s ->
  List.NoDup (Schema.detectedTypes s)
  /\ List.NoDup (Schema.suggestions s)
  /\ (List.length (Schema.suggestions s) <= 10)%nat
  /\ forall t, In t (Schema.suggestions s) ->
       In t RECOMMENDED_SCHEMA /\ ~ In t (Schema.detectedTypes s).
Proof.
  unfold schemaOf, extractSchemaTypes.
  destruct (flatMapM (walk h) (extractJsonLd h html)) as [types|]; [|discriminate].
  cbn [andThen]. intros [= <-]. cbn [Schema.detectedTypes Schema.suggestions].
  split; [apply uniqueAcc_NoDup|]. split; [|split].
  - apply firstn_NoDup, filter_NoDup, RECOMMENDED_NoDup.
  - unfold suggestionsFor. rewrite length_firstn. lia.
  - intros t Hin. apply firstn_In, filter_In in Hin as [Hr Hn].
    split; [exact Hr|]. intros Hd. apply includes_In in Hd.
    rewrite Hd in Hn. discriminate.
Qed.

Lemma suggestions_are_new_recommendations_witness :
  exists s,
    schemaOf SmallHost.host threeTypes = Ok s
    /\ List.NoDup (Schema.detectedTypes s)
    /\ List.NoDup (Schema.suggestions s)
    /\ (List.length (Schema.suggestions s) <= 10)%nat
    /\ forall t, In t (Schema.suggestions s) ->
         In t RECOMMENDED_SCHEMA /\ ~ In t (Schema.detectedTypes s).
Proof.
  eexists. split; [vm_compute; reflexivity|].
  apply (suggestions_are_new_recommendations SmallHost.host threeTypes).
  vm_compute. reflexivity.
Defined.

(** X21.  Every recommended type is either detected or suggested exactly when at
    least three of the thirteen were detected: with fewer, the cap of ten
    leaves recommended types that are neither. *)
Theorem suggestions_cover_recommendations (detectedTypes : list jsstring) :
  (3 <= detectedRecommended detectedTypes)%nat
  <-> forall t, In t RECOMMENDED_SCHEMA ->
        In t detectedTypes \/ In t (suggestionsFor detectedTypes).
Proof.
  unfold detectedRecommended, suggestionsFor.
  pose proof (List.filter_length (includes detectedTypes) RECOMMENDED_SCHEMA) as Hlen.
  change (List.length RECOMMENDED_SCHEMA) with 13%nat in Hlen.
  set (missing := List.filter (fun t => negb (includes detectedTypes t)) RECOMMENDED_SCHEMA)
    in *.
  split.
  - intros Hc t Ht. rewrite firstn_all2 by lia.
    destruct (includes detectedTypes t) eqn:Hi.
    + left. now apply includes_In.
    + right. apply filter_In. split; [exact Ht|]. now rewrite Hi.
  - intros Hall.
    destruct (le_lt_dec 3 (List.length (List.filter (includes detectedTypes)
                                          RECOMMENDED_SCHEMA))) as [Hc|Hc];
      [exact Hc|exfalso].
    assert (Hnd : List.NoDup missing) by apply filter_NoDup, RECOMMENDED_NoDup.
    rewrite <- (firstn_skipn 10 missing) in Hnd.
    destruct (skipn 10 missing) as [|t rest] eqn:Hs.
    + pose proof (length_skipn 10 missing) as Hl. rewrite Hs in Hl. simpl in Hl. lia.
    + assert (Hin : In t missing).
      { rewrite <- (firstn_skipn 10 missing), Hs. apply in_or_app. right. now left. }
      apply filter_In in Hin as [Hr Hn].
      destruct (Hall t Hr) as [Hd|Hsug].
      * apply includes_In in Hd. rewrite Hd in Hn. discriminate.
      * apply NoDup_remove_2 in Hnd. apply Hnd, in_or_app. now left.
Qed.

(** X22.  When the schema types of a list of JSON-LD items are returned, a
    type declared anywhere inside an item, at any depth, is among them,
    and is therefore not suggested. *)
Theorem declared_type_is_detected (h : Host) (jsonld : list JSON) (item : JSON)
  (fields : list (jsstring * JSON)) (t : jsstring) (detectedTypes : list jsstring) :
  extractSchemaTypes h jsonld = Ok detectedTypes ->
  In item jsonld ->
  within item (JObj fields) ->
  assoc (lit "@type") fields = Some (JStr t) ->
  t <> [] ->
  In t detectedTypes /\ ~ In t (suggestionsFor detectedTypes).
Proof.
  unfold extractSchemaTypes. intros Hx Hitem Hw Ht Hne.
  destruct (flatMapM (walk h) jsonld) as [types|] eqn:Htypes; [|discriminate Hx].
  cbn [andThen] in Hx. injection Hx as <-.
  assert (Hd : In t (unique types)).
  { unfold unique. apply uniqueAcc_In. split; [|tauto].
    destruct (flatMapM_turn _ _ _ item Htypes Hitem) as (ys & Hys & Hincl).
    apply Hincl. now apply (walk_within h item fields t). }
  split; [exact Hd|]. intros Hs.
  apply firstn_In, filter_In in Hs as [_ Hn].
  apply includes_In in Hd. rewrite Hd in Hn. discriminate.
Qed.

Lemma declared_type_is_detected_witness :
  exists detectedTypes,
    extractSchemaTypes SmallHost.host (extractJsonLd SmallHost.host threeTypes)
    = Ok detectedTypes
    /\ In (lit "Service") detectedTypes
    /\ ~ In (lit "Service") (suggestionsFor detectedTypes).
Proof.
  eexists. split; [vm_compute; reflexivity|].
  apply (declared_type_is_detected SmallHost.host
           (extractJsonLd SmallHost.host threeTypes)
           (JObj [(lit "@type", JArr [JStr (lit "Organization"); JStr (lit "WebSite")]);
                  (lit "publisher", JObj [(lit "@type", JStr (lit "Service"))])])
           [(lit "@type", JStr (lit "Service"))] (lit "Service")).
  - vm_compute. reflexivity.
  - vm_compute. now left.
  - apply (within_field _ (lit "publisher") (JObj [(lit "@type", JStr (lit "Service"))])).
    + right. now left.
    + apply within_here.
  - reflexivity.
  - discriminate.
Defined.

Lemma flatMapM_throws {T U : Type} (f : T -> completion (list U)) (l : list T)
  (x : T) (e : exn) :
  In x l -> f x = Throw e -> exists e', flatMapM f l = Throw e'.
Proof.
  induction l as [|y l IH]; [contradiction|]. intros [->|Hin] Hx; cbn [flatMapM].
  - rewrite Hx. cbn [andThen]. eauto.
  - destruct (f y); cbn [andThen]; [|eauto].
    destruct (IH Hin Hx) as [e' ->]. cbn [andThen]. eauto.
Qed.

Lemma walk_unprintable (h : Host) (v : JSON) (fields type : list (jsstring * JSON)) :
  within v (JObj fields) ->
  assoc (lit "@type") fields = Some (JObj type) ->
  assoc (lit "toString") type <> None ->
  exists e, walk h v = Throw e.
Proof.
  intros Hw Ht Hown. remember (JObj fields) as w eqn:Hweq.
  induction Hw as [v|fs k v w Hin Hw IH|xs x w Hin Hw IH].
  - subst v. rewrite walk_JObj, Ht. cbn [truthy JS_String].
    destruct (assoc (lit "toString") type); [|congruence]. cbn [andThen]. eauto.
  - rewrite walk_JObj.
    destruct (match assoc (lit "@type") fs with Some _ => _ | None => _ end)
      as [own|]; cbn [andThen]; [|eauto].
    destruct (IH Hweq) as [e He].
    destruct (flatMapM_throws (fun kv => walk h (snd kv)) fs (k, v) e Hin He)
      as [e' ->].
    cbn [andThen]. eauto.
  - rewrite walk_JArr. destruct (IH Hweq) as [e He].
    exact (flatMapM_throws (walk h) xs x e Hin He).
Qed.

(** X31.  A JSON-LD object, at any depth of an item, whose type is an object
    with a property named toString makes the extraction of the schema
    types throw: the conversion of that type to a string finds no
    primitive value. *)
Theorem unprintable_type_throws (h : Host) (jsonld : list JSON) (item : JSON)
  (fields type : list (jsstring * JSON)) :
  In item jsonld ->
  within item (JObj fields) ->
  assoc (lit "@type") fields = Some (JObj type) ->
  assoc (lit "toString") type <> None ->
  exists e, extractSchemaTypes h jsonld = Throw e.
Proof.
  intros Hitem Hw Ht Hown. unfold extractSchemaTypes.
  destruct (walk_unprintable h item fields type Hw Ht Hown) as [e He].
  destruct (flatMapM_throws (walk h) jsonld item e Hitem He) as [e' ->].
  cbn [andThen]. eauto.
Qed.

Lemma unprintable_type_throws_witness :
  exists e,
    extractSchemaTypes SmallHost.host (extractJsonLd SmallHost.host unprintableType)
    = Throw e.
Proof.
  apply (unprintable_type_throws SmallHost.host
           (extractJsonLd SmallHost.host unprintableType)
           (JObj [(lit "@type", JObj [(lit "toString", JNum 1)])])
           [(lit "@type", JObj [(lit "toString", JNum 1)])]
           [(lit "toString", JNum 1)]).
  - vm_compute. now left.
  - apply within_here.
  - reflexivity.
  - discriminate.
Defined.

(** ** Core files check *)

(** X23.  The robots and sitemap entries say whether their URL responded, and
    name it when it did.  The AI policy entry exists when one of the four
    candidates responded, and names the last of those that did: a later
    candidate replaces an earlier one. *)
Theorem checkCoreFiles_reports (fetch : Fetch) (origin : jsstring) (files : Files.t) :
  checkCoreFiles fetch origin = Ok files ->
  reported fetch (origin ++ lit "/robots.txt") (Files.robots files)
  /\ reported fetch (origin ++ lit "/sitemap.xml") (Files.sitemap files)
  /\ CoreFile.exists_ (Files.llm files) = existsb (responds fetch) (llmCandidates origin)
  /\ CoreFile.url (Files.llm files)
     = lastOf (List.filter (responds fetch) (llmCandidates origin)).
Proof.
  unfold checkCoreFiles, targets, llmCandidates, reported, responds, lastOf.
  cbn [checkTargets List.map existsb List.filter].
  intros H.
  repeat match type of H with
         | context [fetch ?u] =>
             let r := fresh "r" in
             destruct (fetch u) as [r|] eqn:?; cbn [andThen] in H;
             [destruct (Res.ok r) eqn:?|discriminate H]
         end;
    injection H as <-; cbn; repeat split; reflexivity.
Qed.

Lemma checkCoreFiles_reports_witness :
  exists files,
    checkCoreFiles smallSite (lit "https://a.example/") = Ok files
    /\ reported smallSite (lit "https://a.example/" ++ lit "/robots.txt")
         (Files.robots files)
    /\ reported smallSite (lit "https://a.example/" ++ lit "/sitemap.xml")
         (Files.sitemap files)
    /\ CoreFile.exists_ (Files.llm files)
       = existsb (responds smallSite) (llmCandidates (lit "https://a.example/"))
    /\ CoreFile.url (Files.llm files)
       = lastOf (List.filter (responds smallSite)
                   (llmCandidates (lit "https://a.example/"))).
Proof.
  eexists. split; [reflexivity|].
  apply (checkCoreFiles_reports smallSite (lit "https://a.example/")).
  reflexivity.
Defined.

(** ** The single-site audit *)

Lemma checkTargets_Ok (fetch : Fetch) (origin : jsstring)
  (ts : list (FileKey * jsstring)) (files : Files.t) :
  (exists files', checkTargets fetch origin ts files = Ok files')
  <-> Forall (resolves fetch) (List.map (fun t => origin ++ snd t) ts).
Proof.
  revert files. induction ts as [|[key path] rest IH]; intros files.
  - split; [constructor|]. intros _. now exists files.
  - cbn [checkTargets List.map snd]. split.
    + intros [files' H]. destruct (fetch (origin ++ path)) as [res|] eqn:Hf;
        [|discriminate H]. cbn [andThen] in H.
      constructor; [now exists res|]. eapply IH. exists files'. exact H.
    + intros H. inversion H as [|u us [res Hres] Hrest]; subst.
      rewrite Hres. cbn [andThen]. now apply IH.
Qed.

Lemma crawl_Ok (fetch : Fetch) (origin : jsstring) (paths : list jsstring) :
  (exists pages, crawl fetch origin paths = Ok pages)
  <-> Forall (readable fetch) (List.map (fun p => origin ++ p) paths).
Proof.
  induction paths as [|p rest IH].
  - split; [constructor|]. intros _. now exists [].
  - cbn [crawl List.map]. split.
    + intros [pages H]. destruct (fetch (origin ++ p)) as [res|] eqn:Hf;
        [|discriminate H]. cbn [andThen] in H.
      destruct (Res.ok res) eqn:Hok.
      * destruct (Res.text res) as [html|] eqn:Ht; [|discriminate H].
        cbn [andThen] in H.
        destruct (crawl fetch origin rest) as [pages'|] eqn:Hc; [|discriminate H].
        constructor.
        -- exists res. split; [exact Hf|]. intros _. now exists html.
        -- apply IH. now exists pages'.
      * constructor.
        -- exists res. split; [exact Hf|]. rewrite Hok. discriminate.
        -- apply IH. now exists pages.
    + intros H. inversion H as [|u us (res & Hres & Htext) Hrest]; subst.
      rewrite Hres. cbn [andThen]. apply IH in Hrest as [pages Hpages].
      destruct (Res.ok res) eqn:Hok.
      * destruct (Htext eq_refl) as [html Hhtml]. rewrite Hhtml, Hpages.
        cbn [andThen]. eauto.
      * now exists pages.
Qed.

Lemma crawl_pages (fetch : Fetch) (origin : jsstring) (paths : list jsstring)
  (pages : list Page.t) :
  crawl fetch origin paths = Ok pages ->
  (List.length pages <= List.length paths)%nat
  /\ Forall (fun pg => crawled fetch origin paths (Page.url pg) (Page.html pg)) pages.
Proof.
  revert pages. induction paths as [|p rest IH]; intros pages; cbn [crawl].
  - intros [= <-]. split; [reflexivity|constructor].
  - intros H. destruct (fetch (origin ++ p)) as [res|] eqn:Hf; [|discriminate H].
    cbn [andThen] in H.
    assert (Hrest : forall pages',
              crawl fetch origin rest = Ok pages' ->
              (List.length pages' <= List.length rest)%nat
              /\ Forall (fun pg => crawled fetch origin (p :: rest)
                                     (Page.url pg) (Page.html pg)) pages').
    { intros pages' Hc. destruct (IH pages' Hc) as [Hlen Hall]. split; [exact Hlen|].
      eapply Forall_impl; [exact Hall|].
      intros pg (q & r & Hq & Hr). exists q, r. split; [now right|exact Hr]. }
    destruct (Res.ok res) eqn:Hok.
    + destruct (Res.text res) as [html|] eqn:Ht; [|discriminate H].
      cbn [andThen] in H.
      destruct (crawl fetch origin rest) as [pages'|] eqn:Hc; [|discriminate H].
      cbn [andThen] in H. injection H as <-.
      destruct (Hrest pages' eq_refl) as [Hlen Hall]. split; [simpl; lia|].
      constructor; [|exact Hall]. cbn [Page.url Page.html].
      exists p, res. split; [now left|]. tauto.
    + destruct (Hrest pages H) as [Hlen Hall]. split; [simpl; lia|exact Hall].
Qed.

Lemma crawlSmall_kept (fetch : Fetch) (origin : jsstring) (limit : nat)
  (pages : list Page.t) (pg : Page.t) :
  crawlSmall fetch origin limit = Ok pages ->
  In pg pages ->
  crawled fetch origin (firstn limit HIGH_SIGNAL_PATHS) (Page.url pg) (Page.html pg).
Proof.
  unfold crawlSmall. intros H Hin. destruct (crawl_pages _ _ _ _ H) as [_ Hall].
  rewrite List.Forall_forall in Hall. now apply Hall.
Qed.

(** X24.  The crawl keeps at most [limit] pages and never more than nine; each
    is the readable ok response of one of the first [limit] paths, and
    carries the final URL of that response, which after a redirect is not
    the URL requested. *)
Theorem crawlSmall_pages (fetch : Fetch) (origin : jsstring) (limit : nat)
  (pages : list Page.t) :
  crawlSmall fetch origin limit = Ok pages ->
  (List.length pages <= Nat.min limit 9)%nat
  /\ Forall (fun pg => crawled fetch origin (firstn limit HIGH_SIGNAL_PATHS)
                         (Page.url pg) (Page.html pg)) pages.
Proof.
  unfold crawlSmall. intros H. destruct (crawl_pages _ _ _ _ H) as [Hlen Hall].
  split; [|exact Hall]. rewrite length_firstn in Hlen.
  change (List.length HIGH_SIGNAL_PATHS) with 9%nat in Hlen. exact Hlen.
Qed.

Lemma crawlSmall_pages_witness :
  exists pages,
    crawlSmall smallSite (lit "https://a.example/") 6 = Ok pages
    /\ (List.length pages <= Nat.min 6 9)%nat
    /\ Forall (fun pg => crawled smallSite (lit "https://a.example/")
                           (firstn 6 HIGH_SIGNAL_PATHS) (Page.url pg) (Page.html pg))
         pages.
Proof.
  eexists. split; [reflexivity|].
  apply (crawlSmall_pages smallSite (lit "https://a.example/") 6). reflexivity.
Defined.

Lemma firstHighest_In (l : list Contact.t) (b : Contact.t) :
  firstHighest l = Some b -> In b l.
Proof.
  revert b. induction l as [|x l IH]; intros b; cbn [firstHighest]; [discriminate|].
  destruct (firstHighest l) as [m|].
  - destruct (PrimFloat.ltb _ _); intros [= <-]; [right; now apply IH|now left].
  - intros [= <-]. now left.
Qed.

Lemma pickBest_In (out : list Contact.t) (b : Contact.t) :
  pickBest out = Some b -> In b out /\ isReachable b = true.
Proof.
  rewrite pickBest_firstHighest. intros H. apply firstHighest_In in H.
  now apply filter_In in H.
Qed.

Section AuditProperties.
Variable PageSpeed : Type.
Variable pagespeedOf : jsstring -> option jsstring -> PageSpeed.
Variable Owner : Type.
Variable companiesHouseOwnerGuess : JSON -> list Owner.
Variable fetch : Fetch.
Variable h : Host.

(** X25.  An audit succeeds exactly when the home page responds, its body can
    be read and the conversion of its schema types to strings does not
    throw; the six core file requests resolve; the origin parses as a
    URL; the six crawl requests resolve with a readable body where they
    respond; and contact discovery on the crawled pages does not throw.
    A status such as 404 on a core file or a crawled page does not fail
    the audit; a rejected request does. *)
Theorem auditOne_succeeds_iff (origin : jsstring) (options : JSON)
  (PSI_KEY : option jsstring) :
  (exists r, auditOne PageSpeed pagespeedOf Owner companiesHouseOwnerGuess fetch h
               origin options PSI_KEY = Ok r)
  <-> (exists res text types,
         fetch origin = Ok res /\ Res.ok res = true /\ Res.text res = Ok text
         /\ extractSchemaTypes h (extractJsonLd h text) = Ok types)
      /\ Forall (resolves fetch) (coreUrls origin)
      /\ URL_new h origin None <> None
      /\ Forall (readable fetch) (crawlUrls origin)
      /\ (forall pages,
            crawlSmall fetch origin 6 = Ok pages ->
            exists found,
              discoverContacts h (List.map (fun p => (Page.url p, Page.html p)) pages)
              = Ok found).
Proof.
  unfold auditOne, fetchText, coreUrls, crawlUrls, checkCoreFiles. split.
  - intros [r H].
    destruct (fetch origin) as [res|] eqn:Hf; [|discriminate H]. cbn [andThen] in H.
    destruct (Res.ok res) eqn:Hok; cbn [negb andThen Fetched.ok] in H;
      [|discriminate H].
    destruct (Res.text res) as [text|] eqn:Ht; [|discriminate H].
    cbn [andThen Fetched.ok negb Fetched.text Fetched.headers] in H.
    destruct (extractSchemaTypes h (extractJsonLd h text)) as [types|] eqn:Hs;
      [|discriminate H]. cbn [andThen] in H.
    destruct (checkTargets fetch origin targets _) as [files|] eqn:Hc;
      [|discriminate H]. cbn [andThen] in H.
    destruct (evaluateHome h text (Res.headers res) origin) as [issues|] eqn:He;
      [|discriminate H]. cbn [andThen] in H.
    destruct (crawlSmall fetch origin 6) as [pages|] eqn:Hp; [|discriminate H].
    cbn [andThen] in H.
    destruct (discoverContacts h _) as [found|] eqn:Hd; [|discriminate H].
    split; [now exists res, text, types|]. split; [|split; [|split]].
    + eapply checkTargets_Ok. eauto.
    + unfold evaluateHome in He. destruct (URL_new h origin None); congruence.
    + apply crawl_Ok. unfold crawlSmall in Hp. eauto.
    + intros pages' [= <-]. eauto.
  - intros ((res & text & types & Hf & Hok & Ht & Hs) & Hcore & Hurl & Hcrawl & Hfound).
    rewrite Hf. cbn [andThen]. rewrite Hok, Ht.
    cbn [negb andThen Fetched.ok Fetched.text Fetched.headers]. rewrite Hs.
    cbn [andThen].
    apply (checkTargets_Ok fetch origin targets
             {| Files.robots := absent; Files.sitemap := absent; Files.llm := absent |})
      in Hcore as [files ->].
    cbn [andThen]. unfold evaluateHome at 1.
    destruct (URL_new h origin None) as [u|]; [|congruence]. cbn [andThen].
    apply crawl_Ok in Hcrawl as [pages Hpages]. fold (crawlSmall fetch origin 6) in Hpages.
    rewrite Hpages. cbn [andThen]. destruct (Hfound pages Hpages) as [found ->].
    cbn [andThen]. eauto.
Qed.

(** X26.  The report of a successful audit is consistent: it is about the origin
    audited; its issues are the evaluation of the home page fetched there,
    with the catalogue's 23 ids; its summary and category scores are the
    scoring of exactly these issues, with an overall score from 21 to 100;
    its schema and files are those of the home page and of the core files
    check; and without the enrichment option it names no owner. *)
Theorem audit_report_is_consistent (origin : jsstring) (options : JSON)
  (PSI_KEY : option jsstring) (r : Audit.t PageSpeed Owner) :
  auditOne PageSpeed pagespeedOf Owner companiesHouseOwnerGuess fetch h
    origin options PSI_KEY = Ok r ->
  Audit.target r = origin
  /\ (exists res text,
        fetch origin = Ok res /\ Res.text res = Ok text
        /\ evaluateHome h text (Res.headers res) origin = Ok (Audit.issues r)
        /\ schemaOf h text = Ok (Audit.schema r))
  /\ List.map Issue.id (Audit.issues r) = catalogue
  /\ Audit.summary r
     = (Scored.overall (scoreCategories (Audit.issues r)),
        Scored.grade (scoreCategories (Audit.issues r)))
  /\ Audit.categories r = Scored.categories (scoreCategories (Audit.issues r))
  /\ PrimFloat.leb 21 (fst (Audit.summary r)) = true
  /\ PrimFloat.leb (fst (Audit.summary r)) 100 = true
  /\ checkCoreFiles fetch origin = Ok (Audit.files r)
  /\ Audit.pagespeed r = pagespeedOf origin PSI_KEY
  /\ (truthyOpt (jsGet options (lit "enrichment")) = false ->
      Audit.ownerCandidates r = []).
Proof.
  unfold auditOne, fetchText. intros H.
  destruct (fetch origin) as [res|] eqn:Hf; [|discriminate H]. cbn [andThen] in H.
  destruct (Res.ok res) eqn:Hok; cbn [negb andThen Fetched.ok] in H;
    [|discriminate H].
  destruct (Res.text res) as [text|] eqn:Ht; [|discriminate H].
  cbn [andThen Fetched.ok negb Fetched.text Fetched.headers] in H.
  destruct (extractSchemaTypes h (extractJsonLd h text)) as [types|] eqn:Hs;
    [|discriminate H]. cbn [andThen] in H.
  destruct (checkCoreFiles fetch origin) as [files|] eqn:Hc;
    [|discriminate H]. cbn [andThen] in H.
  destruct (evaluateHome h text (Res.headers res) origin) as [issues|] eqn:He;
    [|discriminate H]. cbn [andThen] in H.
  destruct (crawlSmall fetch origin 6) as [pages|] eqn:Hp; [|discriminate H].
  cbn [andThen] in H.
  destruct (discoverContacts h _) as [found|] eqn:Hd; [|discriminate H].
  cbn [andThen] in H. injection H as <-.
  cbn [Audit.target Audit.issues Audit.schema Audit.summary Audit.categories
       Audit.files Audit.ownerCandidates Audit.pagespeed fst].
  split; [reflexivity|]. split.
  { exists res, text. split; [first [exact Hf|reflexivity]|].
    split; [first [exact Ht|reflexivity]|]. split; [first [exact He|reflexivity]|].
    unfold schemaOf. now rewrite Hs. }
  split; [exact (evaluateHome_ids _ _ _ _ _ He)|].
  split; [reflexivity|]. split; [reflexivity|].
  split; [exact (overall_floor _ _ _ _ _ He)|].
  split; [apply score_ceiling|]. split; [reflexivity|]. split; [reflexivity|].
  intros ->. reflexivity.
Qed.

(** X27.  The best contact of an audit has the value of a contact of type
    email or calendly found on one of the six crawled pages that
    responded; its source is the final URL of that page, and its label is
    its value. *)
Theorem audit_best_contact (origin : jsstring) (options : JSON)
  (PSI_KEY : option jsstring) (r : Audit.t PageSpeed Owner) (b : Best.t) :
  auditOne PageSpeed pagespeedOf Owner companiesHouseOwnerGuess fetch h
    origin options PSI_KEY = Ok r ->
  Audit.best r = Some b ->
  Best.label b = Best.value b
  /\ exists html found c,
       crawled fetch origin (firstn 6 HIGH_SIGNAL_PATHS) (Best.sourceUrl b) html
       /\ pageContacts h (Best.sourceUrl b, html) = Ok found
       /\ In c found
       /\ (Contact.type c = lit "email" \/ Contact.type c = lit "calendly")
       /\ Contact.value c = Best.value b.
Proof.
  unfold auditOne. intros H Hb.
  destruct (fetchText fetch origin) as [home|]; [|discriminate H]. cbn [andThen] in H.
  destruct (negb (Fetched.ok home)); [discriminate H|].
  destruct (extractSchemaTypes h _) as [types|]; [|discriminate H].
  cbn [andThen] in H.
  destruct (checkCoreFiles fetch origin) as [files|]; [|discriminate H].
  cbn [andThen] in H.
  destruct (evaluateHome h _ _ origin) as [issues|]; [|discriminate H].
  cbn [andThen] in H.
  destruct (crawlSmall fetch origin 6) as [pages|] eqn:Hp; [|discriminate H].
  cbn [andThen] in H.
  destruct (discoverContacts h _) as [found|] eqn:Hd; [|discriminate H].
  cbn [andThen] in H. injection H as <-. cbn [Audit.best] in Hb.
  destruct (Discovery.best found) as [c|] eqn:Hbest; [|discriminate Hb].
  cbn [option_map] in Hb. injection Hb as <-. cbn [Best.label Best.value Best.sourceUrl].
  split; [reflexivity|].
  unfold discoverContacts in Hd.
  destruct (flatMapM (pageContacts h) _) as [out|] eqn:Hout; [|discriminate Hd].
  cbn [andThen] in Hd. injection Hd as <-. cbn [Discovery.best] in Hbest.
  apply pickBest_In in Hbest as [Hin Hreach].
  destruct (flatMapM_from _ _ _ c Hout Hin) as ([url html] & cs & Hpage & Hcs & Hc).
  apply in_map_iff in Hpage as (pg & [= <- <-] & Hpg).
  pose proof (crawlSmall_kept _ _ _ _ pg Hp Hpg) as Hall.
  pose proof (pageContacts_foundOn h [Page.url pg] (Page.url pg, Page.html pg) cs
                ltac:(now left) Hcs) as Hf.
  rewrite List.Forall_forall in Hf. destruct (Hf c Hc) as [[Hsrc|[]] _].
  rewrite <- Hsrc. exists (Page.html pg), cs, c.
  split; [exact Hall|]. split; [exact Hcs|]. split; [exact Hc|]. split; [|reflexivity].
  unfold isReachable, str_eqb in Hreach.
  apply orb_true_iff in Hreach as [Hr|Hr]; apply bool_decide_eq_true in Hr; tauto.
Qed.
End AuditProperties.

Lemma small_audits_example :
  (exists r, smallAudit smallSite (lit "https://a.example/") (JObj []) = Ok r)
  /\ smallAudit brokenSite (lit "https://a.example/") (JObj [])
     = Throw (TypeError (lit "fetch failed")).
Proof. split; [eexists|]; vm_compute; reflexivity. Qed.

Lemma audit_report_is_consistent_witness :
  exists r,
    smallAudit smallSite (lit "https://a.example/") (JObj []) = Ok r
    /\ Audit.target r = lit "https://a.example/"
    /\ (exists res text,
          smallSite (lit "https://a.example/") = Ok res /\ Res.text res = Ok text
          /\ evaluateHome SmallHost.host text (Res.headers res) (lit "https://a.example/")
             = Ok (Audit.issues r)
          /\ schemaOf SmallHost.host text = Ok (Audit.schema r))
    /\ List.map Issue.id (Audit.issues r) = catalogue
    /\ Audit.summary r
       = (Scored.overall (scoreCategories (Audit.issues r)),
          Scored.grade (scoreCategories (Audit.issues r)))
    /\ Audit.categories r = Scored.categories (scoreCategories (Audit.issues r))
    /\ PrimFloat.leb 21 (fst (Audit.summary r)) = true
    /\ PrimFloat.leb (fst (Audit.summary r)) 100 = true
    /\ checkCoreFiles smallSite (lit "https://a.example/") = Ok (Audit.files r)
    /\ Audit.pagespeed r = tt
    /\ (truthyOpt (jsGet (JObj []) (lit "enrichment")) = false ->
        Audit.ownerCandidates r = []).
Proof.
  eexists. split; [vm_compute; reflexivity|].
  apply (audit_report_is_consistent unit (fun _ _ => tt) unit (fun _ => []) smallSite
           SmallHost.host (lit "https://a.example/") (JObj []) None).
  vm_compute. reflexivity.
Defined.

Lemma audit_best_contact_witness :
  exists r b,
    smallAudit smallSite (lit "https://a.example/") (JObj []) = Ok r
    /\ Audit.best r = Some b
    /\ Best.label b = Best.value b
    /\ exists html found c,
         crawled smallSite (lit "https://a.example/") (firstn 6 HIGH_SIGNAL_PATHS)
           (Best.sourceUrl b) html
         /\ pageContacts SmallHost.host (Best.sourceUrl b, html) = Ok found
         /\ In c found
         /\ (Contact.type c = lit "email" \/ Contact.type c = lit "calendly")
         /\ Contact.value c = Best.value b.
Proof.
  eexists. eexists. split; [vm_compute; reflexivity|]. split; [vm_compute; reflexivity|].
  eapply (audit_best_contact unit (fun _ _ => tt) unit (fun _ => []) smallSite
            SmallHost.host (lit "https://a.example/") (JObj []) None);
    vm_compute; reflexivity.
Defined.

(** ** The audit page *)

Lemma normalizeOrigin_normaliseOrigin (h : Host) (input : jsstring) :
  normalizeOrigin h input
  = match normaliseOrigin h input with
    | Ok o => Some o
    | Throw _ => None
    end.
Proof.
  unfold normalizeOrigin, normaliseOrigin.
  destruct (URL_new h (withScheme input) None) as [u|]; [|reflexivity].
  now destruct (URL_new h (URL.origin u) None).
Qed.

Lemma mapTruthy_In (f : jsstring -> option jsstring) (arr : list jsstring) (y : jsstring) :
  In y (mapTruthy f arr) <-> y <> [] /\ exists x, In x arr /\ f x = Some y.
Proof.
  induction arr as [|a arr IH]; cbn [mapTruthy].
  - simpl. split; [tauto|]. intros (_ & x & [] & _).
  - destruct (f a) as [z|] eqn:Ha.
    + destruct (nonEmpty z) eqn:Hz.
      * simpl. rewrite IH. apply nonEmpty_spec in Hz. split.
        -- intros [->|(Hne & x & Hx & Hf)]; [split; [exact Hz|]; exists a; tauto|].
           split; [exact Hne|]. exists x. tauto.
        -- intros (Hne & x & [->|Hx] & Hf); [left; congruence|].
           right. split; [exact Hne|]. now exists x.
      * rewrite IH. split.
        -- intros (Hne & x & Hx & Hf). split; [exact Hne|]. exists x. simpl. tauto.
        -- intros (Hne & x & [->|Hx] & Hf).
           ++ assert (z = y) by congruence. subst z.
              apply nonEmpty_spec in Hne. congruence.
           ++ split; [exact Hne|]. now exists x.
    + rewrite IH. split.
      * intros (Hne & x & Hx & Hf). split; [exact Hne|]. exists x. simpl. tauto.
      * intros (Hne & x & [->|Hx] & Hf); [congruence|].
        split; [exact Hne|]. now exists x.
Qed.

Lemma parseMulti_length (h : Host) (input : jsstring) :
  (List.length (parseMulti h input) <= 10)%nat.
Proof. unfold parseMulti. rewrite length_firstn. lia. Qed.

Lemma parseMulti_NoDup (h : Host) (input : jsstring) : List.NoDup (parseMulti h input).
Proof. unfold parseMulti. apply firstn_NoDup, uniqueAcc_NoDup. Qed.

Lemma parseMulti_In (h : Host) (input : jsstring) (o : jsstring) :
  In o (parseMulti h input) ->
  o <> [] /\ exists piece, In piece (rawPieces input) /\ normaliseOrigin h piece = Ok o.
Proof.
  unfold parseMulti. intros Hin. apply firstn_In in Hin. unfold unique in Hin.
  apply uniqueAcc_In in Hin as [Hin _].
  apply mapTruthy_In in Hin as (Hne & piece & Hp & Hf). split; [exact Hne|].
  exists piece. split; [exact Hp|].
  rewrite normalizeOrigin_normaliseOrigin in Hf.
  destruct (normaliseOrigin h piece); congruence.
Qed.

(** X28.  The page parses its input into at most ten origins, pairwise distinct
    and not empty, each being what the route's own normaliser returns for
    one of the trimmed pieces of the input; so the bound in [canSubmit]
    always holds and the form can be sent exactly when an origin was
    parsed and no audit is running. *)
Theorem parseMulti_bounded (h : Host) (input : jsstring) (loading : bool) :
  let parsed := parseMulti h input in
  (List.length parsed <= 10)%nat
  /\ List.NoDup parsed
  /\ Forall (fun o => o <> []
                      /\ exists piece, In piece (rawPieces input)
                                       /\ piece <> []
                                       /\ normaliseOrigin h piece = Ok o) parsed
  /\ canSubmit parsed loading = negb (Nat.eqb (List.length parsed) 0) && negb loading.
Proof.
  cbv zeta. split; [apply parseMulti_length|]. split; [apply parseMulti_NoDup|]. split.
  - apply List.Forall_forall. intros o Ho.
    apply parseMulti_In in Ho as (Hne & piece & Hp & Hn). split; [exact Hne|].
    exists piece. split; [exact Hp|]. split; [|exact Hn].
    unfold rawPieces in Hp. apply filter_In in Hp as [_ Hp]. now apply nonEmpty_spec.
  - unfold canSubmit. pose proof (parseMulti_length h input) as Hlen.
    apply Nat.leb_le in Hlen. rewrite Hlen, andb_true_r.
    now destruct (List.length (parseMulti h input)).
Qed.

Lemma uniqueAcc_id (seen l : list jsstring) :
  List.NoDup l -> (forall x, In x l -> ~ In x seen) -> uniqueAcc seen l = l.
Proof.
  revert seen. induction l as [|a l IH]; intros seen Hnd Hseen; [reflexivity|].
  cbn [uniqueAcc]. inversion Hnd as [|a' l' Ha Hl]; subst.
  destruct (existsb (str_eqb a) seen) eqn:He.
  - apply existsb_str_eqb in He. exfalso. apply (Hseen a); [now left|exact He].
  - f_equal. apply IH; [exact Hl|]. intros x Hx [Heq|Hs].
    + subst x. contradiction.
    + apply (Hseen x); [now right|exact Hs].
Qed.

Lemma filter_all {T : Type} (p : T -> bool) (l : list T) :
  (forall x, In x l -> p x = true) -> List.filter p l = l.
Proof.
  induction l as [|a l IH]; intros H; [reflexivity|]. simpl.
  rewrite (H a) by now left. f_equal. apply IH. intros x Hx. apply H. now right.
Qed.

Lemma dedup_parseMulti (h : Host) (input : jsstring) :
  dedup (parseMulti h input) = parseMulti h input.
Proof.
  unfold dedup. rewrite filter_all.
  - unfold unique. rewrite uniqueAcc_id; [|apply parseMulti_NoDup|tauto].
    apply firstn_all2, parseMulti_length.
  - intros o Ho. apply parseMulti_In in Ho as [Hne _]. now apply nonEmpty_spec.
Qed.

Lemma mapM_fixed {T : Type} (f : T -> completion T) (l : list T) :
  Forall (fun x => f x = Ok x) l -> mapM f l = Ok l.
Proof.
  induction 1 as [|x l Hx Hl IH]; [reflexivity|]. cbn [mapM]. now rewrite Hx, IH.
Qed.

Section PageAndRoute.
Variable AuditResult : Type.
Variable auditOne : jsstring -> JSON -> option jsstring -> completion AuditResult.
Variable PSI_KEY : option jsstring.
Variable N8N : option jsstring.
Variable earliest : list exn -> nat.

(** X29.  What the page sends is audited as sent: when the parsed origins are
    fixed points of the normaliser, the route audits exactly this list,
    with the enrichment flag as its options.  When all these audits
    succeed the answer has status 200 and the page shows their results,
    one for each origin in order, whether it sent one URL or several;
    when one fails the answer is the error of one of the audits that
    fail. *)
Theorem page_list_is_audited_as_sent (h : Host) (input : jsstring)
  (includeEnrichment : bool) :
  let parsed := parseMulti h input in
  let audit := fun origin =>
    auditOne origin (JObj [(lit "enrichment", JBool includeEnrichment)]) PSI_KEY in
  let out := POST AuditResult auditOne PSI_KEY N8N earliest h
               (Ok (submitted parsed includeEnrichment)) in
  parsed <> [] ->
  Forall (fun o => normaliseOrigin h o = Ok o) parsed ->
  (forall results,
     Forall2 (fun o r => audit o = Ok r) parsed results ->
     status AuditResult (response AuditResult out) = 200
     /\ resultsShown (response AuditResult out) = Some results)
  /\ (forall o e,
        In o parsed -> audit o = Throw e ->
        exists o' e', In o' parsed /\ audit o' = Throw e'
                      /\ out = failed AuditResult e').
Proof.
  cbv zeta. intros Hne Hfix. unfold POST.
  assert (Hl : originList h (Request.url (submitted (parseMulti h input)
                                            includeEnrichment))
               = Ok (parseMulti h input)).
  { unfold submitted, originList. cbn [Request.url].
    destruct (parseMulti h input) as [|x [|y l]] eqn:Hp; [congruence| |];
      now apply mapM_fixed. }
  rewrite Hl, dedup_parseMulti.
  cbn [submitted Request.options truthyOpt truthy default id].
  split.
  - intros results Hres. apply mapM_Ok, (promiseAll_Ok earliest) in Hres.
    rewrite Hres. cbn [response status json]. split; [reflexivity|].
    unfold resultsShown. cbn [status json]. now destruct results as [|r [|r' rs]].
  - intros o e Hin He.
    destruct (promiseAll_fails earliest
                (fun origin =>
                   auditOne origin (JObj [(lit "enrichment", JBool includeEnrichment)])
                     PSI_KEY)
                (parseMulti h input) o e Hin He) as [e' He'].
    rewrite He'. apply promiseAll_Throw in He' as (o' & Ho' & Hf).
    now exists o', e'.
Qed.
End PageAndRoute.

Lemma page_list_is_audited_as_sent_witness :
  let parsed := parseMulti SmallHost.host (lit "a.example, https://a.example/x b.example") in
  let audit := fun origin =>
    auditExcept (lit "https://c.example/") origin
      (JObj [(lit "enrichment", JBool true)]) None in
  let out := POST jsstring (auditExcept (lit "https://c.example/")) None None
               (fun _ => 0%nat) SmallHost.host (Ok (submitted parsed true)) in
  (forall results,
     Forall2 (fun o r => audit o = Ok r) parsed results ->
     status jsstring (response jsstring out) = 200
     /\ resultsShown (response jsstring out) = Some results)
  /\ (forall o e,
        In o parsed -> audit o = Throw e ->
        exists o' e', In o' parsed /\ audit o' = Throw e' /\ out = failed jsstring e').
Proof.
  apply (page_list_is_audited_as_sent jsstring (auditExcept (lit "https://c.example/"))
           None None (fun _ => 0%nat) SmallHost.host
           (lit "a.example, https://a.example/x b.example") true).
  - vm_compute. discriminate.
  - vm_compute. repeat constructor.
Defined.

(** ** The issues table *)

Section InsertFacts.
Context {T : Type} (cmp : T -> T -> float).

Lemma insertSorted_past (x : T) (l1 l2 : list T) :
  Forall (fun y => PrimFloat.ltb 0 (cmp x y) = true) l1 ->
  insertSorted cmp x (l1 ++ l2) = l1 ++ insertSorted cmp x l2.
Proof.
  induction 1 as [|y l1 Hy Hl IH]; [reflexivity|].
  cbn [app insertSorted]. now rewrite Hy, IH.
Qed.

Lemma insertSorted_here (x : T) (l : list T) :
  Forall (fun y => PrimFloat.ltb 0 (cmp x y) = false) l ->
  insertSorted cmp x l = x :: l.
Proof.
  intros H. destruct l as [|y l]; [reflexivity|].
  inversion H as [|y' l' Hy Hl]; subst. cbn [insertSorted]. now rewrite Hy.
Qed.
End InsertFacts.

Lemma hasStatus_filter (s : Status) (items : list Issue.t) :
  Forall (fun i => Issue.status i = s) (List.filter (hasStatus s) items).
Proof.
  apply List.Forall_forall. intros i Hi. apply filter_In in Hi as [_ Hi].
  unfold hasStatus in Hi. destruct s, (Issue.status i); congruence.
Qed.

Lemma hasStatus_at (s st : Status) (i : Issue.t) :
  Issue.status i = st ->
  hasStatus s i = match s, st with
                  | pass, pass | warn, warn | fail, fail => true
                  | _, _ => false
                  end.
Proof. intros <-. reflexivity. Qed.

Lemma rank_before (x : Issue.t) (s st : Status) (l : list Issue.t) (b : bool) :
  Issue.status x = s ->
  Forall (fun i => Issue.status i = st) l ->
  PrimFloat.ltb 0 (PrimFloat.sub (severityRank s) (severityRank st)) = b ->
  Forall (fun y => PrimFloat.ltb 0
                     (PrimFloat.sub (severityRank (Issue.status x))
                        (severityRank (Issue.status y))) = b) l.
Proof.
  intros Hx Hl Hb. eapply Forall_impl; [exact Hl|].
  intros i Hi. cbn beta. now rewrite Hx, Hi.
Qed.

Lemma severity_sorted (items : list Issue.t) :
  sort (fun a b => PrimFloat.sub (severityRank (Issue.status a))
                     (severityRank (Issue.status b))) items
  = List.filter (hasStatus fail) items ++ List.filter (hasStatus warn) items
    ++ List.filter (hasStatus pass) items.
Proof.
  induction items as [|x items IH]; [reflexivity|].
  cbn [sort fold_right]. fold (sort (fun a b : Issue.t =>
    PrimFloat.sub (severityRank (Issue.status a)) (severityRank (Issue.status b))) items).
  rewrite IH. clear IH.
  pose proof (hasStatus_filter fail items) as Hf.
  pose proof (hasStatus_filter warn items) as Hw.
  pose proof (hasStatus_filter pass items) as Hp.
  set (cmp := fun a b : Issue.t =>
    PrimFloat.sub (severityRank (Issue.status a)) (severityRank (Issue.status b))).
  cbn [List.filter].
  destruct (Issue.status x) eqn:Hx;
    rewrite (hasStatus_at fail _ x Hx), (hasStatus_at warn _ x Hx),
      (hasStatus_at pass _ x Hx); cbv beta iota.
  - rewrite (insertSorted_past cmp x)
      by (apply (rank_before x pass fail); [exact Hx|exact Hf|reflexivity]).
    f_equal.
    rewrite (insertSorted_past cmp x)
      by (apply (rank_before x pass warn); [exact Hx|exact Hw|reflexivity]).
    f_equal. apply insertSorted_here.
    apply (rank_before x pass pass); [exact Hx|exact Hp|reflexivity].
  - rewrite (insertSorted_past cmp x)
      by (apply (rank_before x warn fail); [exact Hx|exact Hf|reflexivity]).
    f_equal. apply insertSorted_here. apply Forall_app_2.
    + apply (rank_before x warn warn); [exact Hx|exact Hw|reflexivity].
    + apply (rank_before x warn pass); [exact Hx|exact Hp|reflexivity].
  - apply insertSorted_here. repeat apply Forall_app_2.
    + apply (rank_before x fail fail); [exact Hx|exact Hf|reflexivity].
    + apply (rank_before x fail warn); [exact Hx|exact Hw|reflexivity].
    + apply (rank_before x fail pass); [exact Hx|exact Hp|reflexivity].
Qed.

(** X30.  The issues table lists the failures first, then the warnings, then
    the passes, each group in the order of the audit's issue list; an
    empty list gives no table. *)
Theorem issues_table_groups_by_severity (items : list Issue.t) :
  issueRows items
  = match items with
    | [] => None
    | _ :: _ =>
        Some (List.filter (hasStatus fail) items ++ List.filter (hasStatus warn) items
              ++ List.filter (hasStatus pass) items)
    end.
Proof.
  destruct items as [|x items]; [reflexivity|].
  unfold issueRows. now rewrite severity_sorted.
Qed.
